(** * BK-tree package: edit distance, metric tree, keyboard weights

    A shallow embedding of [bk_tree_pkg] (functions.py, node.py, bk_tree.py,
    keyboard.py) and the properties of it that the specification states.

    Conventions of the embedding.
    - A Python [str] is a [string]; its characters are [ascii] code units.
      The code only compares characters for equality (and strings
      lexicographically), so nothing depends on the size of the alphabet.
    - Python [int] is [Z]; [len] results are injected with [Z.of_nat].
    - A [dict] whose iteration order the code observes is an association
      list in insertion order; a [dict] that is only looked up is a [gmap].
    - Node objects live in a store addressed by the key under which every
      builder registers them in [_bk_nodes_dict]; a link holds such an address.
    - Loops that Python writes as [while] take a fuel argument; [None] means
      that the model gives no answer (fuel exhausted or a dangling address),
      never a Python outcome. *)

From Stdlib Require Import ZArith Ascii String List Lia Bool.
From stdpp Require Import base option list gmap sets strings.

Local Open Scope Z_scope.

#[local] Set Warnings "-clear-no-such-hyp".

(** ** Python builtins used by the package *)

(** [enumerate(xs)] *)
Definition enumerate {A} (xs : list A) : list (nat * A) :=
  combine (seq 0 (length xs)) xs.

(** [min(a, b, c)] *)
Definition min3 (a b c : Z) : Z := Z.min (Z.min a b) c.

(** [list(range(n))] *)
Definition range (n : nat) : list Z := map Z.of_nat (seq 0 n).

(** The type [str]. *)
Abbreviation str := String.string (only parsing).

(** [len(s)] *)
Definition len (s : string) : Z := Z.of_nat (String.length s).

(** The characters of a string, in order. *)
Definition chars (s : string) : list ascii := list_ascii_of_string s.

(** [str.casefold], on the ASCII letters only: [A]..[Z] go to [a]..[z] and
    every other code unit is left alone. *)
Definition casefold_char (c : ascii) : ascii :=
  let n := N_of_ascii c in
  if ((65 <=? n) && (n <=? 90))%N then ascii_of_N (n + 32) else c.

Fixpoint casefold (s : string) : string :=
  match s with
  | EmptyString => EmptyString
  | String c s' => String (casefold_char c) (casefold s')
  end.

(** [round(n / d)] for [d > 0]: Python rounds the quotient to the nearest
    integer and a tie to the even neighbour.  The quotient is taken exactly. *)
Definition py_round_div (n d : Z) : Z :=
  let q := n / d in
  let r := n mod d in
  if 2 * r <? d then q
  else if d <? 2 * r then q + 1
  else if Z.even q then q else q + 1.

(** ** functions.py *)

Module Functions.

(** The substitution term of line 71: [fn_weights(val_s1, val_s2)] when a
    weight function is given, [1] otherwise. *)
Definition substitution (fn_weights : option (ascii -> ascii -> Z))
    (val_s1 val_s2 : ascii) : Z :=
  match fn_weights with
  | Some f => f val_s1 val_s2
  | None => 1
  end.

(** One pass of the inner loop (lines 64-78): append a cell to
    [current_distances] and fold it into [min_row_distance]. *)
Definition cell_step (fn_weights : option (ascii -> ascii -> Z))
    (val_s1 : ascii) (previous_distances : list Z)
    (st : list Z * Z) (c : nat * ascii) : list Z * Z :=
  let '(current_distances, min_row_distance) := st in
  let '(idx_s2, val_s2) := c in
  let cell :=
    if Ascii.eqb val_s1 val_s2 then List.nth idx_s2 previous_distances 0
    else min3 (List.nth idx_s2 previous_distances 0
                 + substitution fn_weights val_s1 val_s2)
              (List.nth (1 + idx_s2) previous_distances 0 + 1)
              (List.nth idx_s2 current_distances 0 + 1) in
  let current_distances' := current_distances ++ [cell] in
  (current_distances', Z.min min_row_distance (List.last current_distances' 0)).

(** The body of the outer loop up to the early-exit test (lines 57-78):
    the new row and its running minimum. *)
Definition next_row (fn_weights : option (ascii -> ascii -> Z))
    (idx_s1 : nat) (val_s1 : ascii) (s2 : list ascii)
    (previous_distances : list Z) : list Z * Z :=
  let current_distances := [Z.of_nat idx_s1 + 1] in
  let min_row_distance := List.nth 0 current_distances 0 in
  fold_left (cell_step fn_weights val_s1 previous_distances)
            (enumerate s2) (current_distances, min_row_distance).

(** The test of line 80. *)
Definition early_exit (max_distance : option Z) (min_row_distance : Z) : bool :=
  match max_distance with
  | Some m => m <=? min_row_distance
  | None => false
  end.

(** The outer loop (lines 56-83) over the still unread part of
    [enumerate(s1)]. *)
Fixpoint rows_loop (fn_weights : option (ascii -> ascii -> Z))
    (max_distance : option Z) (s1 : list (nat * ascii)) (s2 : list ascii)
    (current_distances : list Z) : Z :=
  match s1 with
  | [] => List.last current_distances 0
  | (idx_s1, val_s1) :: s1' =>
      let '(current_distances', min_row_distance) :=
        next_row fn_weights idx_s1 val_s1 s2 current_distances in
      if early_exit max_distance min_row_distance then min_row_distance
      else rows_loop fn_weights max_distance s1' s2 current_distances'
  end.

(** The content of [current_distances] after [i] passes of the outer loop
    when no pass has taken the early exit. *)
Definition rows_after (fn_weights : option (ascii -> ascii -> Z))
    (s1 s2 : list ascii) (i : nat) : list Z :=
  fold_left (fun current_distances c =>
               (next_row fn_weights c.1 c.2 s2 current_distances).1)
            (take i (enumerate s1)) (range (length s2 + 1)).

(** Lines 50-51: the longer string drives the outer loop. *)
Definition operands (s1 s2 : string) : string * string :=
  if len s1 <? len s2 then (s2, s1) else (s1, s2).

(** [levenshtein_distance(s1, s2, max_distance, fn_weights, case_sensitive)].
    The [TypeError] of line 37 cannot arise: both arguments are strings. *)
Definition levenshtein_distance (s1 s2 : string) (max_distance : option Z)
    (fn_weights : option (ascii -> ascii -> Z)) (case_sensitive : bool) : Z :=
  let s1 := if case_sensitive then s1 else casefold s1 in
  let s2 := if case_sensitive then s2 else casefold s2 in
  if String.eqb s1 "" || String.eqb s2 "" then Z.max (len s1) (len s2)
  else if String.eqb s1 s2 then 0
  else
    let '(s1, s2) := operands s1 s2 in
    rows_loop fn_weights max_distance (enumerate (chars s1)) (chars s2)
              (range (String.length s2 + 1)).

End Functions.

Import Functions.

(** ** Exceptions and outcomes *)

(** The exception classes the package raises. *)
Inductive exn := ValueError | KeyError | TypeError | IndexError.

(** What a call yields: a value, or a raised exception. *)
Inductive result (A : Type) :=
  | Ok (a : A)
  | Raise (e : exn).
Arguments Ok {A} a.
Arguments Raise {A} e.

(** ** Python containers *)

(** [l.pop()]: the last element and the list without it. *)
Fixpoint pop {A} (l : list A) : option (list A * A) :=
  match l with
  | [] => None
  | x :: l' =>
      match pop l' with
      | None => Some ([], x)
      | Some (r, y) => Some (x :: r, y)
      end
  end.

(** An insertion-ordered [dict] as an association list: lookup, membership,
    assignment of a key (in place when present, at the end when new) and
    deletion. *)
Fixpoint dict_get {K V} `{EqDecision K} (k : K) (d : list (K * V)) : option V :=
  match d with
  | [] => None
  | (k', v) :: d' => if decide (k = k') then Some v else dict_get k d'
  end.

Definition dict_has {K V} `{EqDecision K} (k : K) (d : list (K * V)) : bool :=
  bool_decide (is_Some (dict_get k d)).

Fixpoint dict_set {K V} `{EqDecision K} (k : K) (v : V) (d : list (K * V))
    : list (K * V) :=
  match d with
  | [] => [(k, v)]
  | (k', v') :: d' =>
      if decide (k = k') then (k, v) :: d' else (k', v') :: dict_set k v d'
  end.

Fixpoint dict_del {K V} `{EqDecision K} (k : K) (d : list (K * V))
    : list (K * V) :=
  match d with
  | [] => []
  | (k', v') :: d' =>
      if decide (k = k') then d' else (k', v') :: dict_del k d'
  end.

(** [list.sort()] on strings: insertion into an ordered list, by the
    lexicographic order on code units. *)
Fixpoint sort_insert (x : string) (l : list string) : list string :=
  match l with
  | [] => [x]
  | y :: l' => if String.leb x y then x :: l else y :: sort_insert x l'
  end.

Definition sort (l : list string) : list string :=
  foldr sort_insert [] l.

(** [s.split(sep)] for a non-empty [sep]: [skip] counts the characters of a
    separator just matched that are still to be passed over, [cur] is the
    piece being read. *)
Fixpoint split_go (sep s : string) (skip : nat) (cur : string) : list string :=
  match s with
  | EmptyString => [cur]
  | String c s' =>
      match skip with
      | S skip' => split_go sep s' skip' cur
      | O =>
          if String.prefix sep s
          then cur :: split_go sep s' (String.length sep - 1) EmptyString
          else split_go sep s' 0 (cur +:+ String c EmptyString)
      end
  end.

(** [s.split(sep)]; an empty separator is a [ValueError]. *)
Definition split (s sep : string) : result (list string) :=
  if String.eqb sep "" then Raise ValueError else Ok (split_go sep s 0 "").

(** ** node.py *)

Module Node.

(** A node object: its value, its state and its links, a [dict] from a
    distance to the address of the child. *)
Record Node := mkNode {
  _value : string;
  _is_active : bool;
  _links : list (Z * string)
}.

(** [Node(value)]: active, no links. *)
Definition new (value : string) (is_active : bool) : Node :=
  mkNode value is_active [].

Definition get_value (n : Node) : string := _value n.

Definition get_links (n : Node) : list (Z * string) := _links n.

Definition is_active (n : Node) : bool := _is_active n.

Definition has_distance (distance : Z) (n : Node) : bool :=
  dict_has distance (_links n).

Definition get_link (distance : Z) (n : Node) : result string :=
  match dict_get distance (_links n) with
  | Some child => Ok child
  | None => Raise KeyError
  end.

Definition set_active (n : Node) : Node :=
  mkNode (_value n) true (_links n).

Definition set_inactive (n : Node) : Node :=
  mkNode (_value n) false (_links n).

Definition add_link (distance : Z) (node : string) (n : Node) : result Node :=
  if has_distance distance n then Raise KeyError
  else Ok (mkNode (_value n) (_is_active n) (dict_set distance node (_links n))).

Definition del_link (distance : Z) (n : Node) : result Node :=
  if has_distance distance n
  then Ok (mkNode (_value n) (_is_active n) (dict_del distance (_links n)))
  else Raise KeyError.

Definition clear_links (n : Node) : Node :=
  mkNode (_value n) (_is_active n) [].

End Node.

Import Node.

(** ** bk_tree.py *)

Module BKTree.

(** The tree object.  [_bk_nodes_dict] is also the store of the node
    objects: [_root] and every link hold a key of it. *)
Record BKTree := mkBKTree {
  _root : str;
  _bk_nodes_dict : gmap str Node;
  _fn_weights : option (ascii -> ascii -> Z)
}.

Definition with_nodes (t : BKTree) (d : gmap str Node) : BKTree :=
  mkBKTree (_root t) d (_fn_weights t).

Definition has_node (string : str) (t : BKTree) : bool :=
  bool_decide (is_Some (_bk_nodes_dict t !! string)).

(** [tree[string]] *)
Definition getitem (string : str) (t : BKTree) : result Node :=
  match _bk_nodes_dict t !! string with
  | Some n => Ok n
  | None => Raise KeyError
  end.

Definition get_num_nodes (t : BKTree) : nat := size (_bk_nodes_dict t).

Definition get_nodes (t : BKTree) : gset str := dom (_bk_nodes_dict t).

(** [neighbors.setdefault(lev_dist, set()).add(value)] *)
Definition bucket_add (lev_dist : Z) (value : str)
    (neighbors : gmap Z (gset str)) : gmap Z (gset str) :=
  <[lev_dist := default ∅ (neighbors !! lev_dist) ∪ {[value]}]> neighbors.

(** Lines 168-174: push the children whose edge lies in the band. *)
Definition push_links (lev_dist max_distance : Z) (links : list (Z * str))
    (stack : list str) : list str :=
  fold_left (fun stack (l : Z * str) =>
               let '(node_distance, ptr_node) := l in
               if (lev_dist - max_distance <=? node_distance)
                  && (node_distance <=? lev_dist + max_distance)
               then stack ++ [ptr_node] else stack)
            links stack.

(** The [while stack] loop of [get_neighbors]. *)
Fixpoint get_neighbors_loop (fuel : nat) (t : BKTree) (string : str)
    (max_distance : Z) (stack : list str)
    (neighbors : gmap Z (gset str)) : option (gmap Z (gset str)) :=
  match pop stack with
  | None => Some neighbors
  | Some (stack, current_ptr) =>
      match fuel with
      | O => None
      | S fuel =>
          match _bk_nodes_dict t !! current_ptr with
          | None => None
          | Some current_node =>
              let lev_dist :=
                levenshtein_distance string (get_value current_node) None
                                     (_fn_weights t) true in
              let neighbors :=
                if (lev_dist <=? max_distance) && is_active current_node
                then bucket_add lev_dist (get_value current_node) neighbors
                else neighbors in
              get_neighbors_loop fuel t string max_distance
                (push_links lev_dist max_distance (get_links current_node) stack)
                neighbors
          end
      end
  end.

Definition get_neighbors (fuel : nat) (string : str) (max_distance : Z)
    (t : BKTree) : option (gmap Z (gset str)) :=
  get_neighbors_loop fuel t string max_distance [_root t] ∅.

(** The [while True] loop of [add_node]: descend from [current_ptr] until a
    free distance is found and link the new node (stored under [string])
    there.  The tree is returned along with the outcome. *)
Fixpoint add_node_loop (fuel : nat) (string : str) (current_ptr : str)
    (t : BKTree) : option (result unit * BKTree) :=
  match fuel with
  | O => None
  | S fuel =>
      match _bk_nodes_dict t !! current_ptr, _bk_nodes_dict t !! string with
      | Some current_bk_node, Some bk_node =>
          let lev_dist :=
            levenshtein_distance (get_value current_bk_node) (get_value bk_node)
                                 None (_fn_weights t) true in
          if negb (has_distance lev_dist current_bk_node) then
            match add_link lev_dist string current_bk_node with
            | Ok n => Some (Ok tt, with_nodes t (<[current_ptr := n]> (_bk_nodes_dict t)))
            | Raise e => Some (Raise e, t)
            end
          else
            match get_link lev_dist current_bk_node with
            | Ok child => add_node_loop fuel string child t
            | Raise e => Some (Raise e, t)
            end
      | _, _ => None
      end
  end.

Definition add_node (fuel : nat) (string : str) (t : BKTree)
    : option (result unit * BKTree) :=
  if has_node string t then Some (Raise ValueError, t)
  else
    let bk_node := Node.new string true in
    add_node_loop fuel string (_root t)
                  (with_nodes t (<[string := bk_node]> (_bk_nodes_dict t))).

(** [tree[string].set_active()] and [tree[string].set_inactive()] *)
Definition activate (string : str) (t : BKTree) : result unit * BKTree :=
  match getitem string t with
  | Ok n => (Ok tt, with_nodes t (<[string := set_active n]> (_bk_nodes_dict t)))
  | Raise e => (Raise e, t)
  end.

Definition deactivate (string : str) (t : BKTree) : result unit * BKTree :=
  match getitem string t with
  | Ok n => (Ok tt, with_nodes t (<[string := set_inactive n]> (_bk_nodes_dict t)))
  | Raise e => (Raise e, t)
  end.

(** [min(suggestions.keys())] of a non-empty [dict]. *)
Definition min_key (suggestions : gmap Z (gset str)) : option Z :=
  match (map_to_list suggestions).*1 with
  | [] => None
  | k :: ks => Some (foldr Z.min k ks)
  end.

(** The radius of line 250. *)
Definition radius (string : str) : Z :=
  Z.max (py_round_div (len string) 5 + 1) 2.

Definition suggest_correction (fuel : nat) (string : str) (t : BKTree)
    : option (result (option str)) :=
  if has_node string t
     && match getitem string t with Ok n => is_active n | Raise _ => false end
  then Some (Ok None)
  else
    match get_neighbors fuel string (radius string) t with
    | None => None
    | Some suggestions =>
        if bool_decide (suggestions = ∅) then Some (Ok None)
        else
          match min_key suggestions with
          | None => Some (Raise ValueError)
          | Some k =>
              match suggestions !! k with
              | None => Some (Raise KeyError)
              | Some bucket =>
                  match sort (elements bucket) with
                  | [] => Some (Raise IndexError)
                  | best :: _ => Some (Ok (Some best))
                  end
              end
          end
    end.

(** [bk_tree_builder_from_set]: [strings_set] is the set in the order in
    which [pop] and then the [for] loop hand out its elements. *)
Fixpoint add_nodes (fuel : nat) (strings : list str) (t : BKTree)
    : option (result unit * BKTree) :=
  match strings with
  | [] => Some (Ok tt, t)
  | string :: strings' =>
      match add_node fuel string t with
      | Some (Ok _, t') => add_nodes fuel strings' t'
      | other => other
      end
  end.

Definition bk_tree_builder_from_set (fuel : nat) (strings_set : list str)
    (fn_weights : option (ascii -> ascii -> Z)) : option (result BKTree) :=
  match strings_set with
  | [] => Some (Raise ValueError)
  | first :: rest =>
      let root := Node.new first true in
      let bk_tree := mkBKTree first {[ get_value root := root ]} fn_weights in
      match add_nodes fuel rest bk_tree with
      | Some (Ok _, t) => Some (Ok t)
      | Some (Raise e, _) => Some (Raise e)
      | None => None
      end
  end.

(** The persisted form of a node and of a tree.  The distances of [links]
    are the keys after [int(distance)]; two keys of the input may convert to
    the same distance, so the list may repeat one. *)
Record NodeDict := mkNodeDict {
  value : str;
  is_active_flag : bool;
  links : list (Z * str)
}.

Record TreeDict := mkTreeDict {
  root : str;
  nodes : list NodeDict
}.

(** Lines 418-421: the dict comprehension; a later record replaces an
    earlier one with the same value. *)
Definition nodes_of (nodes : list NodeDict) : gmap str Node :=
  fold_left (fun d nd => <[value nd := Node.new (value nd) (is_active_flag nd)]> d)
            nodes ∅.

(** Lines 430-434: the links of one record. *)
Fixpoint link_all (node_value : str) (links : list (Z * str))
    (bk_nodes_dict : gmap str Node) : result (gmap str Node) :=
  match links with
  | [] => Ok bk_nodes_dict
  | (distance, node) :: links' =>
      if negb (bool_decide (is_Some (bk_nodes_dict !! node))) then Raise KeyError
      else
        match bk_nodes_dict !! node_value with
        | None => Raise KeyError
        | Some n =>
            match add_link distance node n with
            | Raise e => Raise e
            | Ok n' => link_all node_value links' (<[node_value := n']> bk_nodes_dict)
            end
        end
  end.

(** Lines 427-434: the loop over the records. *)
Fixpoint link_nodes (nodes : list NodeDict) (bk_nodes_dict : gmap str Node)
    : result (gmap str Node) :=
  match nodes with
  | [] => Ok bk_nodes_dict
  | node_dict :: nodes' =>
      match link_all (value node_dict) (links node_dict) bk_nodes_dict with
      | Raise e => Raise e
      | Ok d => link_nodes nodes' d
      end
  end.

(** [bk_tree_builder_from_dict].  The emptiness test of line 415 cannot
    fire on a structure that has a root and node records. *)
Definition bk_tree_builder_from_dict (bk_tree_dict : TreeDict)
    (fn_weights : option (ascii -> ascii -> Z)) : result BKTree :=
  let bk_nodes_dict := nodes_of (nodes bk_tree_dict) in
  match bk_nodes_dict !! root bk_tree_dict with
  | None => Raise KeyError
  | Some _ =>
      match link_nodes (nodes bk_tree_dict) bk_nodes_dict with
      | Raise e => Raise e
      | Ok d => Ok (mkBKTree (root bk_tree_dict) d fn_weights)
      end
  end.

(** [bk_tree_builder_from_file]: [content] is what [ptr_file.read()]
    returns and [set_iter] the order in which a set hands out its elements. *)
Definition bk_tree_builder_from_file (set_iter : gset str -> list str)
    (fuel : nat) (content : str) (delimiter : str)
    (fn_weights : option (ascii -> ascii -> Z)) : option (result BKTree) :=
  match split content delimiter with
  | Raise e => Some (Raise e)
  | Ok pieces =>
      bk_tree_builder_from_set fuel (set_iter (list_to_set pieces)) fn_weights
  end.

(** [Node.to_dict] (node.py, lines 198-223) for a node of the store: every
    link is written with the value of the node it points to. *)
Definition node_to_dict (store : gmap str Node) (n : Node) : option NodeDict :=
  match mapM (fun l : Z * str =>
                match store !! l.2 with
                | Some child => Some (l.1, get_value child)
                | None => None
                end) (get_links n) with
  | Some ls => Some (mkNodeDict (get_value n) (is_active n) ls)
  | None => None
  end.

(** [BKTree.to_dict].  The records come in the order in which the model
    lists the dictionary, which need not be Python's insertion order. *)
Definition to_dict (t : BKTree) : option TreeDict :=
  match _bk_nodes_dict t !! _root t,
        mapM (node_to_dict (_bk_nodes_dict t)) (map_to_list (_bk_nodes_dict t)).*2 with
  | Some r, Some records => Some (mkTreeDict (get_value r) records)
  | _, _ => None
  end.

End BKTree.

Import BKTree.

(** ** keyboard.py *)

Module Keyboard.

Section WithCoordinates.

(** A coordinate is a pair of floats and the weight of two coordinates is
    [int(round(euclidean_distance(c1, c2)))].  Neither is computed here:
    the weight is a parameter, and nothing is assumed about it. *)
Context {coord : Type} (weight_of : coord -> coord -> Z).

(** The keyboard object: [_keys] in insertion order, [_keys_weight] as a
    table of tables. *)
Record Keyboard := mkKeyboard {
  _keys : list (str * coord);
  _keys_weight : gmap str (gmap str Z)
}.

(** [table.setdefault(k, {k: 0})] *)
Definition setdefault_row (k : str) (w : gmap str (gmap str Z))
    : gmap str (gmap str Z) :=
  match w !! k with
  | Some _ => w
  | None => <[k := {[k := 0]}]> w
  end.

(** Lines 28-37: the pairs of [key_i] with the keys after it. *)
Definition init_pairs (key_i : str) (coordinate_i : coord)
    (later : list (str * coord)) (w : gmap str (gmap str Z))
    : gmap str (gmap str Z) :=
  fold_left (fun w (e : str * coord) =>
               let '(key_ii, coordinate_ii) := e in
               let weight := weight_of coordinate_i coordinate_ii in
               if 1 <? weight then w
               else
                 let w := alter (fun r => <[key_ii := weight]> r) key_i w in
                 alter (fun r => <[key_i := weight]> r) key_ii
                       (setdefault_row key_ii w))
            later w.

(** Lines 26-37: the loop over [keys_list]. *)
Fixpoint init_rows (keys_list : list (str * coord)) (w : gmap str (gmap str Z))
    : gmap str (gmap str Z) :=
  match keys_list with
  | [] => w
  | (key_i, coordinate_i) :: later =>
      init_rows later (init_pairs key_i coordinate_i later (setdefault_row key_i w))
  end.

(** [Keyboard(keys)] *)
Definition init (keys : list (str * coord)) : Keyboard :=
  mkKeyboard keys (init_rows keys ∅).

Definition has_key (key : str) (kb : Keyboard) : bool :=
  dict_has key (_keys kb).

(** [get_weight(k1, k2, default_weight)]; indexing [_keys_weight] with a
    key it does not hold is a [KeyError]. *)
Definition get_weight (k1 k2 : str) (default_weight : Z) (kb : Keyboard)
    : result Z :=
  if has_key k1 kb then
    match _keys_weight kb !! k1 with
    | Some r => Ok (default default_weight (r !! k2))
    | None => Raise KeyError
    end
  else Ok default_weight.

(** One pass of the loop of [add_key] (lines 161-167). *)
Definition add_key_step (key : str) (coordinate : coord)
    (keys : list (str * coord)) (w : gmap str (gmap str Z)) (k : str)
    : result (gmap str (gmap str Z)) :=
  match dict_get k keys with
  | None => Raise KeyError
  | Some c =>
      let weight := weight_of c coordinate in
      if 1 <? weight then Ok w
      else
        match w !! k with
        | None => Raise KeyError
        | Some r =>
            let w := <[k := match r !! key with
                            | Some _ => r
                            | None => <[key := weight]> r
                            end]> w in
            let w := setdefault_row key w in
            Ok (alter (fun r => match r !! k with
                                | Some _ => r
                                | None => <[k := weight]> r
                                end) key w)
        end
  end.

(** A [for] loop whose body may raise: the table reached and the outcome. *)
Fixpoint for_each {A S} (body : S -> A -> result S) (xs : list A) (s : S)
    : result unit * S :=
  match xs with
  | [] => (Ok tt, s)
  | x :: xs' =>
      match body s x with
      | Ok s' => for_each body xs' s'
      | Raise e => (Raise e, s)
      end
  end.

Definition add_key (key : str) (coordinate : coord) (kb : Keyboard)
    : result unit * Keyboard :=
  if dict_has key (_keys kb) then (Raise ValueError, kb)
  else
    let keys := dict_set key coordinate (_keys kb) in
    let w := <[key := {[key := 0]}]> (_keys_weight kb) in
    let '(r, w) := for_each (add_key_step key coordinate keys) keys.*1 w in
    (r, mkKeyboard keys w).

(** One pass of the loop of [del_key] (line 206).  The loop walks a
    snapshot of the keys of the row; a run in which nothing raises does not
    depend on the order of the snapshot. *)
Definition del_key_step (key : str) (w : gmap str (gmap str Z)) (k : str)
    : result (gmap str (gmap str Z)) :=
  match w !! k with
  | None => Raise KeyError
  | Some r =>
      match r !! key with
      | None => Raise KeyError
      | Some _ => Ok (<[k := delete key r]> w)
      end
  end.

Definition del_key (key : str) (kb : Keyboard) : result unit * Keyboard :=
  if negb (has_key key kb) then (Raise ValueError, kb)
  else
    match _keys_weight kb !! key with
    | None => (Raise KeyError, kb)
    | Some r =>
        match for_each (del_key_step key) (map_to_list r).*1 (_keys_weight kb) with
        | (Raise e, w) => (Raise e, mkKeyboard (_keys kb) w)
        | (Ok _, w) =>
            match w !! key with
            | None => (Raise KeyError, mkKeyboard (_keys kb) w)
            | Some _ =>
                (Ok tt, mkKeyboard (dict_del key (_keys kb)) (delete key w))
            end
        end
    end.

Definition update_key (key : str) (coordinate : coord) (kb : Keyboard)
    : result unit * Keyboard :=
  if negb (has_key key kb) then (Raise ValueError, kb)
  else
    match del_key key kb with
    | (Ok _, kb') => add_key key coordinate kb'
    | (Raise e, kb') => (Raise e, kb')
    end.

(** The three mutators as data, and a run of them in which the caller
    goes on after an exception with the keyboard as the call left it. *)
Inductive op :=
  | AddKey (key : str) (coordinate : coord)
  | UpdateKey (key : str) (coordinate : coord)
  | DelKey (key : str).

Definition run_op (o : op) (kb : Keyboard) : result unit * Keyboard :=
  match o with
  | AddKey key coordinate => add_key key coordinate kb
  | UpdateKey key coordinate => update_key key coordinate kb
  | DelKey key => del_key key kb
  end.

Definition run_ops (ops : list op) (kb : Keyboard) : Keyboard :=
  fold_left (fun kb o => (run_op o kb).2) ops kb.

End WithCoordinates.

End Keyboard.

(** ** The shape of a tree in the store

    The proofs about the tree read the store through a forest: the
    children of a node, each with the distance of its edge, its value and
    its own children, followed by its later siblings. *)

Module Shape.

Inductive forest :=
  | fnil
  | fcons (d : Z) (v : str) (kids : forest) (sibs : forest).

(** The [_links] of a node whose children are [f]. *)
Fixpoint flinks (f : forest) : list (Z * str) :=
  match f with
  | fnil => []
  | fcons d v _ sibs => (d, v) :: flinks sibs
  end.

(** The values stored in [f]. *)
Fixpoint fvalues (f : forest) : list str :=
  match f with
  | fnil => []
  | fcons _ v kids sibs => v :: fvalues kids ++ fvalues sibs
  end.

(** [f] followed by the siblings [g]. *)
Fixpoint fapp (f g : forest) : forest :=
  match f with
  | fnil => g
  | fcons d v kids sibs => fcons d v kids (fapp sibs g)
  end.

(** The node stored under [v] holds the value [v] and links to [kids]. *)
Definition node_at (store : gmap str Node) (v : str) (kids : forest) : Prop :=
  ∃ n, store !! v = Some n ∧ get_value n = v ∧ get_links n = flinks kids.

(** The store holds the forest [f]. *)
Fixpoint repr (store : gmap str Node) (f : forest) : Prop :=
  match f with
  | fnil => True
  | fcons _ v kids sibs =>
      node_at store v kids ∧ repr store kids ∧ repr store sibs
  end.

(** The unweighted, unbounded distance the tree computes. *)
Definition dist (a b : str) : Z := levenshtein_distance a b None None true.

(** The invariant of a BK-tree on the children [f] of a node with value
    [x]: everything below an edge is at the distance of that edge from [x]. *)
Fixpoint bk_inv (x : str) (f : forest) : Prop :=
  match f with
  | fnil => True
  | fcons d v kids sibs =>
      (∀ u, u ∈ v :: fvalues kids → dist x u = d)
      ∧ bk_inv v kids ∧ bk_inv x sibs
  end.

(** The children of [f] whose edge lies in the band around [D]. *)
Fixpoint kept (D k : Z) (f : forest) : list (str * forest) :=
  match f with
  | fnil => []
  | fcons e v kids sibs =>
      if (D - k <=? e) && (e <=? D + k)
      then (v, kids) :: kept D k sibs else kept D k sibs
  end.

(** The values below the nodes on a stack, and their number. *)
Definition stack_values (F : list (str * forest)) : list str :=
  flat_map (fun vk => vk.1 :: fvalues vk.2) F.

(** The condition under which a stack entry is traversed. *)
Definition entry_ok (store : gmap str Node) (vk : str * forest) : Prop :=
  node_at store vk.1 vk.2 ∧ repr store vk.2 ∧ bk_inv vk.1 vk.2.

(** A tree object whose store holds a BK-tree shape with distinct values,
    the whole of [_bk_nodes_dict], under no weight function. *)
Definition tree_ok (t : BKTree) : Prop :=
  ∃ kids,
    node_at (_bk_nodes_dict t) (_root t) kids
    ∧ repr (_bk_nodes_dict t) kids
    ∧ bk_inv (_root t) kids
    ∧ NoDup (_root t :: fvalues kids)
    ∧ (∀ u, u ∈ _root t :: fvalues kids ↔ is_Some (_bk_nodes_dict t !! u))
    ∧ _fn_weights t = None.

(** The trees the package builds with the default distance: a seed node,
    then successful insertions and changes of state in any order. *)
Inductive built : BKTree → Prop :=
  | built_seed (seed : str) :
      built (mkBKTree seed {[ seed := Node.new seed true ]} None)
  | built_add_node t fuel string t' :
      built t → add_node fuel string t = Some (Ok tt, t') → built t'
  | built_activate t string t' :
      built t → activate string t = (Ok tt, t') → built t'
  | built_deactivate t string t' :
      built t → deactivate string t = (Ok tt, t') → built t'.

(** The bucket of [d] in a result of [get_neighbors]. *)
Definition bucket (d : Z) (neighbors : gmap Z (gset str)) : gset str :=
  default ∅ (neighbors !! d).

(** [u] is stored, active and at distance [d] from [q], within [k]. *)
Definition hit (t : BKTree) (q : str) (k : Z) (d : Z) (u : str) : Prop :=
  ∃ n, _bk_nodes_dict t !! u = Some n ∧ is_active n = true
       ∧ levenshtein_distance q u None None true = d ∧ d <= k.

End Shape.

Import Shape.

(** ** Stores without dangling links *)

Module StoreShape.

(** Every node is stored under its value, links at most once under one
    distance, and links only to stored nodes. *)
Definition store_closed (store : gmap str Node) : Prop :=
  ∀ k n, store !! k = Some n →
    get_value n = k
    ∧ NoDup (get_links n).*1
    ∧ ∀ d c, (d, c) ∈ get_links n → is_Some (store !! c).

(** No link of the dictionary points outside it. *)
Definition links_inside (d : gmap str Node) : Prop :=
  ∀ k n dist c, d !! k = Some n → (dist, c) ∈ get_links n → is_Some (d !! c).

(** The record that [to_dict] writes for a node. *)
Definition record_of (n : Node) : NodeDict :=
  mkNodeDict (get_value n) (is_active n) (get_links n).

End StoreShape.

Import StoreShape.

(** ** The invariant of the keyboard table *)

Module KeyboardShape.

Import Keyboard.

Section WithCoordinates.

Context {coord : Type}.

(** The table is closed and symmetric: every row holds 0 for its own key,
    and an entry of [k'] in the row of [k] has its twin in the row of [k']. *)
Definition sym_table (w : gmap str (gmap str Z)) : Prop :=
  (∀ k r, w !! k = Some r → r !! k = Some 0)
  ∧ (∀ k r k', w !! k = Some r → is_Some (r !! k') →
               ∃ r', w !! k' = Some r' ∧ r' !! k = r !! k').

(** The invariant of a keyboard object. *)
Definition kb_ok (kb : @Keyboard coord) : Prop :=
  NoDup (_keys kb).*1
  ∧ (∀ k, is_Some (_keys_weight kb !! k) ↔ k ∈ (_keys kb).*1)
  ∧ sym_table (_keys_weight kb).

(** The entry of [b] in the row of [a], if there is one. *)
Definition entry (w : gmap str (gmap str Z)) (a b : str) : option Z :=
  match w !! a with
  | Some r => r !! b
  | None => None
  end.

(** What the table keeps for a pair of coordinates: their weight when it
    is at most 1, nothing otherwise. *)
Definition pair_entry (weight_of : coord -> coord -> Z) (c1 c2 : coord)
    : option Z :=
  if 1 <? weight_of c1 c2 then None else Some (weight_of c1 c2).

End WithCoordinates.

End KeyboardShape.

Import KeyboardShape.

(** ** Concrete inputs used in the examples *)

(** The seed of the scenario: a tree that holds "book" alone. *)
Definition book_seed : BKTree :=
  mkBKTree "book" {[ "book" := Node.new "book" true ]} None.

(** A weight function that charges nothing for replacing [a] and five for
    replacing anything else. *)
Definition skewed_weight (x y : ascii) : Z :=
  if Ascii.eqb x "a" then 0 else 5.

(** A persisted tree of two nodes, the second inactive. *)
Definition book_books_dict : TreeDict :=
  mkTreeDict "book" [mkNodeDict "book" true [(1, "books")];
                      mkNodeDict "books" false []].

(** The tree that structure stands for. *)
Definition book_books_tree : BKTree :=
  mkBKTree "book"
           {[ "book" := mkNode "book" true [(1, "books")];
              "books" := mkNode "books" false [] ]} None.

(** A keyboard on a line: the coordinate is a position and the weight of
    two positions their distance. *)
Definition line_weight (a b : Z) : Z := Z.abs (a - b).

(** ** The recurrence the rolling rows compute

    [lev_rec fw a b] is the edit cost between two character lists, read
    from their heads, with the cell rule of lines 66-75: the diagonal value
    on equal characters, else the least of substitution, insertion and
    deletion.  The rows of [rows_loop] hold its values on reversed prefixes. *)

Module Recurrence.

Fixpoint lev_rec (fw : option (ascii -> ascii -> Z)) (a b : list ascii)
    {struct a} : Z :=
  match a with
  | [] => Z.of_nat (length b)
  | x :: a' =>
      (fix inner (b : list ascii) : Z :=
         match b with
         | [] => Z.of_nat (length a)
         | y :: b' =>
             if Ascii.eqb x y then lev_rec fw a' b'
             else min3 (lev_rec fw a' b' + substitution fw x y)
                       (lev_rec fw a' b + 1)
                       (inner b' + 1)
         end) b
  end.

(** The row that belongs to the reversed prefix [p] of the outer string. *)
Definition row (fw : option (ascii -> ascii -> Z)) (p s2 : list ascii) : list Z :=
  map (fun j => lev_rec fw p (rev (take j s2))) (seq 0 (S (length s2))).

(** [m] is the least element of [l]. *)
Definition is_minimum (m : Z) (l : list Z) : Prop :=
  m ∈ l ∧ ∀ c, c ∈ l → m <= c.

(** Every substitution costs at least nothing. *)
Definition nonneg_weights (fw : option (ascii -> ascii -> Z)) : Prop :=
  ∀ x y, 0 <= substitution fw x y.

(** The substitution cost does not depend on the order of its arguments. *)
Definition symmetric_weights (fw : option (ascii -> ascii -> Z)) : Prop :=
  ∀ x y, substitution fw x y = substitution fw y x.

(** The plain three-way recurrence with unit costs (no shortcut on equal
    characters); the unweighted [lev_rec] coincides with it. *)
Fixpoint edit_rec (a b : list ascii) {struct a} : Z :=
  match a with
  | [] => Z.of_nat (length b)
  | x :: a' =>
      (fix inner (b : list ascii) : Z :=
         match b with
         | [] => Z.of_nat (length a)
         | y :: b' =>
             min3 (edit_rec a' b' + (if Ascii.eqb x y then 0 else 1))
                  (edit_rec a' b + 1)
                  (inner b' + 1)
         end) b
  end.

End Recurrence.

Import Recurrence.

(** ** Facts about the recurrences *)

Section RecurrenceFacts.

Lemma lev_rec_nil_l fw b : lev_rec fw [] b = Z.of_nat (length b).
Proof. reflexivity. Qed.

Lemma lev_rec_nil_r fw a : lev_rec fw a [] = Z.of_nat (length a).
Proof. destruct a; reflexivity. Qed.

Lemma lev_rec_cons fw x y a b :
  lev_rec fw (x :: a) (y :: b) =
    if Ascii.eqb x y then lev_rec fw a b
    else min3 (lev_rec fw a b + substitution fw x y)
              (lev_rec fw a (y :: b) + 1)
              (lev_rec fw (x :: a) b + 1).
Proof. reflexivity. Qed.

Lemma edit_rec_nil_l b : edit_rec [] b = Z.of_nat (length b).
Proof. reflexivity. Qed.

Lemma edit_rec_nil_r a : edit_rec a [] = Z.of_nat (length a).
Proof. destruct a; reflexivity. Qed.

Lemma edit_rec_cons x y a b :
  edit_rec (x :: a) (y :: b) =
    min3 (edit_rec a b + (if Ascii.eqb x y then 0 else 1))
         (edit_rec a (y :: b) + 1)
         (edit_rec (x :: a) b + 1).
Proof. reflexivity. Qed.

(** Symmetry of the recurrence under a symmetric weight function. *)
Lemma lev_rec_sym fw :
  (∀ x y, substitution fw x y = substitution fw y x) →
  ∀ a b, lev_rec fw a b = lev_rec fw b a.
Proof.
  intros Hw a. induction a as [|x a IHa]; intros b.
  - by rewrite lev_rec_nil_l, lev_rec_nil_r.
  - induction b as [|y b IHb].
    + by rewrite lev_rec_nil_l, lev_rec_nil_r.
    + rewrite !lev_rec_cons, (Ascii.eqb_sym y x), <- IHb, (Hw y x).
      rewrite <- !IHa. unfold min3. destruct (Ascii.eqb x y); lia.
Qed.

Lemma edit_rec_sym a b : edit_rec a b = edit_rec b a.
Proof.
  revert b. induction a as [|x a IHa]; intros b.
  - by rewrite edit_rec_nil_r.
  - induction b as [|y b IHb].
    + by rewrite edit_rec_nil_r.
    + rewrite !edit_rec_cons, (Ascii.eqb_sym y x), <- IHb.
      rewrite <- !IHa. unfold min3. lia.
Qed.

Lemma edit_rec_nonneg a b : 0 <= edit_rec a b.
Proof.
  revert b. induction a as [|x a IHa]; intros b; [simpl; lia|].
  induction b as [|y b IHb]; [simpl; lia|].
  rewrite edit_rec_cons. specialize (IHa b) as H1. specialize (IHa (y :: b)) as H2.
  unfold min3. destruct (Ascii.eqb x y); lia.
Qed.

Lemma edit_rec_refl a : edit_rec a a = 0.
Proof.
  induction a as [|x a IHa]; [reflexivity|].
  rewrite edit_rec_cons, IHa, Ascii.eqb_refl.
  pose proof (edit_rec_nonneg a (x :: a)). pose proof (edit_rec_nonneg (x :: a) a).
  unfold min3. lia.
Qed.

(** The triangle inequality of the unit-cost recurrence. *)
Lemma edit_rec_triangle a b c : edit_rec a c <= edit_rec a b + edit_rec b c.
Proof.
  remember (length a + length b + length c)%nat as n eqn:Hn.
  revert a b c Hn. induction n as [n IH] using lt_wf_ind. intros a b c Hn.
  assert (Hrec : ∀ a' b' c',
    (length a' + length b' + length c' < length a + length b + length c)%nat →
    edit_rec a' c' <= edit_rec a' b' + edit_rec b' c').
  { intros a' b' c' Hlt. eapply IH; [|reflexivity]. lia. }
  clear IH Hn.
  destruct a as [|x a], b as [|y b], c as [|z c];
    rewrite ?edit_rec_nil_l, ?edit_rec_nil_r; cbn [length]; try lia.
  - (* [] (y::b) (z::c) *)
    pose proof (Hrec [] b c ltac:(cbn [length]; lia)) as H1.
    pose proof (Hrec [] b (z :: c) ltac:(cbn [length]; lia)) as H2.
    pose proof (Hrec [] (y :: b) c ltac:(cbn [length]; lia)) as H3.
    rewrite edit_rec_cons. rewrite !edit_rec_nil_l in *. cbn [length] in *.
    unfold min3. destruct (Ascii.eqb y z); lia.
  - (* (x::a) [] (z::c) *)
    pose proof (Hrec a [] c ltac:(cbn [length]; lia)) as H1.
    pose proof (Hrec a [] (z :: c) ltac:(cbn [length]; lia)) as H2.
    pose proof (Hrec (x :: a) [] c ltac:(cbn [length]; lia)) as H3.
    rewrite edit_rec_cons. rewrite !edit_rec_nil_l, !edit_rec_nil_r in *.
    cbn [length] in *. unfold min3. destruct (Ascii.eqb x z); lia.
  - (* (x::a) (y::b) [] *)
    pose proof (Hrec a b [] ltac:(cbn [length]; lia)) as H1.
    pose proof (Hrec a (y :: b) [] ltac:(cbn [length]; lia)) as H2.
    pose proof (Hrec (x :: a) b [] ltac:(cbn [length]; lia)) as H3.
    rewrite edit_rec_cons. rewrite !edit_rec_nil_r in *. cbn [length] in *.
    unfold min3. destruct (Ascii.eqb x y); lia.
  - (* all non-empty *)
    pose proof (Hrec a (y :: b) (z :: c) ltac:(cbn [length]; lia)) as H1.
    pose proof (Hrec (x :: a) (y :: b) c ltac:(cbn [length]; lia)) as H2.
    pose proof (Hrec (x :: a) b (z :: c) ltac:(cbn [length]; lia)) as H3.
    pose proof (Hrec (x :: a) b c ltac:(cbn [length]; lia)) as H4.
    pose proof (Hrec a b (z :: c) ltac:(cbn [length]; lia)) as H5.
    pose proof (Hrec a b c ltac:(cbn [length]; lia)) as H6.
    clear Hrec. rewrite !edit_rec_cons in *. unfold min3 in *.
    destruct (Ascii.eqb_spec x y), (Ascii.eqb_spec y z), (Ascii.eqb_spec x z);
      try congruence; lia.
Qed.

Lemma edit_rec_cons_le y b : edit_rec (y :: b) b <= 1.
Proof.
  destruct b as [|z b]; [cbn; lia|].
  rewrite edit_rec_cons.
  pose proof (edit_rec_refl (z :: b)). unfold min3. lia.
Qed.

(** On equal heads the diagonal value is already the least of the three. *)
Lemma edit_rec_cons_eq x a b : edit_rec (x :: a) (x :: b) = edit_rec a b.
Proof.
  rewrite edit_rec_cons, Ascii.eqb_refl.
  pose proof (edit_rec_triangle a (x :: b) b).
  pose proof (edit_rec_cons_le x b).
  pose proof (edit_rec_triangle a (x :: a) b).
  pose proof (edit_rec_cons_le x a).
  rewrite (edit_rec_sym (x :: a) a) in *.
  unfold min3. lia.
Qed.

Lemma lev_rec_unweighted a b : lev_rec None a b = edit_rec a b.
Proof.
  revert b. induction a as [|x a IHa]; intros b; [reflexivity|].
  induction b as [|y b IHb]; [reflexivity|].
  rewrite lev_rec_cons. destruct (Ascii.eqb_spec x y) as [->|Hne].
  - by rewrite edit_rec_cons_eq.
  - rewrite edit_rec_cons, IHb, !IHa. simpl.
    destruct (Ascii.eqb_spec x y); [done|reflexivity].
Qed.

End RecurrenceFacts.

(** ** The rolling rows compute the recurrence *)

Section Rows.

Context (fw : option (ascii -> ascii -> Z)).

Lemma nth_map_seq (f : nat → Z) n j :
  (j < n)%nat → List.nth j (map f (seq 0 n)) 0 = f j.
Proof.
  intros Hj. rewrite (nth_indep _ 0 (f 0%nat)) by (rewrite length_map, length_seq; lia).
  rewrite map_nth, seq_nth; [reflexivity|lia].
Qed.

Lemma length_row p s2 : length (row fw p s2) = S (length s2).
Proof. unfold row. by rewrite length_map, length_seq. Qed.

Lemma nth_row p s2 j :
  (j <= length s2)%nat →
  List.nth j (row fw p s2) 0 = lev_rec fw p (rev (take j s2)).
Proof. intros Hj. unfold row. rewrite nth_map_seq; [reflexivity|lia]. Qed.

Lemma elem_of_row p s2 c :
  c ∈ row fw p s2 ↔ ∃ j, (j <= length s2)%nat ∧ c = lev_rec fw p (rev (take j s2)).
Proof.
  unfold row. rewrite list_elem_of_fmap. split.
  - intros (j & -> & Hj). exists j. split; [|done].
    apply list_elem_of_In, in_seq in Hj. lia.
  - intros (j & Hj & ->). exists j. split; [done|].
    apply list_elem_of_In, in_seq. lia.
Qed.

Lemma last_row p s2 : List.last (row fw p s2) 0 = lev_rec fw p (rev s2).
Proof.
  unfold row. rewrite seq_S, map_app. cbn [map Nat.add]. rewrite last_last.
  by rewrite firstn_all.
Qed.

Lemma rev_take_S (s : list ascii) k y :
  s !! k = Some y → rev (take (S k) s) = y :: rev (take k s).
Proof. intros H. by rewrite (take_S_r _ _ _ H), rev_unit. Qed.

Lemma drop_cons_lookup (s : list ascii) k y suffix :
  drop k s = y :: suffix → s !! k = Some y ∧ drop (S k) s = suffix.
Proof.
  intros H. split.
  - rewrite <- (Nat.add_0_r k), <- lookup_drop, H. reflexivity.
  - replace (S k) with (k + 1)%nat by lia. rewrite <- drop_drop, H. reflexivity.
Qed.

(** The inner loop fills [current_distances] with the next row. *)
Lemma fold_cells_row x p s2 suffix :
  ∀ k cur m,
    drop k s2 = suffix → (k <= length s2)%nat →
    cur = map (fun j => lev_rec fw (x :: p) (rev (take j s2))) (seq 0 (S k)) →
    (fold_left (cell_step fw x (row fw p s2))
               (combine (seq k (length suffix)) suffix) (cur, m)).1
    = row fw (x :: p) s2.
Proof.
  induction suffix as [|y suffix IH]; intros k cur m Hdrop Hk Hcur.
  - cbn. subst cur. unfold row.
    assert (length (drop k s2) = 0%nat) as Hl by (by rewrite Hdrop).
    rewrite length_drop in Hl. by replace k with (length s2) by lia.
  - destruct (drop_cons_lookup _ _ _ _ Hdrop) as [Hy Hdrop'].
    assert (k < length s2)%nat as Hlt by (by eapply lookup_lt_Some).
    cbn [length seq combine fold_left cell_step].
    apply IH; [done|lia|].
    rewrite (seq_S (S k) 0), map_app. cbn [Nat.add map]. subst cur.
    f_equal. f_equal.
    rewrite (rev_take_S _ _ _ Hy), lev_rec_cons.
    rewrite !nth_row by lia. rewrite nth_map_seq by lia.
    change (1 + k)%nat with (S k). by rewrite (rev_take_S _ _ _ Hy).
Qed.

(** The inner loop keeps [min_row_distance] the least cell so far. *)
Lemma fold_cells_min x prev cs :
  ∀ cur m, is_minimum m cur →
    is_minimum (fold_left (cell_step fw x prev) cs (cur, m)).2
               (fold_left (cell_step fw x prev) cs (cur, m)).1.
Proof.
  induction cs as [|[k y] cs IH]; intros cur m Hmin; [done|].
  cbn [fold_left cell_step]. apply IH. rewrite last_last.
  destruct Hmin as [Hin Hle]. split.
  - apply elem_of_app. destruct (Z.min_spec m
      (if Ascii.eqb x y then List.nth k prev 0
       else min3 (List.nth k prev 0 + substitution fw x y)
                 (List.nth (1 + k) prev 0 + 1) (List.nth k cur 0 + 1)))
      as [[_ ->]|[_ ->]]; [by left|right; by apply list_elem_of_singleton].
  - intros c [Hc|Hc%list_elem_of_singleton]%elem_of_app.
    + specialize (Hle c Hc). lia.
    + subst c. lia.
Qed.

Lemma next_row_row k x p s2 :
  length p = k →
  (next_row fw k x s2 (row fw p s2)).1 = row fw (x :: p) s2 ∧
  is_minimum (next_row fw k x s2 (row fw p s2)).2 (row fw (x :: p) s2).
Proof.
  intros Hp. unfold next_row, enumerate.
  assert ((fold_left (cell_step fw x (row fw p s2)) (combine (seq 0 (length s2)) s2)
            ([Z.of_nat k + 1], List.nth 0 [Z.of_nat k + 1] 0)).1
          = row fw (x :: p) s2) as Hrow.
  { apply fold_cells_row; [done|lia|]. cbn [seq map]. rewrite take_0. cbn [rev].
    rewrite lev_rec_nil_r. cbn [length]. f_equal. lia. }
  split; [done|]. rewrite <- Hrow. apply fold_cells_min.
  cbn. split; [by apply list_elem_of_singleton|].
  intros c Hc%list_elem_of_singleton. lia.
Qed.

(** Without a bound the outer loop ends on the recurrence value of the two
    reversed strings. *)
Lemma rows_loop_unbounded s1 s2 suffix :
  ∀ k, drop k s1 = suffix → (k <= length s1)%nat →
    rows_loop fw None (combine (seq k (length suffix)) suffix) s2
              (row fw (rev (take k s1)) s2)
    = lev_rec fw (rev s1) (rev s2).
Proof.
  induction suffix as [|x suffix IH]; intros k Hdrop Hk.
  - cbn [length seq combine rows_loop]. rewrite last_row.
    assert (length (drop k s1) = 0%nat) as Hl by (by rewrite Hdrop).
    rewrite length_drop in Hl. rewrite firstn_all2 by lia. done.
  - destruct (drop_cons_lookup _ _ _ _ Hdrop) as [Hx Hdrop'].
    assert (k < length s1)%nat as Hlt by (by eapply lookup_lt_Some).
    cbn [length seq combine rows_loop].
    destruct (next_row_row k x (rev (take k s1)) s2) as [Hrow _].
    { rewrite length_rev, length_take. lia. }
    destruct (next_row fw k x s2 (row fw (rev (take k s1)) s2)) as [cur mn].
    cbn [fst] in Hrow. subst cur. cbn [early_exit].
    rewrite <- (rev_take_S _ _ _ Hx). apply IH; [done|lia].
Qed.

End Rows.

(** ** The distance function on strings *)

Section Distance.

Lemma length_chars s : length (chars s) = String.length s.
Proof. induction s as [|c s IH]; cbn; [done|]. by rewrite <- IH. Qed.

Lemma chars_inj s1 s2 : chars s1 = chars s2 → s1 = s2.
Proof.
  intros H. rewrite <- (string_of_list_ascii_of_string s1),
    <- (string_of_list_ascii_of_string s2). unfold chars in H. by rewrite H.
Qed.

Lemma eqb_empty s : String.eqb s "" = true ↔ chars s = [].
Proof. destruct s; cbn; split; intros; congruence. Qed.

Lemma range_row fw s2 : range (String.length s2 + 1) = row fw [] (chars s2).
Proof.
  unfold range, row. rewrite length_chars, Nat.add_1_r.
  apply map_ext_in. intros j Hj%in_seq. rewrite lev_rec_nil_l.
  rewrite length_rev, length_take, length_chars. f_equal. lia.
Qed.

(** The loop as [levenshtein_distance] starts it, without a bound. *)
Lemma rows_loop_start fw a b :
  rows_loop fw None (enumerate (chars a)) (chars b) (range (String.length b + 1))
  = lev_rec fw (rev (chars a)) (rev (chars b)).
Proof.
  rewrite (range_row fw). unfold enumerate.
  apply (rows_loop_unbounded fw (chars a) (chars b) (chars a) 0%nat); [done|lia].
Qed.

(** What an unbounded call returns, branch by branch. *)
Lemma levenshtein_unbounded s1 s2 fw :
  levenshtein_distance s1 s2 None fw true =
    if String.eqb s1 "" || String.eqb s2 "" then Z.max (len s1) (len s2)
    else if String.eqb s1 s2 then 0
    else lev_rec fw (rev (chars (operands s1 s2).1)) (rev (chars (operands s1 s2).2)).
Proof.
  unfold levenshtein_distance.
  destruct (String.eqb s1 "" || String.eqb s2 ""); [done|].
  destruct (String.eqb s1 s2); [done|].
  destruct (operands s1 s2) as [a b]. apply rows_loop_start.
Qed.

(** Unweighted and unbounded, the function is the unit-cost recurrence. *)
Lemma levenshtein_edit_rec s1 s2 :
  levenshtein_distance s1 s2 None None true
  = edit_rec (rev (chars s1)) (rev (chars s2)).
Proof.
  rewrite levenshtein_unbounded.
  destruct (String.eqb s1 "") eqn:E1.
  { apply eqb_empty in E1. rewrite E1. cbn [orb rev]. rewrite edit_rec_nil_l.
    unfold len. rewrite length_rev, <- !length_chars, E1. cbn [length]. lia. }
  destruct (String.eqb s2 "") eqn:E2.
  { apply eqb_empty in E2. rewrite E2. cbn [orb rev]. rewrite edit_rec_nil_r.
    unfold len. rewrite length_rev, <- !length_chars, E2. cbn [length]. lia. }
  cbn [orb]. destruct (String.eqb_spec s1 s2) as [->|Hne].
  { by rewrite edit_rec_refl. }
  unfold operands. destruct (len s1 <? len s2); cbn [fst snd];
    rewrite lev_rec_unweighted; [apply edit_rec_sym|done].
Qed.

Lemma levenshtein_sym s1 s2 :
  levenshtein_distance s1 s2 None None true
  = levenshtein_distance s2 s1 None None true.
Proof. rewrite !levenshtein_edit_rec. apply edit_rec_sym. Qed.

Lemma levenshtein_triangle s1 s2 s3 :
  levenshtein_distance s1 s3 None None true
  <= levenshtein_distance s1 s2 None None true
     + levenshtein_distance s2 s3 None None true.
Proof. rewrite !levenshtein_edit_rec. apply edit_rec_triangle. Qed.

Lemma levenshtein_nonneg s1 s2 :
  0 <= levenshtein_distance s1 s2 None None true.
Proof. rewrite levenshtein_edit_rec. apply edit_rec_nonneg. Qed.

End Distance.

(** ** Calls with a bound *)

Section Bounded.

Context (fw : option (ascii -> ascii -> Z)).

Lemma is_minimum_unique m m' l : is_minimum m l → is_minimum m' l → m = m'.
Proof. intros [H1 H2] [H3 H4]. specialize (H2 _ H3). specialize (H4 _ H1). lia. Qed.

Lemma combine_seq_lookup (s : list ascii) :
  ∀ start i x, s !! i = Some x →
    combine (seq start (length s)) s !! i = Some ((start + i)%nat, x).
Proof.
  induction s as [|y s IH]; intros start i x H; [done|].
  destruct i as [|i]; cbn in *.
  - rewrite Nat.add_0_r. congruence.
  - replace (start + S i)%nat with (S start + i)%nat by lia. by apply IH.
Qed.

Lemma enumerate_lookup (s : list ascii) i x :
  s !! i = Some x → enumerate s !! i = Some (i, x).
Proof. intros H. unfold enumerate. by rewrite (combine_seq_lookup s 0 i x H). Qed.

Lemma rows_after_row s1 s2 i :
  (i <= length s1)%nat →
  rows_after fw s1 s2 i = row fw (rev (take i s1)) s2.
Proof.
  unfold rows_after. induction i as [|i IH]; intros Hi.
  - cbn [take fold_left rev]. unfold range, row. rewrite Nat.add_1_r.
    apply map_ext_in. intros j Hj%in_seq. rewrite lev_rec_nil_l.
    rewrite length_rev, length_take. f_equal. lia.
  - destruct (lookup_lt_is_Some_2 s1 i ltac:(lia)) as [x Hx].
    rewrite (take_S_r _ _ _ (enumerate_lookup _ _ _ Hx)), fold_left_app.
    cbn [fold_left fst snd]. rewrite IH by lia.
    destruct (next_row_row fw i x (rev (take i s1)) s2) as [-> _].
    { rewrite length_rev, length_take. lia. }
    by rewrite (rev_take_S _ _ _ Hx).
Qed.

(** A lower bound of a row is a lower bound of the next one. *)
Lemma row_lower x p s2 L :
  nonneg_weights fw →
  (∀ c, c ∈ row fw p s2 → L <= c) → ∀ c, c ∈ row fw (x :: p) s2 → L <= c.
Proof.
  intros Hw Hprev c (j & Hj & ->)%elem_of_row.
  assert (Hcell : ∀ i, (i <= length s2)%nat → L <= lev_rec fw p (rev (take i s2))).
  { intros i Hi. apply Hprev, elem_of_row. eauto. }
  induction j as [|j IH].
  - rewrite take_0. cbn [rev]. rewrite lev_rec_nil_r. cbn [length].
    specialize (Hcell 0%nat ltac:(lia)). rewrite take_0 in Hcell. cbn [rev] in Hcell.
    rewrite lev_rec_nil_r in Hcell. lia.
  - destruct (lookup_lt_is_Some_2 s2 j ltac:(lia)) as [y Hy].
    rewrite (rev_take_S _ _ _ Hy), lev_rec_cons.
    pose proof (Hcell j ltac:(lia)) as H1. pose proof (Hcell (S j) Hj) as H2.
    rewrite (rev_take_S _ _ _ Hy) in H2. specialize (IH ltac:(lia)).
    specialize (Hw x y). unfold min3. destruct (Ascii.eqb x y); lia.
Qed.

(** Whatever the bound, the loop returns at least a lower bound of its
    current row. *)
Lemma rows_loop_lower md s1 s2 suffix L :
  nonneg_weights fw →
  ∀ k, drop k s1 = suffix → (k <= length s1)%nat →
    (∀ c, c ∈ row fw (rev (take k s1)) s2 → L <= c) →
    L <= rows_loop fw md (combine (seq k (length suffix)) suffix) s2
                   (row fw (rev (take k s1)) s2).
Proof.
  intros Hw. induction suffix as [|x suffix IH]; intros k Hdrop Hk HL.
  - cbn [length seq combine rows_loop]. apply HL, elem_of_row.
    exists (length s2). split; [lia|]. by rewrite last_row, firstn_all.
  - destruct (drop_cons_lookup _ _ _ _ Hdrop) as [Hx Hdrop'].
    assert (k < length s1)%nat as Hlt by (by eapply lookup_lt_Some).
    cbn [length seq combine rows_loop].
    destruct (next_row_row fw k x (rev (take k s1)) s2) as [Hrow Hmin].
    { rewrite length_rev, length_take. lia. }
    destruct (next_row fw k x s2 (row fw (rev (take k s1)) s2)) as [cur mn].
    cbn [fst snd] in Hrow, Hmin. subst cur.
    pose proof (row_lower x _ s2 L Hw HL) as HL'.
    destruct (early_exit md mn).
    + apply HL', Hmin.
    + rewrite <- (rev_take_S _ _ _ Hx) in *. apply IH; [done|lia|done].
Qed.

(** A bounded run never returns more than the unbounded one. *)
Lemma rows_loop_bounded_le m s1 s2 suffix :
  nonneg_weights fw →
  ∀ k, drop k s1 = suffix → (k <= length s1)%nat →
    rows_loop fw (Some m) (combine (seq k (length suffix)) suffix) s2
              (row fw (rev (take k s1)) s2)
    <= rows_loop fw None (combine (seq k (length suffix)) suffix) s2
                 (row fw (rev (take k s1)) s2).
Proof.
  intros Hw. induction suffix as [|x suffix IH]; intros k Hdrop Hk.
  - cbn [length seq combine rows_loop]. lia.
  - destruct (drop_cons_lookup _ _ _ _ Hdrop) as [Hx Hdrop'].
    assert (k < length s1)%nat as Hlt by (by eapply lookup_lt_Some).
    cbn [length seq combine rows_loop].
    destruct (next_row_row fw k x (rev (take k s1)) s2) as [Hrow Hmin].
    { rewrite length_rev, length_take. lia. }
    destruct (next_row fw k x s2 (row fw (rev (take k s1)) s2)) as [cur mn].
    cbn [fst snd] in Hrow, Hmin. subst cur. cbn [early_exit].
    rewrite <- (rev_take_S _ _ _ Hx) in *.
    destruct (m <=? mn).
    + apply rows_loop_lower; [done|done|lia|apply Hmin].
    + apply IH; [done|lia].
Qed.

(** Below the bound the early exit never fires. *)
Lemma rows_loop_below_bound m s1 s2 suffix :
  nonneg_weights fw →
  ∀ k, drop k s1 = suffix → (k <= length s1)%nat →
    rows_loop fw None (combine (seq k (length suffix)) suffix) s2
              (row fw (rev (take k s1)) s2) < m →
    rows_loop fw (Some m) (combine (seq k (length suffix)) suffix) s2
              (row fw (rev (take k s1)) s2)
    = rows_loop fw None (combine (seq k (length suffix)) suffix) s2
                (row fw (rev (take k s1)) s2).
Proof.
  intros Hw. induction suffix as [|x suffix IH]; intros k Hdrop Hk.
  - done.
  - destruct (drop_cons_lookup _ _ _ _ Hdrop) as [Hx Hdrop'].
    assert (k < length s1)%nat as Hlt by (by eapply lookup_lt_Some).
    cbn [length seq combine rows_loop].
    destruct (next_row_row fw k x (rev (take k s1)) s2) as [Hrow Hmin].
    { rewrite length_rev, length_take. lia. }
    destruct (next_row fw k x s2 (row fw (rev (take k s1)) s2)) as [cur mn].
    cbn [fst snd] in Hrow, Hmin. subst cur. cbn [early_exit].
    rewrite <- (rev_take_S _ _ _ Hx) in *. intros Hlt'.
    pose proof (rows_loop_lower None s1 s2 suffix mn Hw (S k) Hdrop'
                  ltac:(lia) (proj2 Hmin)) as Hge.
    destruct (Z.leb_spec m mn); [lia|]. apply IH; [done|lia|done].
Qed.

(** The bounded loop returns the minimum of the first row that reaches the
    bound. *)
Lemma rows_loop_exit m s1 s2 suffix :
  ∀ k, drop k s1 = suffix → (k <= length s1)%nat →
    ∀ i mn, (k < i <= length s1)%nat →
      (∀ i' mn', (k < i' < i)%nat →
         is_minimum mn' (row fw (rev (take i' s1)) s2) → mn' < m) →
      is_minimum mn (row fw (rev (take i s1)) s2) → m <= mn →
      rows_loop fw (Some m) (combine (seq k (length suffix)) suffix) s2
                (row fw (rev (take k s1)) s2) = mn.
Proof.
  induction suffix as [|x suffix IH]; intros k Hdrop Hk i mn Hi Hbefore Hmn Hle.
  - assert (length (drop k s1) = 0%nat) as Hl by (by rewrite Hdrop).
    rewrite length_drop in Hl. lia.
  - destruct (drop_cons_lookup _ _ _ _ Hdrop) as [Hx Hdrop'].
    assert (k < length s1)%nat as Hlt by (by eapply lookup_lt_Some).
    cbn [length seq combine rows_loop].
    destruct (next_row_row fw k x (rev (take k s1)) s2) as [Hrow Hmin].
    { rewrite length_rev, length_take. lia. }
    destruct (next_row fw k x s2 (row fw (rev (take k s1)) s2)) as [cur mn0].
    cbn [fst snd] in Hrow, Hmin. subst cur. cbn [early_exit].
    rewrite <- (rev_take_S _ _ _ Hx) in *.
    destruct (decide (i = S k)) as [->|Hne].
    + rewrite (is_minimum_unique _ _ _ Hmin Hmn).
      by destruct (Z.leb_spec m mn); [|lia].
    + pose proof (Hbefore (S k) mn0 ltac:(lia) Hmin) as Hmn0.
      destruct (Z.leb_spec m mn0); [lia|].
      apply (IH (S k) Hdrop' ltac:(lia) i mn); [lia| |done|done].
      intros i' mn' Hi'. apply Hbefore. lia.
Qed.

End Bounded.

(** ** Properties of [levenshtein_distance] *)

Lemma nonneg_weights_None : nonneg_weights None.
Proof. intros x y. cbn. lia. Qed.

Lemma symmetric_weights_None : symmetric_weights None.
Proof. intros x y. reflexivity. Qed.

Lemma levenshtein_casefold s1 s2 md fw :
  levenshtein_distance s1 s2 md fw false
  = levenshtein_distance (casefold s1) (casefold s2) md fw true.
Proof. reflexivity. Qed.

Lemma len_chars s : len s = Z.of_nat (length (chars s)).
Proof. unfold len. by rewrite length_chars. Qed.

(** C3, as amended: without a weight function, and with every weight
    function that gives the same cost to (x, y) and (y, x), an unbounded
    call returns the same distance for (a, b) and for (b, a). *)
Theorem levenshtein_distance_symmetric fw a b case_sensitive :
  symmetric_weights fw →
  levenshtein_distance a b None fw case_sensitive
  = levenshtein_distance b a None fw case_sensitive.
Proof.
  intros Hw.
  assert (Hcs : ∀ a b, levenshtein_distance a b None fw true
                       = levenshtein_distance b a None fw true).
  { clear a b. intros a b. rewrite !levenshtein_unbounded.
    rewrite (orb_comm (String.eqb b "")), (Z.max_comm (len b)), (String.eqb_sym b a).
    destruct (String.eqb a "" || String.eqb b ""); [done|].
    destruct (String.eqb a b); [done|].
    unfold operands.
    destruct (Z.ltb_spec (len a) (len b)), (Z.ltb_spec (len b) (len a));
      cbn [fst snd]; try done; try lia.
    by apply lev_rec_sym. }
  destruct case_sensitive; [apply Hcs|].
  rewrite !levenshtein_casefold. apply Hcs.
Qed.

Lemma levenshtein_distance_symmetric_witness :
  levenshtein_distance "as" "at" None None true
  = levenshtein_distance "at" "as" None None true.
Proof.
  apply (levenshtein_distance_symmetric None "as" "at" true).
  intros x y. reflexivity.
Defined.

(** C3 as stated fails: with [skewed_weight] the distance from "a" to "b"
    is 0 and the distance from "b" to "a" is 2. *)
Lemma levenshtein_distance_not_symmetric :
  levenshtein_distance "a" "b" None (Some skewed_weight) true
  ≠ levenshtein_distance "b" "a" None (Some skewed_weight) true.
Proof. vm_compute. discriminate. Qed.

(** C4: with a bound [m], and no weights or weights that are never
    negative, the call returns at most what the unbounded call returns;
    and when some pass of the outer loop is the first whose completed row
    has a minimum of at least [m], the call returns that minimum. *)
Theorem levenshtein_bounded_lower_bound fw s1 s2 m :
  nonneg_weights fw →
  levenshtein_distance s1 s2 (Some m) fw true
    <= levenshtein_distance s1 s2 None fw true
  ∧ (∀ a b i mn,
       s1 ≠ "" → s2 ≠ "" → s1 ≠ s2 → operands s1 s2 = (a, b) →
       (1 <= i <= length (chars a))%nat →
       (∀ i' mn', (1 <= i' < i)%nat →
          is_minimum mn' (rows_after fw (chars a) (chars b) i') → mn' < m) →
       is_minimum mn (rows_after fw (chars a) (chars b) i) → m <= mn →
       levenshtein_distance s1 s2 (Some m) fw true = mn).
Proof.
  intros Hw. split.
  - unfold levenshtein_distance.
    destruct (String.eqb s1 "" || String.eqb s2 ""); [lia|].
    destruct (String.eqb s1 s2); [lia|].
    destruct (operands s1 s2) as [a b]. rewrite (range_row fw). unfold enumerate.
    apply (rows_loop_bounded_le fw m (chars a) (chars b) (chars a) Hw 0%nat);
      [done|lia].
  - intros a b i mn H1 H2 Hne Hop Hi Hbefore Hmn Hle.
    unfold levenshtein_distance.
    apply String.eqb_neq in H1, H2, Hne. rewrite H1, H2, Hne, Hop. cbn [orb].
    rewrite (range_row fw). unfold enumerate.
    apply (rows_loop_exit fw m (chars a) (chars b) (chars a) 0%nat eq_refl
             ltac:(lia) i mn); [lia| |by rewrite <- rows_after_row by lia|done].
    intros i' mn' Hi' Hmn'. apply (Hbefore i' mn'); [lia|].
    by rewrite rows_after_row by lia.
Qed.

Lemma levenshtein_bounded_lower_bound_witness :
  levenshtein_distance "cake" "cackeees" (Some 2) None true
    <= levenshtein_distance "cake" "cackeees" None None true.
Proof.
  apply (levenshtein_bounded_lower_bound None "cake" "cackeees" 2).
  intros x y. simpl. lia.
Defined.

(** C9: when the unweighted distance is below the bound [m], the bounded
    call returns that same distance. *)
Theorem levenshtein_bounded_exact s1 s2 m :
  levenshtein_distance s1 s2 None None true < m →
  levenshtein_distance s1 s2 (Some m) None true
  = levenshtein_distance s1 s2 None None true.
Proof.
  unfold levenshtein_distance.
  destruct (String.eqb s1 "" || String.eqb s2 ""); [done|].
  destruct (String.eqb s1 s2); [done|].
  destruct (operands s1 s2) as [a b]. rewrite (range_row None). unfold enumerate.
  apply (rows_loop_below_bound None m (chars a) (chars b) (chars a)
           nonneg_weights_None 0%nat); [done|lia].
Qed.

Lemma levenshtein_bounded_exact_witness :
  levenshtein_distance "cake" "Cake" (Some 2) None true
  = levenshtein_distance "cake" "Cake" None None true.
Proof.
  apply (levenshtein_bounded_exact "cake" "Cake" 2). vm_compute. reflexivity.
Defined.

(** ** The range query on a tree shape *)

Section RangeQuery.

Lemma snoc_cases {A} (l : list A) : l = [] ∨ ∃ l' x, l = l' ++ [x].
Proof. induction l using rev_ind; [by left|right; eauto]. Qed.

Lemma pop_snoc {A} (l : list A) x : pop (l ++ [x]) = Some (l, x).
Proof. induction l as [|y l IH]; cbn; [done|]. by rewrite IH. Qed.

Lemma dist_sym a b : dist a b = dist b a.
Proof. apply levenshtein_sym. Qed.

Lemma dist_triangle a b c : dist a c <= dist a b + dist b c.
Proof. apply levenshtein_triangle. Qed.

Lemma push_links_kept D k f :
  ∀ stack, push_links D k (flinks f) stack = stack ++ (kept D k f).*1.
Proof.
  induction f as [|e v kids _ sibs IH]; intros stack.
  - cbn. by rewrite app_nil_r.
  - unfold push_links in *. cbn [flinks fold_left kept].
    destruct ((D - k <=? e) && (e <=? D + k)); rewrite IH; [|done].
    cbn. by rewrite <- app_assoc.
Qed.

Lemma kept_ok store x D k f :
  repr store f → bk_inv x f → Forall (entry_ok store) (kept D k f).
Proof.
  induction f as [|e v kids _ sibs IH]; cbn [repr bk_inv kept]; [constructor|].
  intros (Hn & Hk & Hs) (_ & Hbk & Hbs).
  destruct ((D - k <=? e) && (e <=? D + k)); [|by apply IH].
  constructor; [done|by apply IH].
Qed.

Lemma stack_values_cons v kids F :
  stack_values ((v, kids) :: F) = v :: fvalues kids ++ stack_values F.
Proof. reflexivity. Qed.

Lemma kept_values D k f u :
  u ∈ stack_values (kept D k f) → u ∈ fvalues f.
Proof.
  induction f as [|e v kids _ sibs IH]; cbn [kept fvalues]; [done|].
  destruct ((D - k <=? e) && (e <=? D + k)).
  - rewrite stack_values_cons, !elem_of_cons, !elem_of_app. intros [?|[?|?]]; auto.
  - rewrite elem_of_cons, elem_of_app. auto.
Qed.

Lemma kept_length D k f :
  (length (stack_values (kept D k f)) <= length (fvalues f))%nat.
Proof.
  induction f as [|e v kids _ sibs IH]; cbn [kept fvalues]; [done|].
  destruct ((D - k <=? e) && (e <=? D + k)); rewrite ?stack_values_cons;
    cbn [length]; rewrite !length_app; lia.
Qed.

(** Pruning loses nothing within the radius: the triangle inequality. *)
Lemma kept_complete q x k f u :
  bk_inv x f → u ∈ fvalues f → dist q u <= k →
  u ∈ stack_values (kept (dist q x) k f).
Proof.
  induction f as [|e v kids _ sibs IH]; cbn [bk_inv kept fvalues]; [by intros _ ?%elem_of_nil|].
  intros (He & _ & Hs) Hu Hk.
  change (v :: fvalues kids ++ fvalues sibs) with ((v :: fvalues kids) ++ fvalues sibs) in Hu.
  apply elem_of_app in Hu as [Hu|Hu].
  - specialize (He u Hu).
    pose proof (dist_triangle q u x). pose proof (dist_triangle x q u).
    rewrite (dist_sym u x), (dist_sym x q) in *.
    destruct (Z.leb_spec (dist q x - k) e); [|lia].
    destruct (Z.leb_spec e (dist q x + k)); [|lia].
    cbn [andb]. rewrite stack_values_cons, app_comm_cons, elem_of_app. by left.
  - specialize (IH Hs Hu Hk).
    destruct ((dist q x - k <=? e) && (e <=? dist q x + k)); [|done].
    rewrite stack_values_cons, app_comm_cons, elem_of_app. by right.
Qed.

Lemma stack_values_app F G : stack_values (F ++ G) = stack_values F ++ stack_values G.
Proof. unfold stack_values. apply flat_map_app. Qed.

Lemma elem_of_bucket_add d u D x (acc : gmap Z (gset str)) :
  u ∈ bucket d (bucket_add D x acc) ↔ u ∈ bucket d acc ∨ (d = D ∧ u = x).
Proof.
  unfold bucket, bucket_add. destruct (decide (D = d)) as [->|Hne].
  - rewrite lookup_insert_eq. cbn. set_solver.
  - rewrite lookup_insert_ne by done. naive_solver.
Qed.

Lemma bucket_add_nonempty D x (acc : gmap Z (gset str)) :
  (∀ d, acc !! d ≠ Some ∅) → ∀ d, bucket_add D x acc !! d ≠ Some ∅.
Proof.
  intros Hacc d. unfold bucket_add. destruct (decide (D = d)) as [->|Hne].
  - rewrite lookup_insert_eq. intros [= H]. set_solver.
  - by rewrite lookup_insert_ne.
Qed.

(** The loop visits the shapes on its stack and collects the hits among
    their values. *)
Lemma get_neighbors_loop_spec t q k :
  _fn_weights t = None →
  ∀ fuel F acc,
    Forall (entry_ok (_bk_nodes_dict t)) F →
    (length (stack_values F) <= fuel)%nat →
    ∃ res,
      get_neighbors_loop fuel t q k F.*1 acc = Some res
      ∧ (∀ d u, u ∈ bucket d res ↔
                u ∈ bucket d acc ∨ (u ∈ stack_values F ∧ hit t q k d u))
      ∧ ((∀ d, acc !! d ≠ Some ∅) → ∀ d, res !! d ≠ Some ∅).
Proof.
  intros Hfw fuel. induction fuel as [|fuel IH]; intros F acc HF Hlen.
  - destruct F as [|[x kids] F]; [|cbn in Hlen; lia].
    exists acc. cbn. split; [done|]. split; [|done].
    intros d u. rewrite elem_of_nil. naive_solver.
  - destruct (snoc_cases F) as [->|(F0 & [x kids] & ->)].
    { exists acc. cbn. split; [done|]. split; [|done].
      intros d u. rewrite elem_of_nil. naive_solver. }
    apply Forall_app in HF as [HF Hx]. rewrite Forall_singleton in Hx.
    unfold entry_ok, node_at in Hx. cbn [fst snd] in Hx.
    destruct Hx as ((n & Hn & Hv & Hl) & Hrepr & Hbk).
    rewrite fmap_app. cbn [fmap list_fmap fst].
    cbn [get_neighbors_loop]. rewrite pop_snoc, Hn, Hfw, Hv, Hl, push_links_kept.
    rewrite <- fmap_app.
    rewrite stack_values_app in Hlen. cbn in Hlen. rewrite app_nil_r in Hlen.
    rewrite length_app in Hlen. cbn [length] in Hlen.
    pose proof (kept_length (levenshtein_distance q x None None true) k kids) as Hkl.
    edestruct (IH (F0 ++ kept (levenshtein_distance q x None None true) k kids)) as
      (res & Hres & Hiff & Hne).
    { apply Forall_app. split; [done|]. by eapply kept_ok. }
    { rewrite stack_values_app, length_app. lia. }
    exists res. split; [exact Hres|]. split.
    + intros d u. rewrite Hiff. rewrite !stack_values_app. cbn [stack_values flat_map fst snd].
      rewrite app_nil_r, !elem_of_app, elem_of_cons.
      assert (Hacc : u ∈ bucket d
                (if (levenshtein_distance q x None None true <=? k) && is_active n
                 then bucket_add (levenshtein_distance q x None None true) x acc
                 else acc)
              ↔ u ∈ bucket d acc ∨ (u = x ∧ hit t q k d u)).
      { destruct (Z.leb_spec (levenshtein_distance q x None None true) k) as [Hle|Hgt];
          destruct (is_active n) eqn:Hact; cbn [andb].
        - rewrite elem_of_bucket_add. unfold hit. split.
          + intros [?|[-> ->]]; [by left|]. right. split; [done|]. by exists n.
          + intros [?|[-> (n' & Hn' & _ & <- & _)]]; [by left|]. by right.
        - unfold hit. split; [by left|]. intros [?|[-> (n' & Hn' & Ha & _)]]; [done|].
          congruence.
        - unfold hit. split; [by left|]. intros [?|[-> (n' & Hn' & _ & <- & ?)]]; [done|lia].
        - unfold hit. split; [by left|]. intros [?|[-> (n' & Hn' & _ & <- & ?)]]; [done|lia]. }
      rewrite Hacc. split.
      * intros [[?|[-> ?]]|[[?|Hk%kept_values] ?]]; auto.
      * intros [?|[[?|[->|Hk]] Hhit]]; auto.
        right. split; [|done]. right.
        destruct Hhit as (n' & _ & _ & <- & Hle).
        by apply (kept_complete q x k kids u).
    + intros Hacc. apply Hne.
      destruct ((levenshtein_distance q x None None true <=? k) && is_active n);
        [by apply bucket_add_nonempty|done].
Qed.

End RangeQuery.

(** ** Insertion keeps the shape *)

Section Insertion.

Lemma dict_has_true {V} (k : Z) (d : list (Z * V)) :
  dict_has k d = true ↔ is_Some (dict_get k d).
Proof. unfold dict_has. apply bool_decide_eq_true. Qed.

Lemma dict_has_false {V} (k : Z) (d : list (Z * V)) :
  dict_has k d = false ↔ dict_get k d = None.
Proof.
  unfold dict_has. rewrite bool_decide_eq_false, <- eq_None_not_Some. done.
Qed.

Lemma dict_set_new {V} (k : Z) (v : V) (d : list (Z * V)) :
  dict_get k d = None → dict_set k v d = d ++ [(k, v)].
Proof.
  induction d as [|[k' v'] d IH]; cbn; [done|].
  destruct (decide (k = k')); [done|]. intros H. by rewrite IH.
Qed.

Lemma flinks_fapp f g : flinks (fapp f g) = flinks f ++ flinks g.
Proof. induction f as [|d v kids _ sibs IH]; cbn; [done|]. by rewrite IH. Qed.

Lemma fvalues_fapp f g : fvalues (fapp f g) = fvalues f ++ fvalues g.
Proof.
  induction f as [|d v kids _ sibs IH]; cbn; [done|].
  by rewrite IH, app_assoc.
Qed.

Lemma repr_fapp store f g : repr store (fapp f g) ↔ repr store f ∧ repr store g.
Proof.
  induction f as [|d v kids _ sibs IH]; cbn [fapp repr]; [naive_solver|].
  rewrite IH. naive_solver.
Qed.

Lemma bk_inv_fapp x f g : bk_inv x (fapp f g) ↔ bk_inv x f ∧ bk_inv x g.
Proof.
  induction f as [|d v kids _ sibs IH]; cbn [fapp bk_inv]; [naive_solver|].
  rewrite IH. naive_solver.
Qed.

(** A link found under a distance belongs to a child of the forest. *)
Lemma dict_get_flinks d f v :
  dict_get d (flinks f) = Some v →
  ∃ pre kk post, f = fapp pre (fcons d v kk post).
Proof.
  induction f as [|e w kids _ sibs IH]; cbn [flinks dict_get]; [done|].
  destruct (decide (d = e)) as [->|Hne].
  - intros [= ->]. by exists fnil, kids, sibs.
  - intros (pre & kk & post & ->)%IH. by exists (fcons e w kids pre), kk, post.
Qed.

(** A store that agrees on the values of a forest holds it as well. *)
Lemma repr_frame store store' f :
  (∀ u, u ∈ fvalues f → store' !! u = store !! u) → repr store f → repr store' f.
Proof.
  induction f as [|d v kids IHk sibs IHs]; cbn [repr fvalues]; [done|].
  intros Hfr ((n & Hn & Hv & Hl) & Hk & Hs). split; [|split].
  - exists n. rewrite Hfr by (by left). done.
  - apply IHk; [|done]. intros u Hu. apply Hfr. right. apply elem_of_app. by left.
  - apply IHs; [|done]. intros u Hu. apply Hfr. right. apply elem_of_app. by right.
Qed.

(** The descent of [add_node] ends, links the new node below [x] and keeps
    the shape: the rest of the store is untouched. *)
Lemma add_node_loop_ok r s :
  ∀ fuel x kids store,
    node_at store x kids → repr store kids → bk_inv x kids →
    NoDup (x :: fvalues kids) → s ∉ x :: fvalues kids →
    store !! s = Some (Node.new s true) →
    (length (fvalues kids) < fuel)%nat →
    ∃ store' kids',
      add_node_loop fuel s x (mkBKTree r store None)
        = Some (Ok tt, mkBKTree r store' None)
      ∧ node_at store' x kids' ∧ repr store' kids' ∧ bk_inv x kids'
      ∧ fvalues kids' ≡ₚ s :: fvalues kids
      ∧ (∀ u, u ∉ x :: fvalues kids → store' !! u = store !! u)
      ∧ (∀ u, is_Some (store' !! u) ↔ is_Some (store !! u)).
Proof.
  induction fuel as [|fuel IH]; intros x kids store Hx Hrepr Hbk Hnd Hs Hnew Hfuel;
    [lia|].
  destruct Hx as (n & Hn & Hv & Hl).
  cbn [add_node_loop _bk_nodes_dict _fn_weights]. rewrite Hn, Hnew.
  rewrite Hv. change (get_value (Node.new s true)) with s.
  fold (dist x s). unfold has_distance, get_link, add_link, has_distance.
  change (_links n) with (get_links n). rewrite Hl.
  apply not_elem_of_cons in Hs as [Hsx Hsk].
  apply NoDup_cons in Hnd as [Hxk Hndk].
  destruct (dict_get (dist x s) (flinks kids)) as [v|] eqn:Hget.
  - (* descend into the child under that distance *)
    assert (dict_has (dist x s) (flinks kids) = true) as ->
      by (apply dict_has_true; rewrite Hget; eauto).
    cbn [negb].
    destruct (dict_get_flinks _ _ _ Hget) as (pre & kk & post & ->).
    rewrite fvalues_fapp in *. cbn [fvalues] in *.
    apply repr_fapp in Hrepr as [Hpre (Hv' & Hkk & Hpost)].
    apply bk_inv_fapp in Hbk as [Hbpre (Hd & Hbkk & Hbpost)].
    apply NoDup_app in Hndk as (Hndpre & Hdisj & Hndv).
    rewrite app_comm_cons in Hndv. apply NoDup_app in Hndv as (Hndv & Hdisj' & Hndpost).
    rewrite !elem_of_app, !elem_of_cons, !elem_of_app in Hsk, Hxk.
    destruct (IH v kk store Hv' Hkk Hbkk Hndv) as
      (store' & kk' & Hrun & Hv'' & Hkk' & Hbkk' & Hperm & Hframe & Hdom).
    { rewrite elem_of_cons. naive_solver. }
    { done. }
    { rewrite !length_app in Hfuel. cbn [length] in Hfuel. rewrite length_app in Hfuel. lia. }
    exists store', (fapp pre (fcons (dist x s) v kk' post)).
    split; [exact Hrun|]. split; [|split; [|split; [|split; [|split]]]].
    + exists n. rewrite Hframe by (rewrite elem_of_cons; naive_solver).
      split; [done|]. split; [done|]. rewrite Hl, !flinks_fapp. done.
    + apply repr_fapp. split; [|split; [done|split; [done|]]].
      * eapply repr_frame; [|exact Hpre]. intros u Hu. apply Hframe.
        intros Hin. apply (Hdisj u Hu). rewrite elem_of_cons, elem_of_app.
        apply elem_of_cons in Hin. naive_solver.
      * eapply repr_frame; [|exact Hpost]. intros u Hu. apply Hframe.
        intros Hin. by apply (Hdisj' u Hin).
    + apply bk_inv_fapp. split; [done|]. cbn [bk_inv]. split; [|done].
      intros u Hu. rewrite elem_of_cons in Hu.
      destruct Hu as [->|Hu]; [apply Hd; by left|].
      rewrite Hperm, elem_of_cons in Hu. destruct Hu as [->|Hu]; [done|].
      apply Hd. by right.
    + rewrite fvalues_fapp. cbn [fvalues]. rewrite Hperm.
      rewrite (Permutation_middle (fvalues pre)). cbn.
      rewrite <- !Permutation_middle. constructor.
    + intros u Hu. apply Hframe. intros Hin. apply Hu.
      rewrite !elem_of_cons, !elem_of_app, !elem_of_cons, !elem_of_app.
      apply elem_of_cons in Hin. naive_solver.
    + done.
  - (* no child under that distance: link the new node here *)
    assert (dict_has (dist x s) (flinks kids) = false) as ->
      by (by apply dict_has_false).
    cbn [negb]. rewrite (dict_set_new _ _ _ Hget).
    eexists _, (fapp kids (fcons (dist x s) s fnil fnil)).
    split; [reflexivity|]. split; [|split; [|split; [|split; [|split]]]].
    + eexists. rewrite lookup_insert_eq. split; [done|]. split; [done|].
      by rewrite flinks_fapp.
    + apply repr_fapp. split.
      * eapply repr_frame; [|exact Hrepr]. intros u Hu.
        rewrite lookup_insert_ne; [done|]. by intros ->.
      * cbn [repr]. split; [|done]. exists (Node.new s true).
        rewrite lookup_insert_ne by done. done.
    + apply bk_inv_fapp. split; [done|]. cbn [bk_inv fvalues]. split; [|done].
      intros u Hu%list_elem_of_singleton. by subst.
    + rewrite fvalues_fapp. cbn [fvalues]. cbn. by rewrite <- Permutation_cons_append.
    + intros u Hu. apply not_elem_of_cons in Hu as [Hu _]. by rewrite lookup_insert_ne.
    + intros u. destruct (decide (x = u)) as [<-|Hne].
      * rewrite lookup_insert_eq, Hn. split; eauto.
      * by rewrite lookup_insert_ne.
Qed.

End Insertion.

(** ** Built trees have the shape *)

Section BuiltTrees.

Lemma add_node_loop_mono s :
  ∀ fuel fuel' x t r,
    add_node_loop fuel s x t = Some r → (fuel <= fuel')%nat →
    add_node_loop fuel' s x t = Some r.
Proof.
  induction fuel as [|fuel IH]; intros fuel' x t r Hrun Hle; [done|].
  destruct fuel' as [|fuel']; [lia|]. cbn [add_node_loop] in *.
  destruct (_bk_nodes_dict t !! x) as [n|]; [|done].
  destruct (_bk_nodes_dict t !! s) as [m|]; [|done].
  destruct (negb _); [done|].
  destruct (get_link _ n); [|done]. apply IH; [done|lia].
Qed.

Lemma add_node_mono s fuel fuel' t r :
  add_node fuel s t = Some r → (fuel <= fuel')%nat → add_node fuel' s t = Some r.
Proof.
  unfold add_node. destruct (has_node s t); [done|]. apply add_node_loop_mono.
Qed.

Lemma has_node_true s t : has_node s t = true ↔ is_Some (_bk_nodes_dict t !! s).
Proof. unfold has_node. apply bool_decide_eq_true. Qed.

Lemma has_node_false s t : has_node s t = false ↔ _bk_nodes_dict t !! s = None.
Proof.
  unfold has_node. by rewrite bool_decide_eq_false, <- eq_None_not_Some.
Qed.

(** The values of the shape are the keys of the dictionary, once each. *)
Lemma size_values (m : gmap str Node) (l : list str) :
  NoDup l → (∀ u, u ∈ l ↔ is_Some (m !! u)) → size m = length l.
Proof.
  intros Hnd Hl. rewrite <- size_dom, <- (size_list_to_set (C := gset str) l Hnd).
  f_equal. apply set_eq. intros u.
  by rewrite elem_of_dom, elem_of_list_to_set, Hl.
Qed.

(** Inserting a new string into a well-shaped tree succeeds as soon as the
    fuel covers the number of nodes, and the tree stays well shaped. *)
Lemma add_node_ok t s fuel :
  tree_ok t → has_node s t = false → (get_num_nodes t <= fuel)%nat →
  ∃ t', add_node fuel s t = Some (Ok tt, t') ∧ tree_ok t'
        ∧ (∀ u, is_Some (_bk_nodes_dict t' !! u) ↔
                u = s ∨ is_Some (_bk_nodes_dict t !! u)).
Proof.
  destruct t as [r store fw].
  intros (kids & Hr & Hrepr & Hbk & Hnd & Hdom & Hfw) Hs Hfuel.
  cbn [_root _bk_nodes_dict _fn_weights] in *. subst fw.
  unfold add_node. rewrite Hs. unfold with_nodes. cbn [_root _bk_nodes_dict _fn_weights].
  apply has_node_false in Hs. cbn in Hs.
  assert (Hsv : s ∉ r :: fvalues kids).
  { rewrite Hdom, Hs. by intros [? ?]. }
  unfold get_num_nodes in Hfuel. cbn in Hfuel.
  rewrite (size_values store _ Hnd Hdom) in Hfuel. cbn [length] in Hfuel.
  destruct (add_node_loop_ok r s fuel r kids (<[s := Node.new s true]> store))
    as (store' & kids' & Hrun & Hr' & Hrepr' & Hbk' & Hperm & Hframe & Hsome).
  { destruct Hr as (n & Hn & ?). exists n. rewrite lookup_insert_ne; [done|].
    intros ->. apply Hsv. by left. }
  { eapply repr_frame; [|exact Hrepr]. intros u Hu. rewrite lookup_insert_ne; [done|].
    intros ->. apply Hsv. by right. }
  { done. } { done. } { done. }
  { by rewrite lookup_insert_eq. }
  { lia. }
  exists (mkBKTree r store' None). split; [exact Hrun|].
  assert (Hkeys : ∀ u, is_Some (store' !! u) ↔ u = s ∨ is_Some (store !! u)).
  { intros u. rewrite Hsome. destruct (decide (s = u)) as [->|Hne].
    - rewrite lookup_insert_eq. split; [by left|eauto].
    - rewrite lookup_insert_ne by done. naive_solver. }
  split; [|exact Hkeys].
  exists kids'. cbn [_root _bk_nodes_dict _fn_weights].
  split; [done|]. split; [done|]. split; [done|]. split; [|split; [|done]].
  - rewrite Hperm. apply NoDup_cons in Hnd as [Hrk Hndk].
    apply not_elem_of_cons in Hsv as [Hsr Hsk].
    apply NoDup_cons. split.
    + rewrite elem_of_cons. naive_solver.
    + by apply NoDup_cons.
  - intros u. rewrite Hkeys, <- Hdom, !elem_of_cons, Hperm, elem_of_cons. naive_solver.
Qed.

(** Changing the state of a node leaves the shape alone. *)
Lemma repr_flag store f s n n' :
  store !! s = Some n → get_value n' = get_value n → get_links n' = get_links n →
  repr store f → repr (<[s := n']> store) f.
Proof.
  intros Hs Hv Hl. induction f as [|d v kids IHk sibs IHs]; cbn [repr]; [done|].
  intros ((m & Hm & Hmv & Hml) & Hk & Hsibs). split; [|by split; auto].
  destruct (decide (s = v)) as [->|Hne].
  - exists n'. rewrite lookup_insert_eq. split; [done|].
    rewrite Hs in Hm. injection Hm as ->. by rewrite Hv, Hl.
  - exists m. by rewrite lookup_insert_ne.
Qed.

Lemma tree_ok_flag t s n n' :
  _bk_nodes_dict t !! s = Some n →
  get_value n' = get_value n → get_links n' = get_links n →
  tree_ok t → tree_ok (with_nodes t (<[s := n']> (_bk_nodes_dict t))).
Proof.
  intros Hs Hv Hl (kids & Hr & Hrepr & Hbk & Hnd & Hdom & Hfw).
  exists kids. cbn [with_nodes _root _bk_nodes_dict _fn_weights].
  split; [|split; [by eapply repr_flag|split; [done|split; [done|split; [|done]]]]].
  - pose proof (repr_flag (_bk_nodes_dict t) (fcons 0 (_root t) kids fnil) s n n'
                  Hs Hv Hl) as H. cbn [repr] in H. by apply H.
  - intros u. rewrite Hdom. destruct (decide (s = u)) as [->|Hne].
    + rewrite lookup_insert_eq, Hs. split; eauto.
    + by rewrite lookup_insert_ne.
Qed.

Lemma built_tree_ok t : built t → tree_ok t.
Proof.
  induction 1 as [seed|t fuel s t' _ IH Hadd|t s t' _ IH Hact|t s t' _ IH Hact].
  - exists fnil. cbn [_root _bk_nodes_dict _fn_weights fvalues repr bk_inv].
    split; [|split; [done|split; [done|split; [|split; [|done]]]]].
    + exists (Node.new seed true). by rewrite lookup_singleton_eq.
    + apply NoDup_singleton.
    + intros u. rewrite list_elem_of_singleton. destruct (decide (seed = u)) as [->|Hne].
      * rewrite lookup_singleton_eq. split; eauto.
      * rewrite lookup_singleton_ne by done. split; [congruence|by intros [? ?]].
  - destruct (has_node s t) eqn:Hhas.
    { unfold add_node in Hadd. by rewrite Hhas in Hadd. }
    destruct (add_node_ok t s (fuel `max` get_num_nodes t) IH Hhas ltac:(lia))
      as (t'' & Hadd' & Hok & _).
    rewrite (add_node_mono s fuel (fuel `max` get_num_nodes t) t _ Hadd ltac:(lia))
      in Hadd'.
    by injection Hadd' as ->.
  - unfold activate, getitem in Hact.
    destruct (_bk_nodes_dict t !! s) as [n|] eqn:Hn; [|done].
    injection Hact as <-. by eapply tree_ok_flag.
  - unfold deactivate, getitem in Hact.
    destruct (_bk_nodes_dict t !! s) as [n|] eqn:Hn; [|done].
    injection Hact as <-. by eapply tree_ok_flag.
Qed.

(** The builder from a set ends in a built tree, and does end when the
    fuel covers the number of strings. *)
Lemma add_nodes_built fuel strings :
  ∀ t t', built t → add_nodes fuel strings t = Some (Ok tt, t') → built t'.
Proof.
  induction strings as [|s strings IH]; intros t t' Hb; cbn [add_nodes].
  - by intros [= <-].
  - destruct (add_node fuel s t) as [[[[]|e] t1]|] eqn:Hadd; [|done|done].
    apply IH. by eapply built_add_node.
Qed.

Lemma bk_tree_builder_from_set_built fuel strings_set t :
  bk_tree_builder_from_set fuel strings_set None = Some (Ok t) → built t.
Proof.
  destruct strings_set as [|first rest]; cbn [bk_tree_builder_from_set]; [done|].
  destruct (add_nodes fuel rest _) as [[[[]|e] t']|] eqn:Hadd; [|done|done].
  intros [= <-]. eapply add_nodes_built; [|exact Hadd]. apply built_seed.
Qed.

Lemma get_num_nodes_add t t' s :
  has_node s t = false →
  (∀ u, is_Some (_bk_nodes_dict t' !! u) ↔ u = s ∨ is_Some (_bk_nodes_dict t !! u)) →
  get_num_nodes t' = S (get_num_nodes t).
Proof.
  intros Hs%has_node_false Hkeys. unfold get_num_nodes.
  rewrite <- !size_dom.
  assert (dom (_bk_nodes_dict t') = {[s]} ∪ dom (_bk_nodes_dict t)) as ->.
  { apply set_eq. intros u.
    rewrite elem_of_union, elem_of_singleton, !elem_of_dom. apply Hkeys. }
  rewrite size_union, size_singleton; [done|].
  apply disjoint_singleton_l. by apply not_elem_of_dom.
Qed.

Lemma add_nodes_total fuel strings :
  ∀ t, built t → NoDup strings →
    (∀ u, u ∈ strings → has_node u t = false) →
    (get_num_nodes t + length strings <= fuel)%nat →
    ∃ t', add_nodes fuel strings t = Some (Ok tt, t')
          ∧ ∀ u, is_Some (_bk_nodes_dict t' !! u) ↔
                 is_Some (_bk_nodes_dict t !! u) ∨ u ∈ strings.
Proof.
  induction strings as [|s strings IH]; intros t Hb Hnd Hfresh Hfuel; cbn [add_nodes].
  { exists t. split; [done|]. intros u. rewrite elem_of_nil. naive_solver. }
  apply NoDup_cons in Hnd as [Hs Hnd]. cbn [length] in Hfuel.
  pose proof (Hfresh s ltac:(by left)) as Hsf.
  destruct (add_node_ok t s fuel (built_tree_ok t Hb) Hsf ltac:(lia))
    as (t1 & Hadd & _ & Hkeys).
  rewrite Hadd.
  destruct (IH t1) as (t' & Hrun & Hkeys').
  - by eapply built_add_node.
  - done.
  - intros u Hu. apply has_node_false, eq_None_not_Some. rewrite Hkeys.
    intros [->|Hsome]; [done|].
    pose proof (Hfresh u ltac:(by right)) as Hf. apply has_node_false in Hf.
    rewrite Hf in Hsome. by destruct Hsome.
  - rewrite (get_num_nodes_add t t1 s Hsf Hkeys). lia.
  - exists t'. split; [done|]. intros u. rewrite Hkeys', Hkeys, elem_of_cons.
    naive_solver.
Qed.

Lemma bk_tree_builder_from_set_total fuel strings_set :
  NoDup strings_set → strings_set ≠ [] → (length strings_set <= fuel)%nat →
  ∃ t, bk_tree_builder_from_set fuel strings_set None = Some (Ok t)
       ∧ built t
       ∧ ∀ u, is_Some (_bk_nodes_dict t !! u) ↔ u ∈ strings_set.
Proof.
  destruct strings_set as [|first rest]; [done|]. intros [Hf Hnd]%NoDup_cons _ Hfuel.
  cbn [bk_tree_builder_from_set length] in *.
  destruct (add_nodes_total fuel rest
              (mkBKTree first {[ first := Node.new first true ]} None))
    as (t & Hrun & Hkeys).
  - apply built_seed.
  - done.
  - intros u Hu. apply has_node_false. cbn [_bk_nodes_dict].
    apply lookup_singleton_ne. by intros <-.
  - unfold get_num_nodes. cbn [_bk_nodes_dict]. rewrite map_size_singleton. lia.
  - change (get_value (Node.new first true)) with first. rewrite Hrun.
    exists t. split; [done|]. split.
    + eapply add_nodes_built; [|exact Hrun]. apply built_seed.
    + intros u. rewrite Hkeys, elem_of_cons. cbn [_bk_nodes_dict].
      destruct (decide (first = u)) as [<-|Hne].
      * rewrite lookup_singleton_eq. split; [by left|eauto].
      * rewrite lookup_singleton_ne by done. split.
        -- intros [[? ?]|?]; [done|by right].
        -- intros [?|?]; [done|by right].
Qed.

End BuiltTrees.

(** ** Properties of the tree *)

(** C1: on a tree built by insertions under the default distance, a range
    query given fuel for every node returns a mapping with no empty bucket
    in which the bucket of [d] holds exactly the stored, active values at
    distance [d] from the query string, for [d] up to [max_distance]. *)
Theorem get_neighbors_exact t string max_distance fuel :
  built t → (get_num_nodes t <= fuel)%nat →
  ∃ neighbors,
    get_neighbors fuel string max_distance t = Some neighbors
    ∧ (∀ d, neighbors !! d ≠ Some ∅)
    ∧ (∀ d u, u ∈ default ∅ (neighbors !! d) ↔
              d <= max_distance
              ∧ ∃ n, _bk_nodes_dict t !! u = Some n ∧ is_active n = true
                     ∧ levenshtein_distance string u None None true = d).
Proof.
  intros (kids & Hr & Hrepr & Hbk & Hnd & Hdom & Hfw)%built_tree_ok Hfuel.
  unfold get_num_nodes in Hfuel. rewrite (size_values _ _ Hnd Hdom) in Hfuel.
  destruct (get_neighbors_loop_spec t string max_distance Hfw fuel
              [(_root t, kids)] ∅) as (res & Hres & Hiff & Hne).
  { by constructor. }
  { cbn. by rewrite app_nil_r. }
  exists res. split; [exact Hres|]. split.
  - apply Hne. intros d. by rewrite lookup_empty.
  - intros d u. fold (bucket d res). rewrite Hiff. unfold bucket at 1.
    rewrite lookup_empty. cbn [default stack_values flat_map fst snd].
    rewrite app_nil_r, Hdom. unfold hit. split.
    + intros [?%elem_of_empty|[_ (n & ? & ? & ? & ?)]]; [done|]. eauto.
    + intros (? & n & ? & ? & ?). right. split; [eauto|]. exists n. done.
Qed.

Lemma get_neighbors_exact_witness :
  ∃ neighbors,
    get_neighbors 2 "book" 1 book_seed = Some neighbors
    ∧ (∀ d, neighbors !! d ≠ Some ∅)
    ∧ (∀ d u, u ∈ default ∅ (neighbors !! d) ↔
              d <= 1
              ∧ ∃ n, _bk_nodes_dict book_seed !! u = Some n
                     ∧ is_active n = true
                     ∧ levenshtein_distance "book" u None None true = d).
Proof.
  apply (get_neighbors_exact book_seed "book" 1 2).
  - apply built_seed.
  - vm_compute. lia.
Defined.

(** C5 as stated fails in its reason: the distance the code computes
    between "book" and "cake" is 4, not 3. *)
Lemma book_cake_distance_not_3 :
  levenshtein_distance "book" "cake" None None true ≠ 3.
Proof. vm_compute. discriminate. Qed.

(** C5, as amended: seed a tree with "book" and insert "books", "cake" and
    "cook" in any order; the query for "book" within 1 returns exactly
    {0: {"book"}, 1: {"books", "cook"}}, and "cake" is left out, its
    distance from "book" being 4. *)
Theorem get_neighbors_book order :
  order ≡ₚ ["books"; "cake"; "cook"] →
  (∃ t, add_nodes 4 order book_seed = Some (Ok tt, t)
        ∧ get_neighbors 4 "book" 1 t
          = Some {[ 0 := {[ "book" ]}; 1 := {[ "books"; "cook" ]} ]})
  ∧ levenshtein_distance "book" "cake" None None true = 4.
Proof.
  intros Hperm. split; [|by vm_compute].
  symmetry in Hperm. apply permutations_Permutation in Hperm.
  set (ps := permutations _) in Hperm. vm_compute in ps. subst ps.
  repeat (apply elem_of_cons in Hperm as [->|Hperm]);
    [..|by apply elem_of_nil in Hperm];
    eexists; (split; [vm_compute; reflexivity|vm_compute; reflexivity]).
Qed.

Lemma get_neighbors_book_witness :
  (∃ t, add_nodes 4 ["cook"; "books"; "cake"] book_seed = Some (Ok tt, t)
        ∧ get_neighbors 4 "book" 1 t
          = Some {[ 0 := {[ "book" ]}; 1 := {[ "books"; "cook" ]} ]})
  ∧ levenshtein_distance "book" "cake" None None true = 4.
Proof.
  apply (get_neighbors_book ["cook"; "books"; "cake"]).
  apply (Permutation_cons_app ["books"; "cake"] [] "cook"). reflexivity.
Defined.

(** C6: inserting a value that is already indexed raises [ValueError] and
    hands back the very same tree: dictionary, links and states. *)
Theorem add_node_duplicate fuel string t :
  has_node string t = true →
  add_node fuel string t = Some (Raise ValueError, t).
Proof. intros H. unfold add_node. by rewrite H. Qed.

Lemma add_node_duplicate_witness :
  add_node 0 "book" book_seed = Some (Raise ValueError, book_seed).
Proof. apply (add_node_duplicate 0 "book" book_seed). vm_compute. reflexivity. Defined.

(** ** The suggestion *)

Section Suggestion.

Lemma string_compare_trans a :
  ∀ b c, String.compare a b ≠ Gt → String.compare b c ≠ Gt →
         String.compare a c ≠ Gt.
Proof.
  induction a as [|x a IH]; intros [|y b] [|z c]; cbn; try done.
  unfold Ascii.compare.
  destruct (N.compare_spec (N_of_ascii x) (N_of_ascii y)),
           (N.compare_spec (N_of_ascii y) (N_of_ascii z)),
           (N.compare_spec (N_of_ascii x) (N_of_ascii z));
    try done; try lia.
  apply IH.
Qed.

Lemma string_leb_trans a b c :
  String.leb a b = true → String.leb b c = true → String.leb a c = true.
Proof.
  unfold String.leb. intros Hab Hbc.
  pose proof (string_compare_trans a b c) as H.
  destruct (String.compare a b), (String.compare b c), (String.compare a c);
    try done; exfalso; by apply H.
Qed.

Lemma string_leb_refl a : String.leb a a = true.
Proof. by destruct (String.leb_total a a). Qed.

(** The head of a sorted list is a least element of the list. *)
Lemma sort_head l :
  match sort l with
  | [] => l = []
  | best :: _ => best ∈ l ∧ ∀ u, u ∈ l → String.leb best u = true
  end.
Proof.
  induction l as [|a l IH]; [done|]. cbn [sort foldr]. fold (sort l).
  destruct (sort l) as [|y r].
  - subst l. cbn. split; [by left|].
    intros u ->%list_elem_of_singleton. apply string_leb_refl.
  - destruct IH as [Hy Hmin]. cbn [sort_insert].
    destruct (String.leb a y) eqn:Hay.
    + split; [by left|]. intros u [->|Hu]%elem_of_cons; [apply string_leb_refl|].
      eapply string_leb_trans; [exact Hay|by apply Hmin].
    + split; [by right|]. intros u [->|Hu]%elem_of_cons; [|by apply Hmin].
      destruct (String.leb_total a y); congruence.
Qed.

Lemma foldr_min_spec k ks :
  foldr Z.min k ks ∈ k :: ks ∧ ∀ k', k' ∈ k :: ks → foldr Z.min k ks <= k'.
Proof.
  induction ks as [|a ks [Hin Hle]]; cbn [foldr].
  - split; [by left|]. intros k' ->%list_elem_of_singleton. lia.
  - split.
    + destruct (Z.min_spec a (foldr Z.min k ks)) as [[_ ->]|[_ ->]].
      * right. by left.
      * apply elem_of_cons in Hin as [Hin|Hin]; [rewrite Hin; by left|].
        right. by right.
    + intros k' Hk'. rewrite !elem_of_cons in Hk'.
      destruct Hk' as [->|[->|Hk']].
      * specialize (Hle k ltac:(by left)). lia.
      * lia.
      * specialize (Hle k' ltac:(by right)). lia.
Qed.

(** [min_key] is the least key, and is there unless the mapping is empty. *)
Lemma min_key_spec (m : gmap Z (gset str)) :
  match min_key m with
  | None => m = ∅
  | Some k => is_Some (m !! k) ∧ ∀ k', is_Some (m !! k') → k <= k'
  end.
Proof.
  unfold min_key.
  assert (Hkeys : ∀ k, k ∈ (map_to_list m).*1 ↔ is_Some (m !! k)).
  { intros k. rewrite list_elem_of_fmap. split.
    - intros ([k' v] & -> & H%elem_of_map_to_list). by exists v.
    - intros [v Hv]. exists (k, v). split; [done|]. by apply elem_of_map_to_list. }
  destruct ((map_to_list m).*1) as [|k ks] eqn:E.
  - apply map_empty. intros k. apply eq_None_not_Some. rewrite <- Hkeys.
    apply not_elem_of_nil.
  - destruct (foldr_min_spec k ks) as [Hin Hle]. split.
    + by apply Hkeys.
    + intros k' Hk'. by apply Hle, Hkeys.
Qed.

(** The loop never leaves an empty bucket, whatever the store holds. *)
Lemma get_neighbors_loop_nonempty t q k :
  ∀ fuel stack acc res,
    (∀ d, acc !! d ≠ Some ∅) →
    get_neighbors_loop fuel t q k stack acc = Some res →
    ∀ d, res !! d ≠ Some ∅.
Proof.
  induction fuel as [|fuel IH]; intros stack acc res Hacc; cbn [get_neighbors_loop].
  - destruct (pop stack) as [[? ?]|]; [done|]. by intros [= <-].
  - destruct (pop stack) as [[stack' x]|]; [|by intros [= <-]].
    destruct (_bk_nodes_dict t !! x) as [n|]; [|done].
    apply IH. destruct (_ && _); [by apply bucket_add_nonempty|done].
Qed.

(** Python's rounding of [n / 5] never meets a tie. *)
Lemma py_round_div_5 n : 0 <= n → py_round_div n 5 = (n + 2) / 5.
Proof.
  intros Hn. unfold py_round_div.
  pose proof (Z.mod_pos_bound n 5 ltac:(lia)) as Hr.
  pose proof (Z.div_mod n 5 ltac:(lia)) as Hdm.
  assert ((n + 2) / 5 = if 2 * (n mod 5) <? 5 then n / 5 else n / 5 + 1) as ->.
  { destruct (Z.ltb_spec (2 * (n mod 5)) 5).
    - symmetry. apply (Z.div_unique _ _ _ (n mod 5 + 2)); lia.
    - symmetry. apply (Z.div_unique _ _ _ (n mod 5 + 2 - 5)); lia. }
  destruct (Z.ltb_spec (2 * (n mod 5)) 5); [done|].
  destruct (Z.ltb_spec 5 (2 * (n mod 5))); [done|lia].
Qed.

End Suggestion.

(** C2: on every tree, [suggest_correction] returns [None] for a string
    that is indexed and active; otherwise it runs [get_neighbors] with the
    radius max(round(len/5) + 1, 2), returns [None] when that yields no
    bucket, and else returns the lexicographically least string of the
    bucket under the least distance. *)
Theorem suggest_correction_spec fuel string t :
  py_round_div (len string) 5 = (len string + 2) / 5
  ∧ match _bk_nodes_dict t !! string with
    | Some n =>
        is_active n = true → suggest_correction fuel string t = Some (Ok None)
    | None => True
    end
  ∧ ((∀ n, _bk_nodes_dict t !! string = Some n → is_active n = false) →
     match get_neighbors fuel string
                         (Z.max (py_round_div (len string) 5 + 1) 2) t with
     | None => suggest_correction fuel string t = None
     | Some suggestions =>
         (suggestions = ∅ → suggest_correction fuel string t = Some (Ok None))
         ∧ (suggestions ≠ ∅ →
            ∃ d bucket best,
              suggest_correction fuel string t = Some (Ok (Some best))
              ∧ suggestions !! d = Some bucket
              ∧ (∀ d', is_Some (suggestions !! d') → d <= d')
              ∧ best ∈ bucket
              ∧ ∀ u, u ∈ bucket → String.leb best u = true)
     end).
Proof.
  change (Z.max (py_round_div (len string) 5 + 1) 2) with (radius string).
  split; [|split].
  - apply py_round_div_5. unfold len. lia.
  - destruct (_bk_nodes_dict t !! string) as [n|] eqn:Hn; [|done].
    intros Hact. unfold suggest_correction, has_node, getitem.
    rewrite Hn, Hact. rewrite bool_decide_eq_true_2 by eauto. done.
  - intros Hinactive. unfold suggest_correction.
    assert (has_node string t
            && match getitem string t with Ok n => is_active n | Raise _ => false end
            = false) as ->.
    { unfold has_node, getitem.
      destruct (_bk_nodes_dict t !! string) as [n|] eqn:Hn.
      - rewrite (Hinactive n eq_refl). apply andb_false_r.
      - rewrite bool_decide_eq_false_2; [done|]. by intros [? ?]. }
    destruct (get_neighbors fuel string (radius string) t) as [suggestions|] eqn:Hq;
      [|done].
    split.
    + intros ->. by rewrite bool_decide_eq_true_2.
    + intros Hne. rewrite bool_decide_eq_false_2 by done.
      pose proof (min_key_spec suggestions) as Hmin.
      destruct (min_key suggestions) as [d|]; [|done].
      destruct Hmin as [[bucket Hb] Hleast]. rewrite Hb.
      pose proof (sort_head (elements bucket)) as Hsort.
      destruct (sort (elements bucket)) as [|best rest].
      * apply elements_empty_inv in Hsort. apply leibniz_equiv in Hsort. subst bucket.
        exfalso. unfold get_neighbors in Hq.
        eapply (get_neighbors_loop_nonempty t string (radius string)); [|exact Hq|exact Hb].
        intros d'. by rewrite lookup_empty.
      * destruct Hsort as [Hin Hle]. exists d, bucket, best.
        split; [done|]. split; [done|]. split; [done|].
        split; [by apply elem_of_elements|].
        intros u Hu. by apply Hle, elem_of_elements.
Qed.

(** ** Reconstruction from the persisted form *)

Section FromDict.

Lemma add_link_raises distance node n e :
  add_link distance node n = Raise e → e = KeyError.
Proof. unfold add_link. destruct (has_distance distance n); congruence. Qed.

Lemma link_all_raises node_value links :
  ∀ d e, link_all node_value links d = Raise e → e = KeyError.
Proof.
  induction links as [|[distance node] links IH]; intros d e; cbn [link_all]; [done|].
  destruct (negb _); [congruence|].
  destruct (d !! node_value) as [n|]; [|congruence].
  destruct (add_link distance node n) as [n'|e'] eqn:Hadd.
  - apply IH.
  - intros [= <-]. by eapply add_link_raises.
Qed.

Lemma link_nodes_raises nodes :
  ∀ d e, link_nodes nodes d = Raise e → e = KeyError.
Proof.
  induction nodes as [|nd nodes IH]; intros d e; cbn [link_nodes]; [done|].
  destruct (link_all (value nd) (links nd) d) as [d'|e'] eqn:Hall.
  - apply IH.
  - intros [= <-]. by eapply link_all_raises.
Qed.

(** Linking changes no key of the dictionary, and succeeds only when every
    child is a key. *)
Lemma link_all_ok node_value links :
  ∀ d d', link_all node_value links d = Ok d' →
    (∀ u, is_Some (d' !! u) ↔ is_Some (d !! u))
    ∧ ∀ distance node, (distance, node) ∈ links → is_Some (d !! node).
Proof.
  induction links as [|[distance node] links IH]; intros d d'; cbn [link_all].
  - intros [= <-]. split; [done|]. by intros ? ? ?%elem_of_nil.
  - destruct (bool_decide (is_Some (d !! node))) eqn:Hin; cbn [negb]; [|done].
    apply bool_decide_eq_true in Hin.
    destruct (d !! node_value) as [n|] eqn:Hn; [|done].
    destruct (add_link distance node n) as [n'|]; [|done].
    intros [Hkeys Hch]%IH.
    assert (Hins : ∀ u, is_Some (<[node_value := n']> d !! u) ↔ is_Some (d !! u)).
    { intros u. destruct (decide (node_value = u)) as [<-|Hne].
      - rewrite lookup_insert_eq, Hn. split; eauto.
      - by rewrite lookup_insert_ne. }
    split.
    + intros u. by rewrite Hkeys, Hins.
    + intros dist0 node0 [[= -> ->]|Hl]%elem_of_cons; [done|].
      rewrite <- Hins. by eapply Hch.
Qed.

Lemma link_nodes_ok nodes :
  ∀ d d', link_nodes nodes d = Ok d' →
    ∀ nd distance node,
      nd ∈ nodes → (distance, node) ∈ links nd → is_Some (d !! node).
Proof.
  induction nodes as [|nd0 nodes IH]; intros d d'; cbn [link_nodes].
  - by intros _ ? ? ? ?%elem_of_nil.
  - destruct (link_all (value nd0) (links nd0) d) as [d0|] eqn:Hall; [|done].
    apply link_all_ok in Hall as [Hkeys Hch].
    intros Hrest nd distance node [->|Hnd]%elem_of_cons Hl.
    + by eapply Hch.
    + rewrite <- Hkeys. by eapply IH.
Qed.

(** The keys of the comprehension are the values of the records. *)
Lemma nodes_of_keys nodes u :
  is_Some (nodes_of nodes !! u) ↔ u ∈ value <$> nodes.
Proof.
  unfold nodes_of.
  assert (H : ∀ d : gmap str Node, is_Some (fold_left
              (fun d nd => <[value nd := Node.new (value nd) (is_active_flag nd)]> d)
              nodes d !! u) ↔ is_Some (d !! u) ∨ u ∈ value <$> nodes).
  { induction nodes as [|nd nodes IH]; intros d; cbn [fold_left fmap list_fmap].
    - rewrite elem_of_nil. naive_solver.
    - rewrite IH, elem_of_cons, lookup_insert_is_Some'. naive_solver. }
  rewrite H, lookup_empty. split; [intros [[? ?]|?]; done|by right].
Qed.

End FromDict.

(** C7: when some link of some record names a child that is the value of
    no record, [bk_tree_builder_from_dict] raises [KeyError] and returns
    no tree. *)
Theorem bk_tree_builder_from_dict_missing bk_tree_dict fn_weights :
  (∃ nd distance child,
      nd ∈ nodes bk_tree_dict ∧ (distance, child) ∈ links nd
      ∧ child ∉ value <$> nodes bk_tree_dict) →
  bk_tree_builder_from_dict bk_tree_dict fn_weights = Raise KeyError.
Proof.
  intros (nd & distance & child & Hnd & Hl & Hmiss).
  unfold bk_tree_builder_from_dict.
  destruct (nodes_of (nodes bk_tree_dict) !! root bk_tree_dict); [|done].
  destruct (link_nodes (nodes bk_tree_dict) (nodes_of (nodes bk_tree_dict)))
    as [d|e] eqn:Hlink.
  - exfalso. apply Hmiss, nodes_of_keys.
    by eapply (link_nodes_ok _ _ _ Hlink nd distance child).
  - f_equal. by eapply link_nodes_raises.
Qed.

Lemma bk_tree_builder_from_dict_missing_witness :
  bk_tree_builder_from_dict
    (mkTreeDict "book" [mkNodeDict "book" true [(1, "books")]]) None
  = Raise KeyError.
Proof.
  apply (bk_tree_builder_from_dict_missing
           (mkTreeDict "book" [mkNodeDict "book" true [(1, "books")]]) None).
  exists (mkNodeDict "book" true [(1, "books")]), 1, "books".
  split; [simpl; by left|]. split; [simpl; by left|].
  simpl. intros H. apply list_elem_of_singleton in H. discriminate.
Defined.

(** ** Building from a set and from a file *)

Section FromSet.

(** The descent raises nothing but [KeyError], and when it succeeds the
    dictionary has the keys it had. *)
Lemma add_node_loop_outcome s :
  ∀ fuel x t r t',
    add_node_loop fuel s x t = Some (r, t') →
    match r with
    | Raise e => e = KeyError
    | Ok _ => ∀ u, is_Some (_bk_nodes_dict t' !! u) ↔ is_Some (_bk_nodes_dict t !! u)
    end.
Proof.
  induction fuel as [|fuel IH]; intros x t r t'; cbn [add_node_loop]; [done|].
  destruct (_bk_nodes_dict t !! x) as [n|] eqn:Hn; [|done].
  destruct (_bk_nodes_dict t !! s) as [m|]; [|done].
  destruct (negb _).
  - destruct (add_link _ s n) as [n'|e] eqn:Hadd.
    + intros [= <- <-]. cbn [with_nodes _bk_nodes_dict]. intros u.
      destruct (decide (x = u)) as [<-|Hne].
      * rewrite lookup_insert_eq, Hn. split; eauto.
      * by rewrite lookup_insert_ne.
    + intros [= <- <-]. by eapply add_link_raises.
  - unfold get_link. destruct (dict_get _ (_links n)) as [child|].
    + apply IH.
    + by intros [= <- <-].
Qed.

(** Inserting strings that are new and distinct never raises [ValueError]. *)
Lemma add_nodes_no_value_error fuel strings :
  ∀ t t', NoDup strings →
    (∀ u, u ∈ strings → _bk_nodes_dict t !! u = None) →
    add_nodes fuel strings t ≠ Some (Raise ValueError, t').
Proof.
  induction strings as [|s strings IH]; intros t t' Hnd Hfresh; cbn [add_nodes]; [done|].
  apply NoDup_cons in Hnd as [Hs Hnd].
  unfold add_node at 1.
  rewrite (proj2 (has_node_false s t)) by (apply Hfresh; by left).
  destruct (add_node_loop fuel s (_root t) _) as [[[[]|e] t1]|] eqn:Hrun; [| |done].
  - apply add_node_loop_outcome in Hrun. cbn [with_nodes _bk_nodes_dict] in Hrun.
    apply IH; [done|]. intros u Hu. apply eq_None_not_Some. rewrite Hrun.
    rewrite lookup_insert_ne by (by intros ->).
    rewrite (Hfresh u) by (by right). by intros [? ?].
  - apply add_node_loop_outcome in Hrun. subst e. congruence.
Qed.

Lemma split_empty delimiter : delimiter ≠ "" → split "" delimiter = Ok [""].
Proof. intros H. unfold split. by rewrite (proj2 (String.eqb_neq _ _) H). Qed.

End FromSet.

(** C10: a file whose content is the empty string builds, for any
    non-empty delimiter, a tree of one node whose value is the empty
    string; and [bk_tree_builder_from_set] raises its [ValueError] exactly
    when the set is empty. *)
Theorem bk_tree_builder_from_file_empty set_iter fuel delimiter fn_weights :
  (∀ X, set_iter X ≡ₚ elements X) → delimiter ≠ "" →
  (∃ t, bk_tree_builder_from_file set_iter fuel "" delimiter fn_weights = Some (Ok t)
        ∧ get_num_nodes t = 1%nat ∧ get_nodes t = {[ "" ]})
  ∧ (∀ X, bk_tree_builder_from_set fuel (set_iter X) fn_weights
          = Some (Raise ValueError) ↔ X = ∅).
Proof.
  intros Hiter Hdel. split.
  - unfold bk_tree_builder_from_file. rewrite (split_empty _ Hdel).
    assert (set_iter (list_to_set [""]) = [""]) as ->.
    { apply Permutation_singleton_r. rewrite Hiter.
      replace (list_to_set [""] : gset str) with ({[ "" ]} : gset str) by set_solver.
      by rewrite elements_singleton. }
    eexists. split; [reflexivity|]. split.
    + unfold get_num_nodes. cbn [_bk_nodes_dict]. apply map_size_singleton.
    + unfold get_nodes. cbn [_bk_nodes_dict]. apply dom_singleton_L.
  - intros X. specialize (Hiter X). split.
    + destruct (set_iter X) as [|first rest] eqn:E.
      { intros _. symmetry in Hiter. apply Permutation_nil_r in Hiter.
        apply elements_empty_inv in Hiter. by apply leibniz_equiv. }
      cbn [bk_tree_builder_from_set]. intros Hraise. exfalso.
      assert (NoDup (first :: rest)) as [Hfirst Hnd]%NoDup_cons
        by (rewrite Hiter; apply NoDup_elements).
      destruct (add_nodes fuel rest _) as [[[[]|e] t']|] eqn:Hadd; [done| |done].
      injection Hraise as ->.
      eapply add_nodes_no_value_error; [exact Hnd| |exact Hadd].
      intros u Hu. cbn [_bk_nodes_dict]. apply lookup_singleton_ne. by intros <-.
    + intros ->. rewrite elements_empty in Hiter. apply Permutation_nil_r in Hiter.
      by rewrite Hiter.
Qed.

Lemma bk_tree_builder_from_file_empty_witness :
  (∃ t, bk_tree_builder_from_file elements 0 "" "," None = Some (Ok t)
        ∧ get_num_nodes t = 1%nat ∧ get_nodes t = {[ "" ]})
  ∧ (∀ X : gset str, bk_tree_builder_from_set 0 (elements X) None
                     = Some (Raise ValueError) ↔ X = ∅).
Proof.
  apply (bk_tree_builder_from_file_empty elements 0 "," None).
  - intros X. reflexivity.
  - discriminate.
Defined.

(** ** The keyboard table *)

Import Keyboard.

Section DictFacts.

Context {K V : Type} `{EqDecision K}.

Lemma dict_get_is_Some (k : K) (d : list (K * V)) :
  is_Some (dict_get k d) ↔ k ∈ d.*1.
Proof.
  induction d as [|[k' v] d IH]; cbn [dict_get fmap list_fmap fst].
  - rewrite elem_of_nil. split; [by intros [? ?]|done].
  - rewrite elem_of_cons. destruct (decide (k = k')) as [->|Hne].
    + split; [by left|eauto].
    + rewrite IH. naive_solver.
Qed.

Lemma dict_has_elem (k : K) (d : list (K * V)) :
  dict_has k d = true ↔ k ∈ d.*1.
Proof. unfold dict_has. by rewrite bool_decide_eq_true, dict_get_is_Some. Qed.

Lemma dict_has_not_elem (k : K) (d : list (K * V)) :
  dict_has k d = false ↔ k ∉ d.*1.
Proof. rewrite <- dict_has_elem. by destruct (dict_has k d). Qed.

Lemma dict_set_fresh (k : K) (v : V) (d : list (K * V)) :
  k ∉ d.*1 → dict_set k v d = d ++ [(k, v)].
Proof.
  induction d as [|[k' v'] d IH]; cbn [dict_set fmap list_fmap fst]; [done|].
  rewrite not_elem_of_cons. intros [Hne Hk].
  destruct (decide (k = k')); [done|]. by rewrite IH.
Qed.

Lemma dict_del_keys (k : K) (d : list (K * V)) :
  NoDup d.*1 →
  NoDup (dict_del k d).*1 ∧ ∀ k', k' ∈ (dict_del k d).*1 ↔ k' ∈ d.*1 ∧ k' ≠ k.
Proof.
  induction d as [|[k0 v0] d IH]; cbn [dict_del fmap list_fmap fst].
  - intros _. split; [constructor|]. intros k'. rewrite elem_of_nil. naive_solver.
  - intros [Hk0 Hnd]%NoDup_cons. destruct (IH Hnd) as [IH1 IH2].
    destruct (decide (k = k0)) as [->|Hne].
    + split; [done|]. intros k'. rewrite elem_of_cons. split.
      * intros Hk'. split; [by right|]. by intros ->.
      * intros [[->|?] ?]; done.
    + cbn [fmap list_fmap fst]. split.
      * apply NoDup_cons. split; [|done]. rewrite IH2. naive_solver.
      * intros k'. rewrite !elem_of_cons, IH2. naive_solver.
Qed.

End DictFacts.

Section KeyboardFacts.

Context {coord : Type} (weight_of : coord -> coord -> Z).

Lemma sym_table_twin w k1 k2 r1 r2 :
  sym_table w → w !! k1 = Some r1 → w !! k2 = Some r2 → r1 !! k2 = r2 !! k1.
Proof.
  intros [_ Hcl] H1 H2.
  destruct (r1 !! k2) as [x|] eqn:E1.
  - destruct (Hcl k1 r1 k2 H1 ltac:(by rewrite E1)) as (r' & Hr' & Heq).
    rewrite H2 in Hr'. injection Hr' as <-. by rewrite Heq, E1.
  - destruct (r2 !! k1) as [y|] eqn:E2; [|done].
    destruct (Hcl k2 r2 k1 H2 ltac:(by rewrite E2)) as (r' & Hr' & Heq).
    rewrite H1 in Hr'. injection Hr' as <-. rewrite E1, E2 in Heq. done.
Qed.

Lemma sym_table_empty : sym_table ∅.
Proof. split; intros k r; by rewrite lookup_empty. Qed.

(** Giving a new key its own row keeps the table symmetric. *)
Lemma sym_table_new_row w k :
  w !! k = None → sym_table w → sym_table (<[k := {[k := 0]}]> w).
Proof.
  intros Hk [Hd Hcl]. split.
  - intros k0 r. destruct (decide (k = k0)) as [<-|Hne].
    + rewrite lookup_insert_eq. intros [= <-]. apply lookup_singleton_eq.
    + rewrite lookup_insert_ne by done. apply Hd.
  - intros k0 r k'. destruct (decide (k = k0)) as [<-|Hne].
    + rewrite lookup_insert_eq. intros [= <-] [x Hx].
      apply lookup_singleton_Some in Hx as [<- _].
      exists {[k := 0]}. by rewrite lookup_insert_eq.
    + rewrite lookup_insert_ne by done. intros Hr Hk'.
      destruct (Hcl k0 r k' Hr Hk') as (r' & Hr' & Heq).
      exists r'. split; [|done]. rewrite lookup_insert_ne; [done|]. congruence.
Qed.

Lemma setdefault_row_lookup w k k' :
  is_Some (setdefault_row k w !! k') ↔ k' = k ∨ is_Some (w !! k').
Proof.
  unfold setdefault_row. destruct (w !! k) as [r|] eqn:E.
  - split; [by right|]. intros [->|?]; [by rewrite E|done].
  - rewrite lookup_insert_is_Some'. naive_solver.
Qed.

Lemma sym_table_setdefault w k : sym_table w → sym_table (setdefault_row k w).
Proof.
  unfold setdefault_row. destruct (w !! k) eqn:E; [done|]. by apply sym_table_new_row.
Qed.

(** Writing one weight into the rows of two different keys, each under
    the other key, keeps the table symmetric. *)
Lemma sym_table_link w w' a b wt ra rb :
  a ≠ b → w !! a = Some ra → w !! b = Some rb →
  w' !! a = Some (<[b := wt]> ra) → w' !! b = Some (<[a := wt]> rb) →
  (∀ k, k ≠ a → k ≠ b → w' !! k = w !! k) →
  sym_table w → sym_table w'.
Proof.
  intros Hab Ha Hb Ha' Hb' Hother [Hd Hcl]. split.
  - intros k r Hr. destruct (decide (k = a)) as [->|Hka]; [|destruct (decide (k = b)) as [->|Hkb]].
    + rewrite Ha' in Hr. injection Hr as <-. rewrite lookup_insert_ne by done. by eapply Hd.
    + rewrite Hb' in Hr. injection Hr as <-. rewrite lookup_insert_ne by done. by eapply Hd.
    + rewrite Hother in Hr by done. by eapply Hd.
  - assert (Hrow : ∀ k r, w !! k = Some r →
      ∃ r', w' !! k = Some r' ∧ ∀ x, (k = a → x ≠ b) → (k = b → x ≠ a) → r' !! x = r !! x).
    { intros k r Hr. destruct (decide (k = a)) as [->|Hka];
        [|destruct (decide (k = b)) as [->|Hkb]].
      - rewrite Ha in Hr. injection Hr as <-. eexists. split; [exact Ha'|].
        intros x Hx _. rewrite lookup_insert_ne; [done|]. intros <-. by apply Hx.
      - rewrite Hb in Hr. injection Hr as <-. eexists. split; [exact Hb'|].
        intros x _ Hx. rewrite lookup_insert_ne; [done|]. intros <-. by apply Hx.
      - exists r. by rewrite Hother. }
    intros k r k' Hr Hk'.
    destruct (decide (k = a ∧ k' = b)) as [[-> ->]|Hn1].
    { rewrite Ha' in Hr. injection Hr as <-. eexists. split; [exact Hb'|].
      by rewrite !lookup_insert_eq. }
    destruct (decide (k = b ∧ k' = a)) as [[-> ->]|Hn2].
    { rewrite Hb' in Hr. injection Hr as <-. eexists. split; [exact Ha'|].
      by rewrite !lookup_insert_eq. }
    assert (∃ r0, w !! k = Some r0 ∧ r !! k' = r0 !! k') as (r0 & Hr0 & Heq).
    { destruct (decide (k = a)) as [->|Hka]; [|destruct (decide (k = b)) as [->|Hkb]].
      - rewrite Ha' in Hr. injection Hr as <-. exists ra. split; [done|].
        rewrite lookup_insert_ne; [done|]. intros <-. by apply Hn1.
      - rewrite Hb' in Hr. injection Hr as <-. exists rb. split; [done|].
        rewrite lookup_insert_ne; [done|]. intros <-. by apply Hn2.
      - exists r. by rewrite <- Hother. }
    rewrite Heq in Hk'.
    destruct (Hcl k r0 k' Hr0 Hk') as (r1 & Hr1 & Heq1).
    destruct (Hrow k' r1 Hr1) as (r1' & Hr1' & Hsame).
    exists r1'. split; [done|]. rewrite Hsame, Heq1, Heq; [done| |].
    + intros -> ->. by apply Hn2.
    + intros -> ->. by apply Hn1.
Qed.

(** A loop whose body keeps an invariant and never raises on the elements
    it is given runs through and keeps the invariant. *)
Lemma for_each_ok {A S} (body : S → A → result S) (P : S → Prop) xs :
  ∀ s, (∀ s x, x ∈ xs → P s → ∃ s', body s x = Ok s' ∧ P s') → P s →
       ∃ s', for_each body xs s = (Ok tt, s') ∧ P s'.
Proof.
  induction xs as [|x xs IH]; intros s Hbody Hs; cbn [for_each]; [eauto|].
  destruct (Hbody s x ltac:(by left) Hs) as (s' & -> & Hs').
  apply IH; [|done]. intros s0 x0 Hx0. apply Hbody. by right.
Qed.

End KeyboardFacts.

Section KeyboardOps.

Context {coord : Type} (weight_of : coord -> coord -> Z).

Lemma setdefault_row_ne w k k' : k' ≠ k → setdefault_row k w !! k' = w !! k'.
Proof.
  intros Hne. unfold setdefault_row. destruct (w !! k); [done|].
  by rewrite lookup_insert_ne.
Qed.

Lemma setdefault_row_eq w k :
  setdefault_row k w !! k = Some (default {[k := 0]} (w !! k)).
Proof.
  unfold setdefault_row. destruct (w !! k) eqn:E; [done|].
  by rewrite lookup_insert_eq.
Qed.

(** Lines 28-37 keep the table symmetric and add rows for later keys only. *)
Lemma init_pairs_ok key_i coordinate_i later :
  ∀ w, key_i ∉ later.*1 → is_Some (w !! key_i) → sym_table w →
    sym_table (init_pairs weight_of key_i coordinate_i later w)
    ∧ (∀ k, is_Some (w !! k) →
            is_Some (init_pairs weight_of key_i coordinate_i later w !! k))
    ∧ (∀ k, is_Some (init_pairs weight_of key_i coordinate_i later w !! k) →
            is_Some (w !! k) ∨ k ∈ later.*1).
Proof.
  unfold init_pairs.
  induction later as [|[key_ii coordinate_ii] later IH]; intros w Hnotin Hrow Hsym;
    cbn [fold_left fmap list_fmap fst].
  { split; [done|]. split; [done|]. by left. }
  apply not_elem_of_cons in Hnotin as [Hne Hnotin].
  destruct (1 <? weight_of coordinate_i coordinate_ii).
  { destruct (IH w Hnotin Hrow Hsym) as (H1 & H2 & H3).
    split; [done|]. split; [done|]. intros k Hk. rewrite elem_of_cons.
    destruct (H3 k Hk); auto. }
  set (wt := weight_of coordinate_i coordinate_ii).
  set (w' := alter (λ r, <[key_i := wt]> r) key_ii
               (setdefault_row key_ii (alter (λ r, <[key_ii := wt]> r) key_i w))).
  destruct Hrow as [ra Hra].
  assert (Ha' : w' !! key_i = Some (<[key_ii := wt]> ra)).
  { unfold w'. rewrite lookup_alter_ne by done. rewrite setdefault_row_ne by done.
    by rewrite lookup_alter_eq, Hra. }
  assert (Hb' : w' !! key_ii
                = Some (<[key_i := wt]> (default {[key_ii := 0]} (w !! key_ii)))).
  { unfold w'. rewrite lookup_alter_eq, setdefault_row_eq.
    by rewrite lookup_alter_ne by done. }
  assert (Hother : ∀ k, k ≠ key_i → k ≠ key_ii → w' !! k = setdefault_row key_ii w !! k).
  { intros k H1 H2. unfold w'. rewrite lookup_alter_ne by done.
    rewrite !setdefault_row_ne by done. by rewrite lookup_alter_ne. }
  assert (Hsym' : sym_table w').
  { eapply (sym_table_link (setdefault_row key_ii w) w' key_i key_ii wt);
      [done| |apply setdefault_row_eq|exact Ha'|exact Hb'|exact Hother|
       by apply sym_table_setdefault].
    by rewrite setdefault_row_ne. }
  assert (Hdom' : ∀ k, is_Some (w' !! k) ↔ is_Some (w !! k) ∨ k = key_ii).
  { intros k. destruct (decide (k = key_i)) as [->|H1];
      [|destruct (decide (k = key_ii)) as [->|H2]].
    - rewrite Ha', Hra. split; eauto.
    - rewrite Hb'. split; eauto.
    - rewrite Hother, setdefault_row_ne by done. naive_solver. }
  destruct (IH w' Hnotin ltac:(by rewrite Ha') Hsym') as (H1 & H2 & H3).
  split; [done|]. split.
  - intros k Hk. apply H2, Hdom'. by left.
  - intros k Hk. rewrite elem_of_cons. destruct (H3 k Hk) as [Hk'|?]; [|auto].
    apply Hdom' in Hk' as [?|?]; auto.
Qed.

Lemma init_rows_ok keys :
  ∀ w, NoDup keys.*1 → sym_table w →
    sym_table (init_rows weight_of keys w)
    ∧ ∀ k, is_Some (init_rows weight_of keys w !! k) ↔ is_Some (w !! k) ∨ k ∈ keys.*1.
Proof.
  induction keys as [|[key_i coordinate_i] later IH]; intros w Hnd Hsym;
    cbn [init_rows fmap list_fmap fst].
  { split; [done|]. intros k. rewrite elem_of_nil. naive_solver. }
  apply NoDup_cons in Hnd as [Hnotin Hnd].
  destruct (init_pairs_ok key_i coordinate_i later (setdefault_row key_i w) Hnotin)
    as (H1 & H2 & H3).
  { rewrite setdefault_row_eq. eauto. }
  { by apply sym_table_setdefault. }
  destruct (IH _ Hnd H1) as [H4 H5]. split; [done|].
  intros k. rewrite H5, elem_of_cons. split.
  - intros [Hk|?]; [|auto]. apply H3 in Hk as [Hk|?]; [|auto].
    apply setdefault_row_lookup in Hk as [?|?]; auto.
  - intros [Hk|[->|?]]; [| |auto].
    + left. apply H2, setdefault_row_lookup. by right.
    + left. apply H2, setdefault_row_lookup. by left.
Qed.

Lemma init_ok keys : NoDup keys.*1 → kb_ok (init weight_of keys).
Proof.
  intros Hnd. destruct (init_rows_ok keys ∅ Hnd sym_table_empty) as [H1 H2].
  split; [done|]. split; [|done]. intros k. cbn. rewrite H2, lookup_empty.
  split; [intros [[? ?]|?]; done|by right].
Qed.

Lemma has_key_true key (kb : @Keyboard coord) :
  has_key key kb = true ↔ key ∈ (_keys kb).*1.
Proof. apply dict_has_elem. Qed.

(** [add_key] keeps the invariant, whether it raises or not. *)
Lemma add_key_ok key coordinate kb :
  kb_ok kb → kb_ok (add_key weight_of key coordinate kb).2.
Proof.
  intros (Hnd & Hdom & Hsym). unfold add_key.
  destruct (dict_has key (_keys kb)) eqn:Hhas; [done|].
  apply dict_has_not_elem in Hhas.
  rewrite (dict_set_fresh _ _ _ Hhas).
  set (keys' := _keys kb ++ [(key, coordinate)]).
  assert (Hkeys' : ∀ k, k ∈ keys'.*1 ↔ k = key ∨ k ∈ (_keys kb).*1).
  { intros k. unfold keys'. rewrite fmap_app, elem_of_app. cbn.
    rewrite list_elem_of_singleton. naive_solver. }
  assert (Hnone : _keys_weight kb !! key = None).
  { apply eq_None_not_Some. by rewrite Hdom. }
  destruct (for_each_ok (add_key_step weight_of key coordinate keys')
              (λ w, sym_table w ∧ ∀ k, is_Some (w !! k) ↔ k ∈ keys'.*1)
              keys'.*1 (<[key := {[key := 0]}]> (_keys_weight kb)))
    as (w' & Hrun & Hsym' & Hdom').
  - intros w k Hk [Hs Hd]. unfold add_key_step.
    destruct (proj2 (dict_get_is_Some k keys') Hk) as [c ->].
    destruct (1 <? weight_of c coordinate); [eauto|].
    set (wt := weight_of c coordinate).
    destruct (proj2 (Hd k) Hk) as [r Hr]. rewrite Hr.
    destruct (proj2 (Hd key) ltac:(apply Hkeys'; by left)) as [rkey Hrkey].
    pose proof (sym_table_twin w k key r rkey Hs Hr Hrkey) as Htwin.
    eexists. split; [reflexivity|].
    destruct (r !! key) as [v|] eqn:Hv.
    + (* the pair is already there: nothing changes *)
      assert (alter (λ r0, match r0 !! k with Some _ => r0 | None => <[k := wt]> r0 end)
                    key (setdefault_row key (<[k := r]> w)) = w) as ->; [|done].
      rewrite (insert_id w k r Hr). unfold setdefault_row. rewrite Hrkey.
      apply map_eq. intros k0. destruct (decide (key = k0)) as [<-|Hne].
      * rewrite lookup_alter_eq, Hrkey. cbn. by rewrite <- Htwin.
      * by rewrite lookup_alter_ne.
    + assert (k ≠ key) as Hne.
      { intros ->. destruct Hs as [Hdiag _]. rewrite (Hdiag key r Hr) in Hv. done. }
      set (w1 := alter _ key _).
      assert (H1 : w1 !! k = Some (<[key := wt]> r)).
      { unfold w1. rewrite lookup_alter_ne by done. rewrite setdefault_row_ne by done.
        by rewrite lookup_insert_eq. }
      assert (H2 : w1 !! key = Some (<[k := wt]> rkey)).
      { unfold w1. rewrite lookup_alter_eq, setdefault_row_eq.
        rewrite lookup_insert_ne by done. rewrite Hrkey. cbn. by rewrite <- Htwin. }
      assert (H3 : ∀ k0, k0 ≠ k → k0 ≠ key → w1 !! k0 = w !! k0).
      { intros k0 Hk0 Hk0'. unfold w1. rewrite lookup_alter_ne by done.
        rewrite setdefault_row_ne by done. by rewrite lookup_insert_ne. }
      split.
      * by eapply (sym_table_link w w1 k key wt r rkey).
      * intros k0. rewrite <- Hd.
        destruct (decide (k0 = k)) as [->|Hk0]; [|destruct (decide (k0 = key)) as [->|Hk0']].
        -- rewrite H1, Hr. split; eauto.
        -- rewrite H2, Hrkey. split; eauto.
        -- by rewrite H3.
  - split.
    + by apply sym_table_new_row.
    + intros k. rewrite lookup_insert_is_Some', Hkeys', Hdom. naive_solver.
  - rewrite Hrun. cbn. split; [|done]. cbn [_keys].
    unfold keys'. rewrite fmap_app. cbn. apply NoDup_app. split; [done|].
    split; [|apply NoDup_singleton].
    intros k Hk ->%list_elem_of_singleton. done.
Qed.

(** The loop of [del_key] removes the key from the rows it is given. *)
Lemma del_loop key ks :
  ∀ w : gmap str (gmap str Z), NoDup ks →
    (∀ k, k ∈ ks → ∃ rk, w !! k = Some rk ∧ is_Some (rk !! key)) →
    ∃ w', for_each (del_key_step key) ks w = (Ok tt, w')
          ∧ ∀ k, w' !! k = if decide (k ∈ ks) then delete key <$> (w !! k) else w !! k.
Proof.
  induction ks as [|x ks IH]; intros w Hnd Hrows; cbn [for_each].
  { exists w. split; [done|]. intros k. by rewrite decide_False by apply not_elem_of_nil. }
  apply NoDup_cons in Hnd as [Hx Hnd].
  destruct (Hrows x ltac:(by left)) as (rx & Hrx & [v Hv]).
  unfold del_key_step at 1. rewrite Hrx, Hv.
  destruct (IH (<[x := delete key rx]> w) Hnd) as (w' & Hrun & Hw').
  { intros k Hk. rewrite lookup_insert_ne by (by intros ->). apply Hrows. by right. }
  exists w'. split; [done|]. intros k. rewrite Hw'.
  destruct (decide (k = x)) as [->|Hne].
  - rewrite (decide_False (P := x ∈ ks)) by done.
    rewrite (decide_True (P := x ∈ x :: ks)) by (by left).
    by rewrite lookup_insert_eq, Hrx.
  - rewrite lookup_insert_ne by done.
    destruct (decide (k ∈ ks)) as [Hk|Hk].
    + by rewrite (decide_True (P := k ∈ x :: ks)) by (by right).
    + rewrite (decide_False (P := k ∈ x :: ks)); [done|].
      rewrite elem_of_cons. naive_solver.
Qed.

(** Dropping a key from every row and its own row keeps the table
    symmetric. *)
Lemma sym_table_remove (w : gmap str (gmap str Z)) key :
  sym_table w → sym_table (delete key (delete key <$> w)).
Proof.
  intros [Hd Hcl]. split.
  - intros k r. destruct (decide (key = k)) as [<-|Hne].
    + by rewrite lookup_delete_eq.
    + rewrite lookup_delete_ne, lookup_fmap by done.
      destruct (w !! k) as [rk|] eqn:Hrk; [|done]. intros [= <-].
      rewrite lookup_delete_ne by done. by eapply Hd.
  - intros k r k'. destruct (decide (key = k)) as [<-|Hne].
    + by rewrite lookup_delete_eq.
    + rewrite lookup_delete_ne, lookup_fmap by done.
      destruct (w !! k) as [rk|] eqn:Hrk; [|done]. intros [= <-].
      destruct (decide (key = k')) as [<-|Hne'].
      { rewrite lookup_delete_eq. by intros [? ?]. }
      rewrite lookup_delete_ne by done. intros Hk'.
      destruct (Hcl k rk k' Hrk Hk') as (r' & Hr' & Heq).
      exists (delete key r'). rewrite lookup_delete_ne, lookup_fmap, Hr' by done.
      split; [done|]. by rewrite lookup_delete_ne.
Qed.

(** [del_key] keeps the invariant, whether it raises or not. *)
Lemma del_key_ok key (kb : @Keyboard coord) : kb_ok kb → kb_ok (del_key key kb).2.
Proof.
  intros (Hnd & Hdom & Hsym). unfold del_key.
  destruct (has_key key kb) eqn:Hhas; cbn [negb]; [|done].
  apply has_key_true in Hhas.
  destruct (proj2 (Hdom key) Hhas) as [r Hr]. rewrite Hr.
  destruct (del_loop key (map_to_list r).*1 (_keys_weight kb)) as (w' & Hrun & Hw').
  { apply NoDup_fst_map_to_list. }
  { intros k ([k0 v] & -> & Hkv%elem_of_map_to_list)%list_elem_of_fmap. cbn.
    destruct Hsym as [_ Hcl].
    destruct (Hcl key r k0 Hr ltac:(by rewrite Hkv)) as (rk & Hrk & Heq).
    exists rk. split; [done|]. by rewrite Heq, Hkv. }
  rewrite Hrun.
  assert (Hall : w' = delete key <$> _keys_weight kb).
  { apply map_eq. intros k. rewrite Hw', lookup_fmap.
    destruct (decide (k ∈ (map_to_list r).*1)) as [Hk|Hk]; [done|].
    destruct (_keys_weight kb !! k) as [rk|] eqn:Hrk; [|done]. cbn. f_equal.
    symmetry. apply delete_id.
    rewrite (sym_table_twin _ k key rk r Hsym Hrk Hr).
    apply eq_None_not_Some. intros [v Hv]. apply Hk.
    apply list_elem_of_fmap. exists (k, v). split; [done|]. by apply elem_of_map_to_list. }
  subst w'. rewrite lookup_fmap, Hr. cbn.
  destruct (dict_del_keys key (_keys kb) Hnd) as [Hnd' Hkeys'].
  split; [done|]. split; [|by apply sym_table_remove].
  intros k. cbn. rewrite Hkeys', <- Hdom.
  destruct (decide (key = k)) as [<-|Hne].
  - rewrite lookup_delete_eq. split; [by intros [? ?]|by intros [_ ?]].
  - rewrite lookup_delete_ne, lookup_fmap by done.
    rewrite fmap_is_Some. naive_solver.
Qed.

Lemma update_key_ok key coordinate kb :
  kb_ok kb → kb_ok (update_key weight_of key coordinate kb).2.
Proof.
  intros Hok. unfold update_key. destruct (negb (has_key key kb)); [done|].
  pose proof (del_key_ok key kb Hok) as Hdel.
  destruct (del_key key kb) as [[[]|e] kb']; [|done].
  by apply add_key_ok.
Qed.

Lemma run_ops_ok ops : ∀ kb, kb_ok kb → kb_ok (run_ops weight_of ops kb).
Proof.
  unfold run_ops. induction ops as [|o ops IH]; intros kb Hok; [done|].
  cbn [fold_left]. apply IH. destruct o; cbn [run_op].
  - by apply add_key_ok.
  - by apply update_key_ok.
  - by apply del_key_ok.
Qed.

(** Under the invariant the resolved cost is symmetric and 0 on a key. *)
Lemma get_weight_ok (kb : @Keyboard coord) k1 k2 default_weight :
  kb_ok kb →
  get_weight k1 k2 default_weight kb = get_weight k2 k1 default_weight kb
  ∧ (has_key k1 kb = true → get_weight k1 k1 default_weight kb = Ok 0).
Proof.
  intros (Hnd & Hdom & Hsym). unfold get_weight. split.
  - destruct (has_key k1 kb) eqn:H1, (has_key k2 kb) eqn:H2.
    + apply has_key_true, Hdom in H1 as [r1 Hr1].
      apply has_key_true, Hdom in H2 as [r2 Hr2].
      rewrite Hr1, Hr2. by rewrite (sym_table_twin _ k1 k2 r1 r2 Hsym Hr1 Hr2).
    + apply has_key_true, Hdom in H1 as [r1 Hr1]. rewrite Hr1.
      destruct (r1 !! k2) as [v|] eqn:Hv; [|done].
      destruct Hsym as [_ Hcl].
      destruct (Hcl k1 r1 k2 Hr1 ltac:(by rewrite Hv)) as (r2 & Hr2 & _).
      assert (has_key k2 kb = true) by (apply has_key_true, Hdom; eauto). congruence.
    + apply has_key_true, Hdom in H2 as [r2 Hr2]. rewrite Hr2.
      destruct (r2 !! k1) as [v|] eqn:Hv; [|done].
      destruct Hsym as [_ Hcl].
      destruct (Hcl k2 r2 k1 Hr2 ltac:(by rewrite Hv)) as (r1 & Hr1 & _).
      assert (has_key k1 kb = true) by (apply has_key_true, Hdom; eauto). congruence.
    + done.
  - intros H1. rewrite H1. apply has_key_true, Hdom in H1 as [r1 Hr1]. rewrite Hr1.
    destruct Hsym as [Hd _]. by rewrite (Hd k1 r1 Hr1).
Qed.

End KeyboardOps.

(** C8: build a keyboard from any mapping of keys to coordinates and run
    any sequence of [add_key], [update_key] and [del_key] on it, going on
    after the calls that raise; then [get_weight] gives the same result
    for (k1, k2) and for (k2, k1) under one default weight, and 0 for a
    key of the keyboard with itself. *)
Theorem get_weight_symmetric {coord : Type} (weight_of : coord -> coord -> Z)
    (keys : list (str * coord)) (ops : list op) (k1 k2 : str) (default_weight : Z) :
  NoDup keys.*1 →
  get_weight k1 k2 default_weight (run_ops weight_of ops (init weight_of keys))
  = get_weight k2 k1 default_weight (run_ops weight_of ops (init weight_of keys))
  ∧ (has_key k1 (run_ops weight_of ops (init weight_of keys)) = true →
     get_weight k1 k1 default_weight (run_ops weight_of ops (init weight_of keys))
     = Ok 0).
Proof.
  intros Hnd. apply get_weight_ok, run_ops_ok, init_ok, Hnd.
Qed.

Lemma get_weight_symmetric_witness :
  get_weight "s" "d" 2
    (run_ops line_weight [AddKey "d" 2; DelKey "a"; UpdateKey "s" 3]
             (init line_weight [("a", 0); ("s", 1); ("l", 8)]))
  = get_weight "d" "s" 2
      (run_ops line_weight [AddKey "d" 2; DelKey "a"; UpdateKey "s" 3]
               (init line_weight [("a", 0); ("s", 1); ("l", 8)])).
Proof.
  apply (get_weight_symmetric line_weight [("a", 0); ("s", 1); ("l", 8)]
           [AddKey "d" 2; DelKey "a"; UpdateKey "s" 3] "s" "d" 2).
  simpl. by apply (bool_decide_unpack _); vm_compute.
Defined.

(** * Further properties of the package *)

(** ** More on [levenshtein_distance] *)

Section DistanceMore.

Lemma edit_rec_zero a : ∀ b, edit_rec a b = 0 → a = b.
Proof.
  induction a as [|x a IHa]; intros b.
  - rewrite edit_rec_nil_l. destruct b; cbn [length]; [done|lia].
  - induction b as [|y b IHb].
    + rewrite edit_rec_nil_r. cbn [length]. lia.
    + rewrite edit_rec_cons.
      pose proof (edit_rec_nonneg a b). pose proof (edit_rec_nonneg a (y :: b)).
      pose proof (edit_rec_nonneg (x :: a) b).
      unfold min3. destruct (Ascii.eqb_spec x y) as [->|Hne]; [|lia].
      intros Hz. f_equal. apply IHa. lia.
Qed.

Lemma edit_rec_upper a : ∀ b,
  edit_rec a b <= Z.max (Z.of_nat (length a)) (Z.of_nat (length b)).
Proof.
  induction a as [|x a IHa]; intros b.
  - rewrite edit_rec_nil_l. lia.
  - destruct b as [|y b].
    + rewrite edit_rec_nil_r. lia.
    + rewrite edit_rec_cons. specialize (IHa b). cbn [length]. unfold min3.
      destruct (Ascii.eqb x y); lia.
Qed.

Lemma edit_rec_lower a b :
  Z.abs (Z.of_nat (length a) - Z.of_nat (length b)) <= edit_rec a b.
Proof.
  pose proof (edit_rec_triangle a b []) as H1.
  pose proof (edit_rec_triangle b a []) as H2.
  rewrite !edit_rec_nil_r in *. rewrite (edit_rec_sym b a) in H2. lia.
Qed.

Lemma rev_chars_inj s1 s2 : rev (chars s1) = rev (chars s2) → s1 = s2.
Proof.
  intros H. apply chars_inj. rewrite <- (rev_involutive (chars s1)), H.
  apply rev_involutive.
Qed.

(** A bounded run that stays under its bound took no early exit. *)
Lemma rows_loop_under_bound fw m s2 s1 :
  ∀ current,
    rows_loop fw (Some m) s1 s2 current < m →
    rows_loop fw (Some m) s1 s2 current = rows_loop fw None s1 s2 current.
Proof.
  induction s1 as [|[idx_s1 val_s1] s1 IH]; intros current; cbn [rows_loop]; [done|].
  destruct (next_row fw idx_s1 val_s1 s2 current) as [cur mn]. cbn [early_exit].
  destruct (Z.leb_spec m mn); [lia|]. apply IH.
Qed.

End DistanceMore.

Lemma levenshtein_self_zero s :
  levenshtein_distance s s None None true = 0.
Proof. rewrite levenshtein_edit_rec. apply edit_rec_refl. Qed.

(** X1: the default distance is 0 exactly between equal strings. *)
Theorem levenshtein_distance_zero_iff s1 s2 :
  levenshtein_distance s1 s2 None None true = 0 ↔ s1 = s2.
Proof.
  rewrite levenshtein_edit_rec. split.
  - intros H. by apply rev_chars_inj, edit_rec_zero.
  - intros ->. apply edit_rec_refl.
Qed.

(** X2: the default distance lies between the difference of the two
    lengths and the greater length. *)
Theorem levenshtein_distance_length_bounds s1 s2 :
  Z.abs (len s1 - len s2) <= levenshtein_distance s1 s2 None None true
  ∧ levenshtein_distance s1 s2 None None true <= Z.max (len s1) (len s2).
Proof.
  rewrite levenshtein_edit_rec, !len_chars.
  rewrite <- (length_rev (chars s1)), <- (length_rev (chars s2)).
  split; [apply edit_rec_lower|apply edit_rec_upper].
Qed.

(** X3: the default distance obeys the triangle inequality. *)
Theorem levenshtein_distance_triangle s1 s2 s3 :
  levenshtein_distance s1 s3 None None true
  <= levenshtein_distance s1 s2 None None true
     + levenshtein_distance s2 s3 None None true.
Proof. rewrite !levenshtein_edit_rec. apply edit_rec_triangle. Qed.

(** X4: whatever the weights, a bounded call that returns less than its
    bound returns what the unbounded call returns. *)
Theorem levenshtein_bounded_under_bound s1 s2 m fw case_sensitive :
  levenshtein_distance s1 s2 (Some m) fw case_sensitive < m →
  levenshtein_distance s1 s2 (Some m) fw case_sensitive
  = levenshtein_distance s1 s2 None fw case_sensitive.
Proof.
  unfold levenshtein_distance.
  destruct (String.eqb _ "" || String.eqb _ ""); [done|].
  destruct (String.eqb _ _); [done|].
  destruct (operands _ _) as [a b]. apply rows_loop_under_bound.
Qed.

Lemma levenshtein_bounded_under_bound_witness :
  levenshtein_distance "book" "cook" (Some 3) (Some skewed_weight) true
  = levenshtein_distance "book" "cook" None (Some skewed_weight) true.
Proof.
  apply (levenshtein_bounded_under_bound "book" "cook" 3 (Some skewed_weight) true).
  vm_compute. reflexivity.
Defined.

(** X5: between strings of different lengths the result does not depend
    on the order of the two arguments, whatever the weights and the bound:
    both calls run the loop on the longer string first. *)
Theorem levenshtein_distance_swap_lengths s1 s2 max_distance fw :
  len s1 ≠ len s2 →
  levenshtein_distance s1 s2 max_distance fw true
  = levenshtein_distance s2 s1 max_distance fw true.
Proof.
  intros Hlen. unfold levenshtein_distance.
  rewrite (orb_comm (String.eqb s2 "")), (Z.max_comm (len s2)), (String.eqb_sym s2 s1).
  destruct (String.eqb s1 "" || String.eqb s2 ""); [done|].
  destruct (String.eqb s1 s2); [done|].
  unfold operands.
  destruct (Z.ltb_spec (len s1) (len s2)), (Z.ltb_spec (len s2) (len s1));
    try done; lia.
Qed.

Lemma levenshtein_distance_swap_lengths_witness :
  levenshtein_distance "as" "a" (Some 1) (Some skewed_weight) true
  = levenshtein_distance "a" "as" (Some 1) (Some skewed_weight) true.
Proof.
  apply (levenshtein_distance_swap_lengths "as" "a" (Some 1) (Some skewed_weight)).
  vm_compute. discriminate.
Defined.

(** ** Links of a node *)

Section LinkFacts.

Context {V : Type}.

Lemma dict_get_set_eq (k : Z) (v : V) (d : list (Z * V)) :
  dict_get k (dict_set k v d) = Some v.
Proof.
  induction d as [|[k' v'] d IH]; cbn [dict_set dict_get].
  - by rewrite decide_True.
  - destruct (decide (k = k')) as [->|Hne]; cbn [dict_get].
    + by rewrite decide_True.
    + by rewrite decide_False.
Qed.

Lemma dict_get_set_ne (k k' : Z) (v : V) (d : list (Z * V)) :
  k' ≠ k → dict_get k' (dict_set k v d) = dict_get k' d.
Proof.
  intros Hne. induction d as [|[k0 v0] d IH]; cbn [dict_set dict_get].
  - by rewrite decide_False.
  - destruct (decide (k = k0)) as [->|Hk]; cbn [dict_get].
    + by rewrite !decide_False.
    + by rewrite IH.
Qed.

Lemma dict_del_snoc (k : Z) (v : V) (d : list (Z * V)) :
  dict_get k d = None → dict_del k (d ++ [(k, v)]) = d.
Proof.
  induction d as [|[k0 v0] d IH]; cbn [dict_get dict_del app].
  - by rewrite decide_True.
  - destruct (decide (k = k0)); [done|]. intros H. by rewrite IH.
Qed.

End LinkFacts.

(** X6: a link added under a free distance is the one [get_link] returns
    for that distance, the other distances answer as before, and value and
    state stay; under a taken distance [add_link] raises [KeyError]. *)
Theorem add_link_get_link distance node n :
  if has_distance distance n
  then add_link distance node n = Raise KeyError
  else ∃ n', add_link distance node n = Ok n'
             ∧ get_link distance n' = Ok node
             ∧ has_distance distance n' = true
             ∧ (∀ d, d ≠ distance → get_link d n' = get_link d n)
             ∧ get_value n' = get_value n ∧ is_active n' = is_active n.
Proof.
  unfold add_link. destruct (has_distance distance n) eqn:Hhas; [done|].
  eexists. split; [reflexivity|]. unfold get_link, has_distance. cbn [_links].
  rewrite dict_get_set_eq. split; [done|]. split.
  - apply dict_has_true. rewrite dict_get_set_eq. eauto.
  - split; [|done]. intros d Hd. by rewrite dict_get_set_ne.
Qed.

(** X7: removing a link that was just added under a free distance gives
    the node back; removing under a distance without a link raises
    [KeyError]. *)
Theorem del_link_add_link distance node n :
  if has_distance distance n
  then add_link distance node n = Raise KeyError
  else del_link distance n = Raise KeyError
       ∧ ∃ n', add_link distance node n = Ok n' ∧ del_link distance n' = Ok n.
Proof.
  unfold add_link, del_link. destruct (has_distance distance n) eqn:Hhas; [done|].
  split; [done|]. eexists. split; [reflexivity|].
  unfold has_distance in *. cbn [_links _value _is_active].
  apply dict_has_false in Hhas. rewrite (dict_set_new _ _ _ Hhas).
  assert (dict_has distance (_links n ++ [(distance, node)]) = true) as ->.
  { apply dict_has_true. rewrite <- (dict_set_new _ _ _ Hhas), dict_get_set_eq. eauto. }
  rewrite (dict_del_snoc _ _ _ Hhas). by destruct n.
Qed.

(** ** More on the tree *)

Section TreeMore.

(** The descent changes the links of one node and nothing else of any
    node. *)
Lemma add_node_loop_flags s :
  ∀ fuel x t t',
    add_node_loop fuel s x t = Some (Ok tt, t') →
    ∀ u n, _bk_nodes_dict t !! u = Some n →
      ∃ n', _bk_nodes_dict t' !! u = Some n'
            ∧ is_active n' = is_active n ∧ get_value n' = get_value n.
Proof.
  induction fuel as [|fuel IH]; intros x t t'; cbn [add_node_loop]; [done|].
  destruct (_bk_nodes_dict t !! x) as [nx|] eqn:Hx; [|done].
  destruct (_bk_nodes_dict t !! s) as [ns|]; [|done].
  destruct (negb _).
  - unfold add_link. destruct (has_distance _ nx); [done|].
    intros [= <-] u n Hu. cbn [with_nodes _bk_nodes_dict].
    destruct (decide (x = u)) as [<-|Hne].
    + rewrite lookup_insert_eq. eexists. split; [done|].
      rewrite Hx in Hu. by injection Hu as <-.
    + rewrite lookup_insert_ne by done. eauto.
  - destruct (get_link _ nx) as [child|]; [|done]. apply IH.
Qed.

(** The range query on a well-shaped tree. *)
Lemma get_neighbors_tree_ok t string max_distance fuel :
  tree_ok t → (get_num_nodes t <= fuel)%nat →
  ∃ neighbors,
    get_neighbors fuel string max_distance t = Some neighbors
    ∧ (∀ d, neighbors !! d ≠ Some ∅)
    ∧ (∀ d u, u ∈ bucket d neighbors ↔ hit t string max_distance d u).
Proof.
  intros (kids & Hr & Hrepr & Hbk & Hnd & Hdom & Hfw) Hfuel.
  unfold get_num_nodes in Hfuel. rewrite (size_values _ _ Hnd Hdom) in Hfuel.
  destruct (get_neighbors_loop_spec t string max_distance Hfw fuel
              [(_root t, kids)] ∅) as (res & Hres & Hiff & Hne).
  { by constructor. }
  { cbn. by rewrite app_nil_r. }
  exists res. split; [exact Hres|]. split.
  - apply Hne. intros d. by rewrite lookup_empty.
  - intros d u. rewrite Hiff. unfold bucket at 1.
    rewrite lookup_empty. cbn [default stack_values flat_map fst snd].
    rewrite app_nil_r, Hdom. unfold hit. split.
    + intros [?%elem_of_empty|[_ ?]]; done.
    + intros (n & ? & ?). right. split; [eauto|]. by exists n.
Qed.

Lemma get_nodes_elem t u : u ∈ get_nodes t ↔ is_Some (_bk_nodes_dict t !! u).
Proof. unfold get_nodes. apply elem_of_dom. Qed.

End TreeMore.

(** X8: inserting a string that is not indexed into a built tree, with
    fuel for every node, succeeds; the string is then indexed and active,
    the tree has one node more, and every node that was there keeps its
    value and its state. *)
Theorem add_node_new t string fuel :
  built t → has_node string t = false → (get_num_nodes t <= fuel)%nat →
  ∃ t', add_node fuel string t = Some (Ok tt, t')
        ∧ built t'
        ∧ get_num_nodes t' = S (get_num_nodes t)
        ∧ get_nodes t' = {[ string ]} ∪ get_nodes t
        ∧ (∃ n, _bk_nodes_dict t' !! string = Some n
                ∧ is_active n = true ∧ get_value n = string)
        ∧ (∀ u n, _bk_nodes_dict t !! u = Some n →
                  ∃ n', _bk_nodes_dict t' !! u = Some n'
                        ∧ is_active n' = is_active n ∧ get_value n' = get_value n).
Proof.
  intros Hb Hnew Hfuel.
  destruct (add_node_ok t string fuel (built_tree_ok t Hb) Hnew Hfuel)
    as (t' & Hadd & _ & Hkeys).
  exists t'. split; [done|]. split; [by eapply built_add_node|].
  split; [by eapply get_num_nodes_add|]. split.
  { apply set_eq. intros u.
    rewrite elem_of_union, elem_of_singleton, !get_nodes_elem. apply Hkeys. }
  unfold add_node in Hadd. rewrite Hnew in Hadd.
  pose proof (add_node_loop_flags _ _ _ _ _ Hadd) as Hflags.
  cbn [with_nodes _bk_nodes_dict] in Hflags. split.
  - destruct (Hflags string (Node.new string true)) as (n & Hn & Ha & Hv).
    { by rewrite lookup_insert_eq. }
    by exists n.
  - intros u n Hu. apply Hflags. rewrite lookup_insert_ne; [done|].
    intros <-. apply has_node_false in Hnew. congruence.
Qed.

Lemma add_node_new_witness :
  ∃ t', add_node 1 "books" book_seed = Some (Ok tt, t')
        ∧ built t'
        ∧ get_num_nodes t' = S (get_num_nodes book_seed)
        ∧ get_nodes t' = {[ "books" ]} ∪ get_nodes book_seed
        ∧ (∃ n, _bk_nodes_dict t' !! "books" = Some n
                ∧ is_active n = true ∧ get_value n = "books")
        ∧ (∀ u n, _bk_nodes_dict book_seed !! u = Some n →
                  ∃ n', _bk_nodes_dict t' !! u = Some n'
                        ∧ is_active n' = is_active n ∧ get_value n' = get_value n).
Proof.
  apply (add_node_new book_seed "books" 1).
  - apply built_seed.
  - vm_compute. reflexivity.
  - vm_compute. lia.
Defined.

(** X9: from a non-empty set of distinct strings, with fuel for every
    string, [bk_tree_builder_from_set] returns a built tree that has as many
    nodes as the set has strings and holds exactly those strings. *)
Theorem bk_tree_builder_from_set_values fuel strings_set :
  NoDup strings_set → strings_set ≠ [] → (length strings_set <= fuel)%nat →
  ∃ t, bk_tree_builder_from_set fuel strings_set None = Some (Ok t)
       ∧ built t
       ∧ get_num_nodes t = length strings_set
       ∧ get_nodes t = list_to_set strings_set.
Proof.
  intros Hnd Hne Hfuel.
  destruct (bk_tree_builder_from_set_total fuel strings_set Hnd Hne Hfuel)
    as (t & Hrun & Hb & Hkeys).
  exists t. split; [done|]. split; [done|]. split.
  - unfold get_num_nodes. apply size_values; [done|]. intros u. by rewrite Hkeys.
  - apply set_eq. intros u. by rewrite get_nodes_elem, elem_of_list_to_set, Hkeys.
Qed.

Lemma bk_tree_builder_from_set_values_witness :
  ∃ t, bk_tree_builder_from_set 3 ["book"; "cake"; "cook"] None = Some (Ok t)
       ∧ built t
       ∧ get_num_nodes t = length ["book"; "cake"; "cook"]
       ∧ get_nodes t = list_to_set ["book"; "cake"; "cook"].
Proof.
  apply (bk_tree_builder_from_set_values 3 ["book"; "cake"; "cook"]).
  - by apply (bool_decide_unpack _); vm_compute.
  - discriminate.
  - simpl. lia.
Defined.

(** X10: deactivating an indexed value of a built tree keeps it indexed
    and takes it out of every bucket of every later range query; for the
    other values the buckets are what they were. *)
Theorem deactivate_hides t string query max_distance fuel :
  built t → has_node string t = true → (get_num_nodes t <= fuel)%nat →
  ∃ t' before after,
    deactivate string t = (Ok tt, t')
    ∧ has_node string t' = true
    ∧ get_neighbors fuel query max_distance t = Some before
    ∧ get_neighbors fuel query max_distance t' = Some after
    ∧ ∀ d u, u ∈ default ∅ (after !! d) ↔
             u ≠ string ∧ u ∈ default ∅ (before !! d).
Proof.
  intros Hb Hs Hfuel. apply has_node_true in Hs as [n Hn].
  pose (t' := with_nodes t (<[string := set_inactive n]> (_bk_nodes_dict t))).
  assert (Hdeact : deactivate string t = (Ok tt, t')).
  { unfold deactivate, getitem. by rewrite Hn. }
  assert (Hb' : built t') by (by eapply built_deactivate).
  assert (Hsize : get_num_nodes t' = get_num_nodes t).
  { unfold get_num_nodes, t'. cbn [with_nodes _bk_nodes_dict].
    rewrite <- !size_dom. f_equal. apply dom_insert_lookup_L. eauto. }
  destruct (get_neighbors_tree_ok t query max_distance fuel
              (built_tree_ok t Hb) Hfuel) as (before & Hq & _ & Hbefore).
  destruct (get_neighbors_tree_ok t' query max_distance fuel
              (built_tree_ok t' Hb') ltac:(lia)) as (after & Hq' & _ & Hafter).
  exists t', before, after. split; [done|]. split.
  { apply has_node_true. unfold t'. cbn [with_nodes _bk_nodes_dict].
    rewrite lookup_insert_eq. eauto. }
  split; [done|]. split; [done|].
  intros d u. fold (bucket d after) (bucket d before).
  rewrite Hafter, Hbefore. unfold hit, t'. cbn [with_nodes _bk_nodes_dict].
  destruct (decide (string = u)) as [<-|Hne].
  - rewrite lookup_insert_eq. split.
    + intros (n' & [= <-] & Hact & _). done.
    + by intros [? _].
  - rewrite lookup_insert_ne by done. naive_solver.
Qed.

Lemma deactivate_hides_witness :
  ∃ t' before after,
    deactivate "book" book_seed = (Ok tt, t')
    ∧ has_node "book" t' = true
    ∧ get_neighbors 1 "cook" 1 book_seed = Some before
    ∧ get_neighbors 1 "cook" 1 t' = Some after
    ∧ ∀ d u, u ∈ default ∅ (after !! d) ↔
             u ≠ "book" ∧ u ∈ default ∅ (before !! d).
Proof.
  apply (deactivate_hides book_seed "book" "cook" 1 1).
  - apply built_seed.
  - vm_compute. reflexivity.
  - vm_compute. lia.
Defined.

(** X11: reactivating a value that was active and has just been
    deactivated gives the tree back. *)
Theorem activate_deactivate t string n :
  _bk_nodes_dict t !! string = Some n → is_active n = true →
  ∃ t', deactivate string t = (Ok tt, t') ∧ activate string t' = (Ok tt, t).
Proof.
  intros Hn Hact. eexists. unfold deactivate, getitem. rewrite Hn.
  split; [reflexivity|]. unfold activate, getitem.
  cbn [with_nodes _bk_nodes_dict _root _fn_weights]. rewrite lookup_insert_eq.
  f_equal. rewrite insert_insert_eq.
  assert (set_active (set_inactive n) = n) as ->.
  { destruct n as [v a l]. cbn in Hact. by subst a. }
  rewrite (insert_id _ _ _ Hn). by destruct t.
Qed.

Lemma activate_deactivate_witness :
  ∃ t', deactivate "book" book_seed = (Ok tt, t')
        ∧ activate "book" t' = (Ok tt, book_seed).
Proof.
  apply (activate_deactivate book_seed "book" (Node.new "book" true)).
  - vm_compute. reflexivity.
  - reflexivity.
Defined.

(** X12: on a built tree, for a string that is not both indexed and
    active and with fuel for every node, [suggest_correction] returns
    [None] exactly when no active value lies within the radius, and else an
    active value at the least distance from the string among all active
    values, the lexicographically least of those at that distance. *)
Theorem suggest_correction_nearest t string fuel :
  built t → (get_num_nodes t <= fuel)%nat →
  (∀ n, _bk_nodes_dict t !! string = Some n → is_active n = false) →
  ∃ r, suggest_correction fuel string t = Some (Ok r)
       ∧ match r with
         | None =>
             ∀ u n, _bk_nodes_dict t !! u = Some n → is_active n = true →
                    Z.max (py_round_div (len string) 5 + 1) 2
                    < levenshtein_distance string u None None true
         | Some best =>
             (∃ n, _bk_nodes_dict t !! best = Some n ∧ is_active n = true)
             ∧ levenshtein_distance string best None None true
               <= Z.max (py_round_div (len string) 5 + 1) 2
             ∧ ∀ u n, _bk_nodes_dict t !! u = Some n → is_active n = true →
                 levenshtein_distance string best None None true
                 <= levenshtein_distance string u None None true
                 ∧ (levenshtein_distance string u None None true
                    = levenshtein_distance string best None None true →
                    String.leb best u = true)
         end.
Proof.
  intros Hb Hfuel Hinactive.
  change (Z.max (py_round_div (len string) 5 + 1) 2) with (radius string).
  unfold suggest_correction.
  assert (has_node string t
          && match getitem string t with Ok n => is_active n | Raise _ => false end
          = false) as ->.
  { unfold has_node, getitem.
    destruct (_bk_nodes_dict t !! string) as [n|] eqn:Hn.
    - rewrite (Hinactive n eq_refl). apply andb_false_r.
    - rewrite bool_decide_eq_false_2; [done|]. by intros [? ?]. }
  destruct (get_neighbors_tree_ok t string (radius string) fuel
              (built_tree_ok t Hb) Hfuel) as (sug & -> & Hne & Hhit).
  assert (Hin : ∀ u n, _bk_nodes_dict t !! u = Some n → is_active n = true →
            levenshtein_distance string u None None true <= radius string →
            u ∈ bucket (levenshtein_distance string u None None true) sug).
  { intros u n Hu Ha Hle. apply Hhit. by exists n. }
  destruct (decide (sug = ∅)) as [->|Hsug].
  - rewrite bool_decide_eq_true_2 by done. exists None. split; [done|].
    intros u n Hu Ha.
    destruct (Z.lt_ge_cases (radius string)
                (levenshtein_distance string u None None true)) as [?|Hle]; [done|].
    specialize (Hin u n Hu Ha Hle). unfold bucket in Hin.
    rewrite lookup_empty in Hin. by apply elem_of_empty in Hin.
  - rewrite bool_decide_eq_false_2 by done.
    pose proof (min_key_spec sug) as Hmin.
    destruct (min_key sug) as [d|]; [|done].
    destruct Hmin as [[bk Hbk] Hleast]. rewrite Hbk.
    pose proof (sort_head (elements bk)) as Hsort.
    destruct (sort (elements bk)) as [|best rest].
    { apply elements_empty_inv, leibniz_equiv in Hsort. subst bk. by destruct (Hne d). }
    destruct Hsort as [Hbest%elem_of_elements Hlex].
    assert (Hbest' : best ∈ bucket d sug) by (unfold bucket; by rewrite Hbk).
    apply Hhit in Hbest' as (n & Hn & Ha & Hd & Hle).
    exists (Some best). split; [done|]. split; [eauto|]. split; [lia|].
    intros u nu Hu Hau. rewrite Hd.
    destruct (Z.lt_ge_cases (radius string)
                (levenshtein_distance string u None None true)) as [?|Hle'].
    { split; lia. }
    specialize (Hin u nu Hu Hau Hle'). split.
    + apply Hleast. unfold bucket in Hin.
      destruct (sug !! levenshtein_distance string u None None true); [eauto|].
      by apply elem_of_empty in Hin.
    + intros Heq. rewrite Heq in Hin. unfold bucket in Hin. rewrite Hbk in Hin.
      by apply Hlex, elem_of_elements.
Qed.

Lemma suggest_correction_nearest_witness :
  ∃ r, suggest_correction 1 "cook" book_seed = Some (Ok r)
       ∧ match r with
         | None =>
             ∀ u n, _bk_nodes_dict book_seed !! u = Some n → is_active n = true →
                    Z.max (py_round_div (len "cook") 5 + 1) 2
                    < levenshtein_distance "cook" u None None true
         | Some best =>
             (∃ n, _bk_nodes_dict book_seed !! best = Some n ∧ is_active n = true)
             ∧ levenshtein_distance "cook" best None None true
               <= Z.max (py_round_div (len "cook") 5 + 1) 2
             ∧ ∀ u n, _bk_nodes_dict book_seed !! u = Some n → is_active n = true →
                 levenshtein_distance "cook" best None None true
                 <= levenshtein_distance "cook" u None None true
                 ∧ (levenshtein_distance "cook" u None None true
                    = levenshtein_distance "cook" best None None true →
                    String.leb best u = true)
         end.
Proof.
  apply (suggest_correction_nearest book_seed "cook" 1).
  - apply built_seed.
  - vm_compute. lia.
  - intros n. vm_compute. discriminate.
Defined.

(** ** The persisted form and back *)

Section RoundTrip.

Lemma store_closed_insert_new store s :
  store !! s = None → store_closed store →
  store_closed (<[s := Node.new s true]> store).
Proof.
  intros Hs Hc k n. destruct (decide (s = k)) as [<-|Hne].
  - rewrite lookup_insert_eq. intros [= <-]. split; [done|]. split; [constructor|].
    by intros d c ?%elem_of_nil.
  - rewrite lookup_insert_ne by done. intros Hk.
    destruct (Hc k n Hk) as (Hv & Hnd & Hl). split; [done|]. split; [done|].
    intros d c Hdc. rewrite lookup_insert_is_Some'. right. by eapply Hl.
Qed.

Lemma add_node_loop_closed s :
  ∀ fuel x t t',
    store_closed (_bk_nodes_dict t) → is_Some (_bk_nodes_dict t !! s) →
    add_node_loop fuel s x t = Some (Ok tt, t') →
    store_closed (_bk_nodes_dict t').
Proof.
  induction fuel as [|fuel IH]; intros x t t' Hc Hs; cbn [add_node_loop]; [done|].
  destruct (_bk_nodes_dict t !! x) as [nx|] eqn:Hx; [|done].
  destruct (_bk_nodes_dict t !! s) as [ns|] eqn:Hns; [|done].
  destruct (has_distance _ nx) eqn:Hhas; cbn [negb].
  - destruct (get_link _ nx) as [child|]; [|done]. by apply IH.
  - unfold add_link. rewrite Hhas. intros [= <-].
    cbn [with_nodes _bk_nodes_dict]. apply dict_has_false in Hhas.
    destruct (Hc x nx Hx) as (Hv & Hnd & Hl).
    intros k n. destruct (decide (x = k)) as [<-|Hne].
    + rewrite lookup_insert_eq. intros [= <-].
      unfold get_value, get_links in *. cbn [_value _links].
      rewrite (dict_set_new _ _ _ Hhas). split; [done|]. split.
      * rewrite fmap_app. apply NoDup_app. split; [done|]. split; [|apply NoDup_singleton].
        intros d Hd ->%list_elem_of_singleton. cbn [fst] in Hd.
        apply dict_get_is_Some in Hd. rewrite Hhas in Hd. by destruct Hd.
      * intros d c [Hdc|[= -> ->]%list_elem_of_singleton]%elem_of_app;
          rewrite lookup_insert_is_Some'; right; [by eapply Hl|eauto].
    + rewrite lookup_insert_ne by done. intros Hk.
      destruct (Hc k n Hk) as (Hv' & Hnd' & Hl'). split; [done|]. split; [done|].
      intros d c Hdc. rewrite lookup_insert_is_Some'. right. by eapply Hl'.
Qed.

Lemma store_closed_flag store s n n' :
  store !! s = Some n → get_value n' = get_value n → get_links n' = get_links n →
  store_closed store → store_closed (<[s := n']> store).
Proof.
  intros Hs Hv Hl Hc k m. destruct (decide (s = k)) as [<-|Hne].
  - rewrite lookup_insert_eq. intros [= <-]. rewrite Hv, Hl.
    destruct (Hc s n Hs) as (? & ? & Hch). split; [done|]. split; [done|].
    intros d c Hdc. rewrite lookup_insert_is_Some'. right. by eapply Hch.
  - rewrite lookup_insert_ne by done. intros Hk.
    destruct (Hc k m Hk) as (? & ? & Hch). split; [done|]. split; [done|].
    intros d c Hdc. rewrite lookup_insert_is_Some'. right. by eapply Hch.
Qed.

Lemma built_store_closed t : built t → store_closed (_bk_nodes_dict t).
Proof.
  induction 1 as [seed|t fuel s t' _ IH Hadd|t s t' _ IH Hact|t s t' _ IH Hact].
  - cbn [_bk_nodes_dict].
    apply (store_closed_insert_new ∅ seed); [apply lookup_empty|].
    intros k n. by rewrite lookup_empty.
  - unfold add_node in Hadd. destruct (has_node s t) eqn:Hhas; [done|].
    apply has_node_false in Hhas.
    eapply add_node_loop_closed; [| |exact Hadd]; cbn [with_nodes _bk_nodes_dict].
    + by apply store_closed_insert_new.
    + rewrite lookup_insert_eq. eauto.
  - unfold activate, getitem in Hact.
    destruct (_bk_nodes_dict t !! s) as [n|] eqn:Hn; [|done].
    injection Hact as <-. by eapply store_closed_flag.
  - unfold deactivate, getitem in Hact.
    destruct (_bk_nodes_dict t !! s) as [n|] eqn:Hn; [|done].
    injection Hact as <-. by eapply store_closed_flag.
Qed.

Lemma mapM_all {A B} (f : A → option B) (g : A → B) (l : list A) :
  (∀ x, x ∈ l → f x = Some (g x)) → mapM f l = Some (g <$> l).
Proof.
  induction l as [|x l IH]; intros H; [done|]. cbn.
  rewrite (H x) by (by left). cbn. rewrite IH; [done|].
  intros y Hy. apply H. by right.
Qed.

(** In a closed store [to_dict] writes the record of every node. *)
Lemma node_to_dict_closed store k n :
  store_closed store → store !! k = Some n →
  node_to_dict store n = Some (record_of n).
Proof.
  intros Hc Hk. destruct (Hc k n Hk) as (_ & _ & Hl). unfold node_to_dict.
  rewrite (mapM_all _ id).
  - by rewrite list_fmap_id.
  - intros [d c] Hdc. destruct (Hl d c Hdc) as [child Hchild]. cbn [fst snd].
    rewrite Hchild. destruct (Hc c child Hchild) as (-> & _). done.
Qed.

(** The comprehension over records with distinct values. *)
Lemma nodes_of_lookup records :
  NoDup (value <$> records) →
  ∀ rd, rd ∈ records →
    nodes_of records !! value rd = Some (Node.new (value rd) (is_active_flag rd)).
Proof.
  unfold nodes_of.
  assert (H : ∀ d : gmap str Node, NoDup (value <$> records) →
    (∀ rd, rd ∈ records →
       fold_left (fun d nd => <[value nd := Node.new (value nd) (is_active_flag nd)]> d)
                 records d !! value rd
       = Some (Node.new (value rd) (is_active_flag rd)))
    ∧ (∀ k, k ∉ value <$> records →
       fold_left (fun d nd => <[value nd := Node.new (value nd) (is_active_flag nd)]> d)
                 records d !! k = d !! k)).
  { induction records as [|rd0 records IH]; intros d Hnd; cbn [fold_left fmap list_fmap].
    - split; [by intros ? ?%elem_of_nil|done].
    - apply NoDup_cons in Hnd as [Hrd0 Hnd].
      destruct (IH (<[value rd0 := Node.new (value rd0) (is_active_flag rd0)]> d) Hnd)
        as [IH1 IH2].
      split.
      + intros rd [->|Hrd]%elem_of_cons; [|by apply IH1].
        rewrite IH2 by done. by rewrite lookup_insert_eq.
      + intros k [Hk0 Hk]%not_elem_of_cons. rewrite IH2 by done.
        by rewrite lookup_insert_ne. }
  intros Hnd. by apply H.
Qed.

(** Linking a record whose node has no link yet restores the node. *)
Lemma link_all_restore k a ls :
  ∀ pre (d : gmap str Node),
    d !! k = Some (mkNode k a pre) → NoDup (pre ++ ls).*1 →
    (∀ dist c, (dist, c) ∈ ls → is_Some (d !! c)) →
    link_all k ls d = Ok (<[k := mkNode k a (pre ++ ls)]> d).
Proof.
  induction ls as [|[dist c] ls IH]; intros pre d Hk Hnd Hch; cbn [link_all].
  - rewrite app_nil_r. by rewrite insert_id.
  - rewrite bool_decide_eq_true_2 by (eapply Hch; by left). cbn [negb].
    rewrite Hk. unfold add_link, has_distance. cbn [_links _value _is_active].
    assert (dict_get dist pre = None) as Hfree.
    { apply eq_None_not_Some. rewrite dict_get_is_Some. intros Hin.
      rewrite fmap_app in Hnd. apply NoDup_app in Hnd as (_ & Hdisj & _).
      apply (Hdisj dist Hin). cbn. by left. }
    rewrite (proj2 (dict_has_false _ _) Hfree), (dict_set_new _ _ _ Hfree).
    rewrite (IH (pre ++ [(dist, c)])).
    + by rewrite insert_insert_eq, <- app_assoc.
    + by rewrite lookup_insert_eq.
    + by rewrite <- app_assoc.
    + intros dist' c' Hin. rewrite lookup_insert_is_Some'. right.
      eapply Hch. by right.
Qed.

(** Linking the records of a closed store, each once, restores the store. *)
Lemma link_nodes_restore store records :
  store_closed store →
  ∀ d : gmap str Node,
    NoDup (value <$> records) →
    (∀ rd, rd ∈ records → ∃ n, store !! value rd = Some n ∧ rd = record_of n) →
    (∀ k, d !! k = if decide (k ∈ value <$> records)
                   then (λ n, Node.new (get_value n) (is_active n)) <$> store !! k
                   else store !! k) →
    link_nodes records d = Ok store.
Proof.
  intros Hc. induction records as [|rd records IH]; intros d Hnd Hrec Hd;
    cbn [link_nodes].
  - f_equal. apply map_eq. intros k. rewrite Hd. by rewrite decide_False by apply not_elem_of_nil.
  - cbn [fmap list_fmap] in *. apply NoDup_cons in Hnd as [Hrd Hnd].
    destruct (Hrec rd ltac:(by left)) as (n & Hn & Hrdn).
    destruct (Hc _ n Hn) as (Hv & Hndl & Hch).
    assert (Hdk : d !! value rd = Some (mkNode (value rd) (is_active n) [])).
    { rewrite Hd, decide_True by (by left). rewrite Hn. cbn. unfold Node.new.
      by rewrite Hv. }
    assert (Hdom : ∀ c, is_Some (store !! c) → is_Some (d !! c)).
    { intros c Hcs. rewrite Hd. destruct (decide _); [|done]. by apply fmap_is_Some. }
    rewrite (link_all_restore (value rd) (is_active n) (links rd) [] d Hdk).
    + apply IH; [done| |].
      * intros rd' Hrd'. apply Hrec. by right.
      * intros k. destruct (decide (value rd = k)) as [<-|Hne].
        -- rewrite lookup_insert_eq, decide_False by done. rewrite Hn.
           rewrite Hrdn. cbn [links record_of app]. destruct n as [v a l].
           cbn in *. by subst v.
        -- rewrite lookup_insert_ne by done. rewrite Hd.
           destruct (decide (k ∈ value <$> records)) as [Hin|Hnin].
           ++ by rewrite decide_True by (by right).
           ++ rewrite decide_False; [done|]. rewrite not_elem_of_cons. done.
    + rewrite Hrdn. cbn [links record_of app]. done.
    + intros dist c Hdc. apply Hdom. rewrite Hrdn in Hdc. by eapply Hch.
Qed.

End RoundTrip.

(** X13: [to_dict] of a built tree gives a structure from which
    [bk_tree_builder_from_dict] rebuilds the same tree, in whatever order the
    node records are listed. *)
Theorem from_dict_to_dict t :
  built t →
  ∃ td, to_dict t = Some td
        ∧ root td = _root t
        ∧ ∀ records, records ≡ₚ nodes td →
            bk_tree_builder_from_dict (mkTreeDict (root td) records) (_fn_weights t)
            = Ok t.
Proof.
  intros Hb. pose proof (built_store_closed t Hb) as Hc.
  destruct (built_tree_ok t Hb) as (kids & (r & Hr & Hrv & _) & _).
  unfold to_dict. rewrite Hr.
  rewrite (mapM_all _ record_of).
  2: { intros n ([k n'] & -> & Hkn%elem_of_map_to_list)%list_elem_of_fmap.
       by eapply node_to_dict_closed. }
  eexists. split; [reflexivity|]. cbn [root nodes]. split; [done|].
  intros records Hperm. unfold bk_tree_builder_from_dict. cbn [root nodes].
  assert (Hmem : ∀ rd, rd ∈ records ↔
            ∃ k n, _bk_nodes_dict t !! k = Some n ∧ rd = record_of n).
  { intros rd. rewrite Hperm, list_elem_of_fmap. split.
    - intros (n & -> & ([k n'] & -> & Hkn%elem_of_map_to_list)%list_elem_of_fmap).
      by exists k, n'.
    - intros (k & n & Hkn & ->). exists n. split; [done|].
      apply list_elem_of_fmap. exists (k, n). split; [done|].
      by apply elem_of_map_to_list. }
  assert (Hvals : value <$> records ≡ₚ (map_to_list (_bk_nodes_dict t)).*1).
  { rewrite Hperm.
    assert (∀ l : list (str * Node),
              (∀ kn, kn ∈ l → value (record_of kn.2) = kn.1) →
              value <$> (record_of <$> l.*2) = l.*1) as Heq.
    { induction l as [|kn l IH]; intros Hl; [done|]. cbn [fmap list_fmap].
      f_equal; [apply Hl; by left|]. apply IH. intros ? ?. apply Hl. by right. }
    rewrite Heq; [done|].
    intros [k n] Hkn%elem_of_map_to_list. cbn. by destruct (Hc k n Hkn). }
  assert (Hnd : NoDup (value <$> records)).
  { rewrite Hvals. apply NoDup_fst_map_to_list. }
  assert (Hrec : ∀ rd, rd ∈ records →
            ∃ n, _bk_nodes_dict t !! value rd = Some n ∧ rd = record_of n).
  { intros rd (k & n & Hkn & ->)%Hmem. exists n. split; [|done].
    cbn. by destruct (Hc k n Hkn) as (-> & _). }
  assert (Hinit : ∀ k, nodes_of records !! k
            = if decide (k ∈ value <$> records)
              then (λ n, Node.new (get_value n) (is_active n)) <$> _bk_nodes_dict t !! k
              else _bk_nodes_dict t !! k).
  { intros k. destruct (decide (k ∈ value <$> records)) as [Hin|Hnin].
    - apply list_elem_of_fmap in Hin as (rd & -> & Hrd).
      rewrite (nodes_of_lookup records Hnd rd Hrd).
      destruct (Hrec rd Hrd) as (n & -> & ->). done.
    - assert (nodes_of records !! k = None) as ->.
      { apply eq_None_not_Some. by rewrite nodes_of_keys. }
      symmetry. apply eq_None_not_Some. intros [n Hn]. apply Hnin.
      rewrite Hvals. apply list_elem_of_fmap. exists (k, n). split; [done|].
      by apply elem_of_map_to_list. }
  assert (is_Some (nodes_of records !! get_value r)) as [r0 ->].
  { rewrite Hrv, Hinit. destruct (decide _); rewrite Hr; cbn; eauto. }
  rewrite (link_nodes_restore (_bk_nodes_dict t) records Hc _ Hnd Hrec Hinit).
  rewrite Hrv. by destruct t.
Qed.

Lemma from_dict_to_dict_witness :
  ∃ td, to_dict book_seed = Some td
        ∧ root td = _root book_seed
        ∧ ∀ records, records ≡ₚ nodes td →
            bk_tree_builder_from_dict (mkTreeDict (root td) records)
                                      (_fn_weights book_seed)
            = Ok book_seed.
Proof. apply (from_dict_to_dict book_seed). apply built_seed. Defined.

Section FromDictMore.

Lemma nodes_of_no_links records k n :
  nodes_of records !! k = Some n → get_links n = [].
Proof.
  unfold nodes_of.
  assert (H : ∀ d : gmap str Node,
            (∀ k n, d !! k = Some n → get_links n = []) →
            ∀ k n, fold_left
                     (fun d nd => <[value nd := Node.new (value nd) (is_active_flag nd)]> d)
                     records d !! k = Some n → get_links n = []).
  { induction records as [|rd records IH]; intros d Hd; cbn [fold_left]; [done|].
    apply IH. intros k0 n0. destruct (decide (value rd = k0)) as [<-|Hne].
    - rewrite lookup_insert_eq. by intros [= <-].
    - rewrite lookup_insert_ne by done. apply Hd. }
  apply H. intros k0 n0. by rewrite lookup_empty.
Qed.

Lemma link_all_inside node_value ls :
  ∀ d d', links_inside d → link_all node_value ls d = Ok d' → links_inside d'.
Proof.
  induction ls as [|[dist c] ls IH]; intros d d' Hin; cbn [link_all].
  - by intros [= <-].
  - destruct (bool_decide (is_Some (d !! c))) eqn:Hc; cbn [negb]; [|done].
    apply bool_decide_eq_true in Hc.
    destruct (d !! node_value) as [n|] eqn:Hn; [|done].
    unfold add_link. destruct (has_distance dist n) eqn:Hhas; [done|].
    apply IH. apply dict_has_false in Hhas.
    intros k m dist' c'. destruct (decide (node_value = k)) as [<-|Hne].
    + rewrite lookup_insert_eq. intros [= <-]. unfold get_links. cbn [_links].
      rewrite (dict_set_new _ _ _ Hhas), lookup_insert_is_Some'.
      intros [Hold|[= -> ->]%list_elem_of_singleton]%elem_of_app; right; [|done].
      by eapply Hin.
    + rewrite lookup_insert_ne by done. intros Hk Hl.
      rewrite lookup_insert_is_Some'. right. by eapply Hin.
Qed.

Lemma link_nodes_inside records :
  ∀ d d', links_inside d → link_nodes records d = Ok d' →
    links_inside d' ∧ ∀ u, is_Some (d' !! u) ↔ is_Some (d !! u).
Proof.
  induction records as [|rd records IH]; intros d d' Hin; cbn [link_nodes].
  - by intros [= <-].
  - destruct (link_all (value rd) (links rd) d) as [d0|] eqn:Hall; [|done].
    intros Hrest. destruct (IH d0 d' (link_all_inside _ _ _ _ Hin Hall) Hrest)
      as [H1 H2].
    split; [done|]. intros u. rewrite H2.
    by destruct (link_all_ok _ _ _ _ Hall) as [-> _].
Qed.

End FromDictMore.

(** X14: a tree that [bk_tree_builder_from_dict] returns has the root of
    the structure among its nodes, holds exactly the values of the records,
    and has no link to a value it does not hold. *)
Theorem bk_tree_builder_from_dict_closed bk_tree_dict fn_weights t :
  bk_tree_builder_from_dict bk_tree_dict fn_weights = Ok t →
  _root t = root bk_tree_dict
  ∧ has_node (root bk_tree_dict) t = true
  ∧ (∀ u, has_node u t = true ↔ u ∈ value <$> nodes bk_tree_dict)
  ∧ (∀ k n distance child,
       _bk_nodes_dict t !! k = Some n → (distance, child) ∈ get_links n →
       has_node child t = true).
Proof.
  unfold bk_tree_builder_from_dict.
  destruct (nodes_of (nodes bk_tree_dict) !! root bk_tree_dict) as [r|] eqn:Hr; [|done].
  destruct (link_nodes (nodes bk_tree_dict) (nodes_of (nodes bk_tree_dict)))
    as [d|] eqn:Hlink; [|done].
  intros [= <-]. cbn [_root _bk_nodes_dict].
  assert (Hstart : links_inside (nodes_of (nodes bk_tree_dict))).
  { intros k n dist c Hk Hl. rewrite (nodes_of_no_links _ _ _ Hk) in Hl.
    by apply elem_of_nil in Hl. }
  destruct (link_nodes_inside _ _ _ Hstart Hlink) as [Hin Hkeys].
  split; [done|]. split; [|split].
  - apply has_node_true. cbn [_bk_nodes_dict]. rewrite Hkeys, Hr. eauto.
  - intros u. rewrite has_node_true. cbn [_bk_nodes_dict].
    by rewrite Hkeys, nodes_of_keys.
  - intros k n dist c Hk Hl. apply has_node_true. cbn [_bk_nodes_dict].
    by eapply Hin.
Qed.

Lemma bk_tree_builder_from_dict_closed_witness :
  _root book_books_tree = root book_books_dict
  ∧ has_node (root book_books_dict) book_books_tree = true
  ∧ (∀ u, has_node u book_books_tree = true ↔ u ∈ value <$> nodes book_books_dict)
  ∧ (∀ k n distance child,
       _bk_nodes_dict book_books_tree !! k = Some n →
       (distance, child) ∈ get_links n →
       has_node child book_books_tree = true).
Proof.
  apply (bk_tree_builder_from_dict_closed book_books_dict None book_books_tree).
  vm_compute. reflexivity.
Defined.

(** ** More on the keyboard *)

Section KeyboardMore.

Context {coord : Type} (weight_of : coord -> coord -> Z).


Lemma has_key_false key (kb : @Keyboard coord) :
  has_key key kb = false ↔ key ∉ (_keys kb).*1.
Proof. apply dict_has_not_elem. Qed.

(** What [get_weight] answers, read off the table. *)
Lemma get_weight_entry (kb : @Keyboard coord) k1 k2 default_weight :
  kb_ok kb →
  get_weight k1 k2 default_weight kb
  = Ok (default default_weight (entry (_keys_weight kb) k1 k2)).
Proof.
  intros (_ & Hdom & _). unfold get_weight, entry.
  destruct (has_key k1 kb) eqn:Hk.
  - apply has_key_true, Hdom in Hk as [r ->]. done.
  - apply has_key_false in Hk. rewrite <- Hdom in Hk.
    apply eq_None_not_Some in Hk. by rewrite Hk.
Qed.

(** [del_key] on a key of the keyboard: what it returns. *)
Lemma del_key_run key (kb : @Keyboard coord) :
  kb_ok kb → has_key key kb = true →
  del_key key kb
  = (Ok tt, mkKeyboard (dict_del key (_keys kb))
                       (delete key (delete key <$> _keys_weight kb))).
Proof.
  intros (Hnd & Hdom & Hsym) Hhas. unfold del_key. rewrite Hhas. cbn [negb].
  apply has_key_true in Hhas.
  destruct (proj2 (Hdom key) Hhas) as [r Hr]. rewrite Hr.
  destruct (del_loop key (map_to_list r).*1 (_keys_weight kb)) as (w' & Hrun & Hw').
  { apply NoDup_fst_map_to_list. }
  { intros k ([k0 v] & -> & Hkv%elem_of_map_to_list)%list_elem_of_fmap. cbn.
    destruct Hsym as [_ Hcl].
    destruct (Hcl key r k0 Hr ltac:(by rewrite Hkv)) as (rk & Hrk & Heq).
    exists rk. split; [done|]. by rewrite Heq, Hkv. }
  rewrite Hrun.
  assert (Hall : w' = delete key <$> _keys_weight kb).
  { apply map_eq. intros k. rewrite Hw', lookup_fmap.
    destruct (decide (k ∈ (map_to_list r).*1)) as [Hk|Hk]; [done|].
    destruct (_keys_weight kb !! k) as [rk|] eqn:Hrk; [|done]. cbn. f_equal.
    symmetry. apply delete_id.
    rewrite (sym_table_twin _ k key rk r Hsym Hrk Hr).
    apply eq_None_not_Some. intros [v Hv]. apply Hk.
    apply list_elem_of_fmap. exists (k, v). split; [done|]. by apply elem_of_map_to_list. }
  subst w'. by rewrite lookup_fmap, Hr.
Qed.

Lemma entry_removed (w : gmap str (gmap str Z)) key a b :
  entry (delete key (delete key <$> w)) a b
  = if decide (a = key ∨ b = key) then None else entry w a b.
Proof.
  unfold entry. destruct (decide (a = key)) as [->|Ha].
  - rewrite lookup_delete_eq. by rewrite decide_True by (by left).
  - rewrite lookup_delete_ne, lookup_fmap by done.
    destruct (w !! a) as [r|]; cbn.
    + destruct (decide (b = key)) as [->|Hb].
      * rewrite lookup_delete_eq. by rewrite decide_True by (by right).
      * rewrite lookup_delete_ne by done. rewrite decide_False; [done|]. naive_solver.
    + by destruct (decide _).
Qed.

End KeyboardMore.

(** X15: on a keyboard reached from [Keyboard(keys)] by the mutators,
    [del_key] of a present key succeeds; afterwards the key is gone, a pair
    with it resolves to the default weight, and every other pair resolves as
    before.  [del_key] of an absent key raises [ValueError] and changes
    nothing. *)
Theorem del_key_effect {coord : Type} (weight_of : coord -> coord -> Z)
    (keys : list (str * coord)) (ops : list op) (key : str) :
  NoDup keys.*1 →
  if has_key key (run_ops weight_of ops (init weight_of keys))
  then ∃ kb',
         del_key key (run_ops weight_of ops (init weight_of keys)) = (Ok tt, kb')
         ∧ has_key key kb' = false
         ∧ (∀ k, k ≠ key →
                 has_key k kb'
                 = has_key k (run_ops weight_of ops (init weight_of keys)))
         ∧ ∀ k1 k2 default_weight,
             get_weight k1 k2 default_weight kb'
             = if decide (k1 = key ∨ k2 = key) then Ok default_weight
               else get_weight k1 k2 default_weight
                      (run_ops weight_of ops (init weight_of keys))
  else del_key key (run_ops weight_of ops (init weight_of keys))
       = (Raise ValueError, run_ops weight_of ops (init weight_of keys)).
Proof.
  intros Hnd.
  pose proof (run_ops_ok weight_of ops _ (init_ok weight_of keys Hnd)) as Hok.
  set (kb := run_ops weight_of ops (init weight_of keys)) in *.
  destruct (has_key key kb) eqn:Hhas.
  - pose proof (del_key_ok key kb Hok) as Hok'.
    rewrite (del_key_run key kb Hok Hhas) in *. cbn [snd] in Hok'.
    eexists. split; [reflexivity|].
    destruct Hok as (Hnd0 & Hdom0 & Hsym0).
    destruct (dict_del_keys key (_keys kb) Hnd0) as [_ Hkeys].
    split; [|split].
    + apply has_key_false. cbn [_keys]. rewrite Hkeys. naive_solver.
    + intros k Hk. apply eq_true_iff_eq. rewrite !has_key_true. cbn [_keys].
      rewrite Hkeys. naive_solver.
    + intros k1 k2 d. rewrite (get_weight_entry _ k1 k2 d Hok'). cbn [_keys_weight].
      rewrite entry_removed. destruct (decide (k1 = key ∨ k2 = key)); [done|].
      by rewrite (get_weight_entry kb k1 k2 d (conj Hnd0 (conj Hdom0 Hsym0))).
  - unfold del_key. by rewrite Hhas.
Qed.

Lemma del_key_effect_witness :
  ∃ kb',
    del_key "s" (run_ops line_weight [AddKey "d" 2]
                         (init line_weight [("a", 0); ("s", 1); ("l", 8)]))
    = (Ok tt, kb')
    ∧ has_key "s" kb' = false
    ∧ (∀ k, k ≠ "s" →
            has_key k kb'
            = has_key k (run_ops line_weight [AddKey "d" 2]
                                 (init line_weight [("a", 0); ("s", 1); ("l", 8)])))
    ∧ ∀ k1 k2 default_weight,
        get_weight k1 k2 default_weight kb'
        = if decide (k1 = "s" ∨ k2 = "s") then Ok default_weight
          else get_weight k1 k2 default_weight
                 (run_ops line_weight [AddKey "d" 2]
                          (init line_weight [("a", 0); ("s", 1); ("l", 8)])).
Proof.
  apply (del_key_effect line_weight [("a", 0); ("s", 1); ("l", 8)] [AddKey "d" 2] "s").
  simpl. by apply (bool_decide_unpack _); vm_compute.
Defined.

Section AddKey.

Context {coord : Type} (weight_of : coord -> coord -> Z).


(** How the entries change when two rows take each other's key. *)
Lemma entry_link (w w1 : gmap str (gmap str Z)) k key wt r rkey :
  k ≠ key → w !! k = Some r → w !! key = Some rkey →
  w1 !! k = Some (<[key := wt]> r) → w1 !! key = Some (<[k := wt]> rkey) →
  (∀ k0, k0 ≠ k → k0 ≠ key → w1 !! k0 = w !! k0) →
  ∀ a b, entry w1 a b
         = if decide ((a = k ∧ b = key) ∨ (a = key ∧ b = k)) then Some wt
           else entry w a b.
Proof.
  intros Hne Hk Hkey Hk1 Hkey1 Hother a b. unfold entry.
  destruct (decide (a = k)) as [->|Hak]; [|destruct (decide (a = key)) as [->|Hakey]].
  - rewrite Hk1, Hk. destruct (decide (b = key)) as [->|Hb].
    + rewrite lookup_insert_eq. by rewrite decide_True by (by left).
    + rewrite lookup_insert_ne by done. rewrite decide_False; [done|]. naive_solver.
  - rewrite Hkey1, Hkey. destruct (decide (b = k)) as [->|Hb].
    + rewrite lookup_insert_eq. by rewrite decide_True by (by right).
    + rewrite lookup_insert_ne by done. rewrite decide_False; [done|]. naive_solver.
  - rewrite Hother by done. rewrite decide_False; [done|]. naive_solver.
Qed.



End AddKey.







Section InitEntries.

Context {coord : Type} (weight_of : coord -> coord -> Z).

Lemma entry_setdefault (w : gmap str (gmap str Z)) k a b :
  a ≠ b → entry (setdefault_row k w) a b = entry w a b.
Proof.
  intros Hab. unfold entry. destruct (decide (a = k)) as [->|Hne].
  - rewrite setdefault_row_eq. destruct (w !! k); [done|]. cbn.
    by apply lookup_singleton_ne.
  - by rewrite setdefault_row_ne.
Qed.

(** One pass of the inner loop of [__init__] that writes a weight. *)
Lemma init_step_entry (w : gmap str (gmap str Z)) key_i key_ii wt :
  key_i ≠ key_ii → is_Some (w !! key_i) →
  is_Some (alter (λ r, <[key_i := wt]> r) key_ii
             (setdefault_row key_ii (alter (λ r, <[key_ii := wt]> r) key_i w))
           !! key_i)
  ∧ ∀ a b, a ≠ b →
      entry (alter (λ r, <[key_i := wt]> r) key_ii
               (setdefault_row key_ii (alter (λ r, <[key_ii := wt]> r) key_i w))) a b
      = if decide ((a = key_i ∧ b = key_ii) ∨ (a = key_ii ∧ b = key_i))
        then Some wt else entry w a b.
Proof.
  intros Hne [ra Hra].
  set (w' := alter _ key_ii _).
  assert (Ha' : w' !! key_i = Some (<[key_ii := wt]> ra)).
  { unfold w'. rewrite lookup_alter_ne by done. rewrite setdefault_row_ne by done.
    by rewrite lookup_alter_eq, Hra. }
  assert (Hb' : w' !! key_ii
                = Some (<[key_i := wt]> (default {[key_ii := 0]} (w !! key_ii)))).
  { unfold w'. rewrite lookup_alter_eq, setdefault_row_eq.
    by rewrite lookup_alter_ne by done. }
  assert (Hother : ∀ k, k ≠ key_i → k ≠ key_ii → w' !! k = setdefault_row key_ii w !! k).
  { intros k H1 H2. unfold w'. rewrite lookup_alter_ne by done.
    rewrite !setdefault_row_ne by done. by rewrite lookup_alter_ne. }
  split; [rewrite Ha'; eauto|]. intros a b Hab.
  rewrite (entry_link (setdefault_row key_ii w) w' key_i key_ii wt ra _ Hne
             ltac:(by rewrite setdefault_row_ne) (setdefault_row_eq w key_ii)
             Ha' Hb' Hother).
  destruct (decide _); [done|]. by apply entry_setdefault.
Qed.

Lemma init_pairs_cons key_i coordinate_i key_ii coordinate_ii later
    (w : gmap str (gmap str Z)) :
  init_pairs weight_of key_i coordinate_i ((key_ii, coordinate_ii) :: later) w
  = init_pairs weight_of key_i coordinate_i later
      (if 1 <? weight_of coordinate_i coordinate_ii then w
       else alter (λ r, <[key_i := weight_of coordinate_i coordinate_ii]> r) key_ii
              (setdefault_row key_ii
                 (alter (λ r, <[key_ii := weight_of coordinate_i coordinate_ii]> r)
                        key_i w))).
Proof. reflexivity. Qed.

(** The inner loop of [__init__]: the entries it leaves. *)
Lemma init_pairs_entries key_i coordinate_i later :
  ∀ w : gmap str (gmap str Z),
    key_i ∉ later.*1 → NoDup later.*1 → is_Some (w !! key_i) →
    (∀ k, k ∈ later.*1 → entry w key_i k = None ∧ entry w k key_i = None) →
    (∀ kj cj, (kj, cj) ∈ later →
       entry (init_pairs weight_of key_i coordinate_i later w) key_i kj
       = pair_entry weight_of coordinate_i cj
       ∧ entry (init_pairs weight_of key_i coordinate_i later w) kj key_i
         = pair_entry weight_of coordinate_i cj)
    ∧ (∀ a b, a ≠ b → ¬ (a = key_i ∧ b ∈ later.*1) → ¬ (b = key_i ∧ a ∈ later.*1) →
         entry (init_pairs weight_of key_i coordinate_i later w) a b = entry w a b).
Proof.
  induction later as [|[key_ii coordinate_ii] later IH];
    intros w Hnotin Hnd Hrow Hnone; cbn [fmap list_fmap fst] in *.
  { split; [by intros ? ? ?%elem_of_nil|done]. }
  apply not_elem_of_cons in Hnotin as [Hne Hnotin].
  apply NoDup_cons in Hnd as [Hfresh Hnd].
  rewrite init_pairs_cons.
  assert (Hstep : ∀ w1 : gmap str (gmap str Z),
            is_Some (w1 !! key_i) →
            (∀ a b, a ≠ b →
               entry w1 a b
               = if decide ((a = key_i ∧ b = key_ii) ∨ (a = key_ii ∧ b = key_i))
                 then pair_entry weight_of coordinate_i coordinate_ii
                 else entry w a b) →
            (∀ kj cj, (kj, cj) ∈ (key_ii, coordinate_ii) :: later →
               entry (init_pairs weight_of key_i coordinate_i later w1) key_i kj
               = pair_entry weight_of coordinate_i cj
               ∧ entry (init_pairs weight_of key_i coordinate_i later w1) kj key_i
                 = pair_entry weight_of coordinate_i cj)
            ∧ (∀ a b, a ≠ b → ¬ (a = key_i ∧ b ∈ key_ii :: later.*1) →
                 ¬ (b = key_i ∧ a ∈ key_ii :: later.*1) →
                 entry (init_pairs weight_of key_i coordinate_i later w1) a b
                 = entry w a b)).
  { intros w1 Hrow1 Hent1.
    destruct (IH w1 Hnotin Hnd Hrow1) as [Hnew Hframe].
    - intros k Hk. assert (k ≠ key_ii) by (by intros ->).
      assert (k ≠ key_i) by (by intros ->).
      rewrite !Hent1 by done. rewrite !decide_False by naive_solver.
      apply Hnone. by right.
    - split.
      + intros kj cj [[= -> ->]|Hin]%elem_of_cons; [|by apply Hnew].
        rewrite !Hframe, !Hent1 by naive_solver.
        by rewrite !decide_True by naive_solver.
      + intros a b Hab Ha Hb. rewrite Hframe, Hent1.
        * rewrite decide_False; [done|]. intros [[-> ->]|[-> ->]].
          -- apply Ha. split; [done|by left].
          -- apply Hb. split; [done|by left].
        * done.
        * done.
        * intros [? ?]. apply Ha. split; [done|by right].
        * intros [? ?]. apply Hb. split; [done|by right]. }
  destruct (1 <? weight_of coordinate_i coordinate_ii) eqn:Hfar.
  - apply Hstep; [done|]. intros a b Hab.
    destruct (decide _) as [[[-> ->]|[-> ->]]|]; [| |done];
      unfold pair_entry; rewrite Hfar; by apply Hnone; left.
  - destruct (init_step_entry w key_i key_ii (weight_of coordinate_i coordinate_ii)
                Hne Hrow) as [Hrow1 Hent1].
    apply Hstep; [done|]. intros a b Hab. rewrite Hent1 by done.
    unfold pair_entry. by rewrite Hfar.
Qed.

(** The outer loop of [__init__]: the entries it leaves. *)
Lemma init_rows_entries keys :
  ∀ w : gmap str (gmap str Z),
    NoDup keys.*1 →
    (∀ a b, a ∈ keys.*1 → b ∈ keys.*1 → a ≠ b → entry w a b = None) →
    (∀ i j ki ci kj cj,
       (i < j)%nat → keys !! i = Some (ki, ci) → keys !! j = Some (kj, cj) →
       entry (init_rows weight_of keys w) ki kj = pair_entry weight_of ci cj
       ∧ entry (init_rows weight_of keys w) kj ki = pair_entry weight_of ci cj)
    ∧ (∀ a b, a ≠ b → ¬ (a ∈ keys.*1 ∧ b ∈ keys.*1) →
         entry (init_rows weight_of keys w) a b = entry w a b).
Proof.
  induction keys as [|[key_i coordinate_i] later IH]; intros w Hnd Hnone;
    cbn [init_rows fmap list_fmap fst] in *.
  { split; [by intros [] ? ? ? ? ? ?|done]. }
  apply NoDup_cons in Hnd as [Hnotin Hnd].
  destruct (init_pairs_entries key_i coordinate_i later (setdefault_row key_i w)
              Hnotin Hnd) as [Hnew Hframe].
  { rewrite setdefault_row_eq. eauto. }
  { intros k Hk. assert (k ≠ key_i) by (by intros ->).
    rewrite !entry_setdefault by done.
    split; apply Hnone; (done || by left || by right). }
  destruct (IH (init_pairs weight_of key_i coordinate_i later
                  (setdefault_row key_i w)) Hnd) as [IHnew IHframe].
  { intros a b Ha Hb Hab.
    rewrite Hframe by (try done; intros [-> ?]; done).
    rewrite entry_setdefault by done. apply Hnone; (done || by right). }
  split.
  - intros i j ki ci kj cj Hij Hi Hj. destruct j as [|j]; [lia|]. cbn in Hj.
    destruct i as [|i].
    + injection Hi as <- <-.
      assert ((kj, cj) ∈ later) as Hin by (by eapply list_elem_of_lookup_2).
      assert (kj ∈ later.*1) as Hkj.
      { apply list_elem_of_fmap. by exists (kj, cj). }
      assert (key_i ≠ kj) by (by intros ->).
      rewrite !IHframe by (try done; intros [? ?]; done). by apply Hnew.
    + cbn in Hi. apply (IHnew i j); [lia|done|done].
  - intros a b Hab Hnot. rewrite IHframe.
    + rewrite Hframe; [by apply entry_setdefault|done| |].
      * intros [-> Hb]. apply Hnot. split; [by left|by right].
      * intros [-> Ha]. apply Hnot. split; [by right|by left].
    + done.
    + intros [Ha Hb]. apply Hnot. split; by right.
Qed.

End InitEntries.

(** X19: in [Keyboard(keys)] the pair of two different keys resolves, in
    either order, to the weight of their coordinates (the earlier key's
    first) when that is at most 1, and to the default weight otherwise. *)
Theorem init_weights {coord : Type} (weight_of : coord -> coord -> Z)
    (keys : list (str * coord)) (i j : nat) (ki kj : str) (ci cj : coord)
    (default_weight : Z) :
  NoDup keys.*1 → (i < j)%nat →
  keys !! i = Some (ki, ci) → keys !! j = Some (kj, cj) →
  get_weight ki kj default_weight (init weight_of keys)
  = Ok (if 1 <? weight_of ci cj then default_weight else weight_of ci cj)
  ∧ get_weight kj ki default_weight (init weight_of keys)
    = Ok (if 1 <? weight_of ci cj then default_weight else weight_of ci cj).
Proof.
  intros Hnd Hij Hi Hj.
  pose proof (init_ok weight_of keys Hnd) as Hok.
  rewrite !(get_weight_entry _ _ _ _ Hok). cbn [init _keys_weight].
  destruct (init_rows_entries weight_of keys ∅ Hnd) as [Hnew _].
  { intros a b _ _ _. unfold entry. by rewrite lookup_empty. }
  destruct (Hnew i j ki ci kj cj Hij Hi Hj) as [-> ->].
  unfold pair_entry. by destruct (1 <? weight_of ci cj).
Qed.

Lemma init_weights_witness :
  get_weight "a" "s" 2 (init line_weight [("a", 0); ("s", 1); ("l", 8)])
  = Ok (if 1 <? line_weight 0 1 then 2 else line_weight 0 1)
  ∧ get_weight "s" "a" 2 (init line_weight [("a", 0); ("s", 1); ("l", 8)])
    = Ok (if 1 <? line_weight 0 1 then 2 else line_weight 0 1).
Proof.
  apply (init_weights line_weight [("a", 0); ("s", 1); ("l", 8)] 0 1 "a" "s" 0 1 2).
  - simpl. by apply (bool_decide_unpack _); vm_compute.
  - lia.
  - reflexivity.
  - reflexivity.
Defined.

(** ** Queries, insertions and weights together *)

(** X20: on a built tree, with fuel for every node, the keys of the
    mapping a range query returns lie between 0 and [max_distance], so a
    negative [max_distance] gives the empty mapping; and an indexed, active
    query string is found under distance 0 when [max_distance] is not
    negative. *)
Theorem get_neighbors_keys t string max_distance fuel :
  built t → (get_num_nodes t <= fuel)%nat →
  ∃ neighbors,
    get_neighbors fuel string max_distance t = Some neighbors
    ∧ (∀ d, is_Some (neighbors !! d) → 0 <= d <= max_distance)
    ∧ (max_distance < 0 → neighbors = ∅)
    ∧ (0 <= max_distance →
       (∃ n, _bk_nodes_dict t !! string = Some n ∧ is_active n = true) →
       string ∈ default ∅ (neighbors !! 0)).
Proof.
  intros Hb Hfuel.
  destruct (get_neighbors_tree_ok t string max_distance fuel
              (built_tree_ok t Hb) Hfuel) as (res & Hres & Hne & Hhit).
  assert (Hkeys : ∀ d, is_Some (res !! d) → 0 <= d <= max_distance).
  { intros d [bk Hbk].
    destruct (set_choose_or_empty bk) as [[u Hu]|Hempty].
    - assert (u ∈ bucket d res) as Hin by (unfold bucket; by rewrite Hbk).
      apply Hhit in Hin as (n & _ & _ & <- & Hle).
      split; [apply levenshtein_nonneg|done].
    - apply leibniz_equiv in Hempty. subst bk. by destruct (Hne d). }
  exists res. split; [done|]. split; [done|]. split.
  - intros Hneg. apply map_empty. intros d. apply eq_None_not_Some.
    intros Hd%Hkeys. lia.
  - intros Hk (n & Hn & Ha). fold (bucket 0 res). apply Hhit. exists n.
    split; [done|]. split; [done|]. split; [|done].
    by apply levenshtein_self_zero.
Qed.

Lemma get_neighbors_keys_witness :
  ∃ neighbors,
    get_neighbors 1 "book" 0 book_seed = Some neighbors
    ∧ (∀ d, is_Some (neighbors !! d) → 0 <= d <= 0)
    ∧ (0 < 0 → neighbors = ∅)
    ∧ (0 <= 0 →
       (∃ n, _bk_nodes_dict book_seed !! "book" = Some n ∧ is_active n = true) →
       "book" ∈ default ∅ (neighbors !! 0)).
Proof.
  apply (get_neighbors_keys book_seed "book" 0 1).
  - apply built_seed.
  - vm_compute. lia.
Defined.

(** X21: inserting a new string into a built tree adds that string, under
    its distance from the query when that is within [max_distance], to the
    buckets of a range query, and changes nothing else in them. *)
Theorem get_neighbors_add_node t string query max_distance fuel :
  built t → has_node string t = false → (S (get_num_nodes t) <= fuel)%nat →
  ∃ t' before after,
    add_node fuel string t = Some (Ok tt, t')
    ∧ get_neighbors fuel query max_distance t = Some before
    ∧ get_neighbors fuel query max_distance t' = Some after
    ∧ ∀ d u, u ∈ default ∅ (after !! d) ↔
             u ∈ default ∅ (before !! d)
             ∨ (u = string
                ∧ levenshtein_distance query string None None true = d
                ∧ d <= max_distance).
Proof.
  intros Hb Hnew Hfuel.
  destruct (add_node_ok t string fuel (built_tree_ok t Hb) Hnew ltac:(lia))
    as (t' & Hadd & Hok' & Hkeys).
  pose proof (get_num_nodes_add t t' string Hnew Hkeys) as Hsize.
  destruct (get_neighbors_tree_ok t query max_distance fuel
              (built_tree_ok t Hb) ltac:(lia)) as (before & Hq & _ & Hbefore).
  destruct (get_neighbors_tree_ok t' query max_distance fuel Hok' ltac:(lia))
    as (after & Hq' & _ & Hafter).
  exists t', before, after. split; [done|]. split; [done|]. split; [done|].
  assert (Hrun := Hadd). unfold add_node in Hrun. rewrite Hnew in Hrun.
  pose proof (add_node_loop_flags _ _ _ _ _ Hrun) as Hflags.
  cbn [with_nodes _bk_nodes_dict] in Hflags.
  intros d u. fold (bucket d after) (bucket d before).
  rewrite Hafter, Hbefore. unfold hit.
  destruct (decide (u = string)) as [->|Hne].
  - destruct (Hflags string (Node.new string true)) as (n' & Hn' & Ha' & _).
    { by rewrite lookup_insert_eq. }
    apply has_node_false in Hnew. split.
    + intros (n & Hn & Ha & Hd & Hle). right. done.
    + intros [(n & Hn & _)|(_ & Hd & Hle)]; [congruence|]. exists n'. done.
  - split.
    + intros (n' & Hn' & Ha' & Hd & Hle). left.
      destruct (proj1 (Hkeys u) ltac:(eauto)) as [?|[n Hn]]; [done|].
      destruct (Hflags u n) as (n'' & Hn'' & Ha'' & _).
      { by rewrite lookup_insert_ne. }
      exists n. split; [done|]. split; [|done]. congruence.
    + intros [(n & Hn & Ha & Hd & Hle)|[? _]]; [|done].
      destruct (Hflags u n) as (n' & Hn' & Ha' & _).
      { by rewrite lookup_insert_ne. }
      exists n'. split; [done|]. split; [congruence|done].
Qed.

Lemma get_neighbors_add_node_witness :
  ∃ t' before after,
    add_node 2 "cook" book_seed = Some (Ok tt, t')
    ∧ get_neighbors 2 "book" 1 book_seed = Some before
    ∧ get_neighbors 2 "book" 1 t' = Some after
    ∧ ∀ d u, u ∈ default ∅ (after !! d) ↔
             u ∈ default ∅ (before !! d)
             ∨ (u = "cook"
                ∧ levenshtein_distance "book" "cook" None None true = d
                ∧ d <= 1).
Proof.
  apply (get_neighbors_add_node book_seed "cook" "book" 1 2).
  - apply built_seed.
  - vm_compute. reflexivity.
  - vm_compute. lia.
Defined.

Section UnitWeights.

Lemma cell_step_unit_weights w val_s1 previous st c :
  (∀ x y, x ≠ y → w x y = 1) →
  cell_step (Some w) val_s1 previous st c = cell_step None val_s1 previous st c.
Proof.
  intros Hw. destruct st as [cur mn], c as [idx val_s2]. cbn [cell_step].
  destruct (Ascii.eqb_spec val_s1 val_s2) as [->|Hne]; [done|].
  cbn [substitution]. by rewrite Hw.
Qed.

Lemma next_row_unit_weights w idx_s1 val_s1 s2 previous :
  (∀ x y, x ≠ y → w x y = 1) →
  next_row (Some w) idx_s1 val_s1 s2 previous = next_row None idx_s1 val_s1 s2 previous.
Proof.
  intros Hw. unfold next_row. generalize (enumerate s2).
  generalize ([Z.of_nat idx_s1 + 1], List.nth 0 [Z.of_nat idx_s1 + 1] 0).
  intros st l. revert st. induction l as [|c l IH]; intros st; [done|].
  cbn [fold_left]. by rewrite cell_step_unit_weights, IH.
Qed.

Lemma rows_loop_unit_weights w max_distance s2 s1 :
  (∀ x y, x ≠ y → w x y = 1) →
  ∀ current, rows_loop (Some w) max_distance s1 s2 current
             = rows_loop None max_distance s1 s2 current.
Proof.
  intros Hw. induction s1 as [|[idx val] s1 IH]; intros current; [done|].
  cbn [rows_loop]. rewrite next_row_unit_weights by done.
  destruct (next_row None idx val s2 current) as [cur mn].
  destruct (early_exit max_distance mn); [done|]. apply IH.
Qed.

End UnitWeights.

(** X22: a weight function that charges 1 for every two different
    characters gives the results of the default distance, whatever it
    returns for equal characters and whatever the bound: the weight of equal
    characters is never used. *)
Theorem levenshtein_distance_unit_weights w s1 s2 max_distance case_sensitive :
  (∀ x y, x ≠ y → w x y = 1) →
  levenshtein_distance s1 s2 max_distance (Some w) case_sensitive
  = levenshtein_distance s1 s2 max_distance None case_sensitive.
Proof.
  intros Hw. unfold levenshtein_distance.
  destruct (String.eqb _ "" || String.eqb _ ""); [done|].
  destruct (String.eqb _ _); [done|].
  destruct (operands _ _) as [a b]. by apply rows_loop_unit_weights.
Qed.

Lemma levenshtein_distance_unit_weights_witness :
  levenshtein_distance "book" "cake" None
    (Some (fun x y => if Ascii.eqb x y then 7 else 1)) true
  = levenshtein_distance "book" "cake" None None true.
Proof.
  apply (levenshtein_distance_unit_weights
           (fun x y => if Ascii.eqb x y then 7 else 1) "book" "cake" None true).
  intros x y Hne. by destruct (Ascii.eqb_spec x y).
Defined.



